(** * azure-ipam: the address-space exclusion engine, the aggregator and
      the normalizer of [generate_azure_ipam.py]

    The script computes, for every parent CIDR range, the blocks that no
    virtual network or subnet occupies ([find_unused_subnets]), the
    allocated and unallocated address counts ([get_pie_data]) and the order
    of the rows of each sheet ([sort_ipam_dataframe]).  The three functions
    are embedded below together with the parts of Python's [ipaddress]
    module and of the data-frame sort they call. *)

From Stdlib Require Import ZArith List Bool Lia String Ascii.
From Stdlib Require Import Permutation Sorted OrdersEx SpecFloat.
Import ListNotations.
Local Open Scope Z_scope.

(* ================================================================= *)
(** ** Python values: exceptions, [range], [sorted] *)

Module Python.

(** The exceptions the embedded code can raise.  [AddressValueError] and
    [NetmaskValueError] are subclasses of [ValueError] and nothing here
    catches them separately.  [NotTerminated] is the answer of a loop
    whose iteration bound ran out; [address_exclude_terminates] shows
    that no call ever produces it. *)
Inductive exception : Type :=
| TypeError
| ValueError
| AssertionError
| KeyError
| NotTerminated.

Inductive result (A : Type) : Type :=
| Ok (a : A)
| Raise (e : exception).
Arguments Ok {A} a.
Arguments Raise {A} e.

Definition bind {A B : Type} (c : result A) (k : A -> result B) : result B :=
  match c with
  | Ok a => k a
  | Raise e => Raise e
  end.

Notation "x <- c ;; k" := (bind c (fun x => k))
  (at level 61, c at next level, right associativity).

(** [[f(x) for x in l]]: the first failing element aborts the whole list. *)
Fixpoint comprehension {A B : Type} (f : A -> result B) (l : list A)
  : result (list B) :=
  match l with
  | [] => Ok []
  | x :: l' => y <- f x ;; ys <- comprehension f l' ;; Ok (y :: ys)
  end.

(** [range(start, stop, step)]. *)
Definition range (start stop step : Z) : result (list Z) :=
  if step =? 0 then Raise ValueError
  else
    let n := if 0 <? step then (stop - start + step - 1) / step
             else (start - stop - step - 1) / (- step) in
    Ok (map (fun i => start + Z.of_nat i * step) (seq 0 (Z.to_nat n))).

(** [a, b = it]: unpacking an iterable into exactly two names. *)
Definition unpack2 {A : Type} (l : list A) : result (A * A) :=
  match l with
  | [a; b] => Ok (a, b)
  | _ => Raise ValueError
  end.

(** [sorted(l, key=key)].  Python's sort is stable and calls only [<] on
    the keys.  It is embedded as a stable insertion sort: an element is
    put in front of the first element that is not smaller than it.  For
    a [<] that is a strict weak order this is the list Python returns;
    a [<] that raises for some pair of keys is met by every comparison
    sort of a list that holds such a pair next to each other in the
    result, and the exception goes to the caller. *)
Section Sorted.
Context {A K : Type} (key : A -> K) (lt : K -> K -> result bool).

Fixpoint insert (x : A) (l : list A) : result (list A) :=
  match l with
  | [] => Ok [x]
  | y :: l' =>
      b <- lt (key y) (key x) ;;
      if b then (r <- insert x l' ;; Ok (y :: r)) else Ok (x :: y :: l')
  end.

Fixpoint sorted (l : list A) : result (list A) :=
  match l with
  | [] => Ok []
  | x :: l' => s <- sorted l' ;; insert x s
  end.
End Sorted.

End Python.
Import Python.

(* ================================================================= *)
(** ** The [ipaddress] module *)

Module ipaddress.

Inductive ip_version : Type := IPv4 | IPv6.

Definition version_eqb (v w : ip_version) : bool :=
  match v, w with
  | IPv4, IPv4 | IPv6, IPv6 => true
  | _, _ => false
  end.

Definition max_prefixlen (v : ip_version) : Z :=
  match v with IPv4 => 32 | IPv6 => 128 end.

Definition ALL_ONES (v : ip_version) : Z := 2 ^ max_prefixlen v - 1.

(** An [IPv4Network] or [IPv6Network] object: the class, the integer of
    its [network_address] and its [_prefixlen]. *)
Record network : Type := IPNetwork {
  version : ip_version;
  network_address : Z;
  prefixlen : Z
}.

Definition _ip_int_from_prefix (v : ip_version) (p : Z) : Z :=
  Z.lxor (ALL_ONES v) (Z.shiftr (ALL_ONES v) p).

Definition netmask (n : network) : Z :=
  _ip_int_from_prefix (version n) (prefixlen n).

Definition hostmask (n : network) : Z :=
  Z.lxor (netmask n) (ALL_ONES (version n)).

Definition broadcast_address (n : network) : Z :=
  Z.lor (network_address n) (hostmask n).

Definition num_addresses (n : network) : Z :=
  broadcast_address n - network_address n + 1.

(** The constructor [IPv4Network((addr, prefix))] (strict): the address
    must fit the family, the prefix length must be in range and no host
    bit may be set. *)
Definition make_network (v : ip_version) (addr p : Z) : result network :=
  if (addr <? 0) || (ALL_ONES v <? addr) then Raise ValueError
  else if negb ((0 <=? p) && (p <=? max_prefixlen v)) then Raise ValueError
  else if negb (Z.land addr (_ip_int_from_prefix v p) =? addr)
       then Raise ValueError
  else Ok (IPNetwork v addr p).

(** [ip_network(n)] for the text of a network (or a network object, which
    is parsed again from its text). *)
Definition ip_network (n : network) : result network :=
  make_network (version n) (network_address n) (prefixlen n).

(** [__eq__] of networks. *)
Definition network_eq (a b : network) : bool :=
  version_eqb (version a) (version b)
  && (network_address a =? network_address b)
  && (netmask a =? netmask b).

(** [__eq__] and [__lt__] of the address objects inside the sort key. *)
Definition address_eq (a b : ip_version * Z) : bool :=
  (snd a =? snd b) && version_eqb (fst a) (fst b).

Definition address_lt (a b : ip_version * Z) : result bool :=
  if negb (version_eqb (fst a) (fst b)) then Raise TypeError
  else Ok (if negb (snd a =? snd b) then snd a <? snd b else false).

Definition _is_subnet_of (a b : network) : result bool :=
  if negb (version_eqb (version a) (version b)) then Raise TypeError
  else Ok ((network_address b <=? network_address a)
           && (broadcast_address a <=? broadcast_address b)).

Definition subnet_of (self other : network) : result bool :=
  _is_subnet_of self other.

(** [self.subnets()] with the default [prefixlen_diff=1]. *)
Definition subnets (self : network) : result (list network) :=
  if prefixlen self =? max_prefixlen (version self) then Ok [self]
  else
    let prefixlen_diff := 1 in
    let new_prefixlen := prefixlen self + prefixlen_diff in
    if max_prefixlen (version self) <? new_prefixlen then Raise ValueError
    else
      let start := network_address self in
      let stop := broadcast_address self + 1 in
      let step := Z.shiftr (hostmask self + 1) prefixlen_diff in
      addrs <- range start stop step ;;
      comprehension (fun new_addr =>
                       make_network (version self) new_addr new_prefixlen)
                    addrs.

(** The loop of [address_exclude]: [c] is the block whose two halves
    [s1], [s2] are looked at; the half that holds [other] is the next
    [c], the other half is yielded.  [bound] counts the iterations
    left. *)
Fixpoint exclude_loop (bound : nat) (c other : network)
  : result (list network) :=
  halves <- subnets c ;;
  s <- unpack2 halves ;;
  let (s1, s2) := s in
  if negb (network_eq s1 other) && negb (network_eq s2 other) then
    match bound with
    | O => Raise NotTerminated
    | S bound' =>
        in1 <- subnet_of other s1 ;;
        if in1 then
          rest <- exclude_loop bound' s1 other ;; Ok (s2 :: rest)
        else
          in2 <- subnet_of other s2 ;;
          if in2 then
            rest <- exclude_loop bound' s2 other ;; Ok (s1 :: rest)
          else Raise AssertionError
    end
  else if network_eq s1 other then Ok [s2]
  else if network_eq s2 other then Ok [s1]
  else Raise AssertionError.

(** [self.address_exclude(other)], with the generator run to its end. *)
Definition address_exclude (self other : network) : result (list network) :=
  if negb (version_eqb (version self) (version other)) then Raise TypeError
  else
    contained <- subnet_of other self ;;
    if negb contained then Raise ValueError
    else if network_eq other self then Ok []
    else
      other' <- make_network (version other) (network_address other)
                             (prefixlen other) ;;
      exclude_loop (Z.to_nat (max_prefixlen (version self) - prefixlen self))
                   self other'.

End ipaddress.
Import ipaddress.

(* ================================================================= *)
(** ** [find_unused_subnets] *)

(** The sort key [(n.network_address, n.prefixlen)] and the comparison of
    two such tuples: the first components are compared with [==]; when
    they differ [<] decides, which raises for two different families. *)
Definition sort_key (n : network) : (ip_version * Z) * Z :=
  ((version n, network_address n), prefixlen n).

Definition key_lt (k1 k2 : (ip_version * Z) * Z) : result bool :=
  if address_eq (fst k1) (fst k2) then Ok (snd k1 <? snd k2)
  else address_lt (fst k1) (fst k2).

(** The inner loop: one occupied block [u] against every available block. *)
Fixpoint exclude_from_available (u : network) (available : list network)
  : result (list network) :=
  match available with
  | [] => Ok []
  | a :: rest =>
      inside <- subnet_of u a ;;
      pieces <- (if inside then address_exclude a u else Ok [a]) ;;
      new_available <- exclude_from_available u rest ;;
      Ok (pieces ++ new_available)
  end.

(** The outer loop over the sorted occupied blocks. *)
Fixpoint exclude_all (used available : list network)
  : result (list network) :=
  match used with
  | [] => Ok available
  | u :: used' =>
      new_available <- exclude_from_available u available ;;
      exclude_all used' new_available
  end.

Definition sorted_used (used_networks : list network) : result (list network) :=
  nets <- comprehension ip_network used_networks ;;
  sorted sort_key key_lt nets.

Definition find_unused_subnets (parent_cidr : network)
           (used_networks : list network) : result (list network) :=
  used <- sorted_used used_networks ;;
  exclude_all used [parent_cidr].

(* ================================================================= *)
(** ** Rows and data frames *)

(** The cell of the "Address" column holds the text of an address, written
    here as the family and the integer the text stands for, or the marker
    "N/A" of a subnet without address space.  The cell of the "CIDR Prefix"
    column holds an integer or the same marker. *)
Inductive address_cell : Type :=
| AddressText (v : ip_version) (ip : Z)
| AddressNA.

Inductive prefix_cell : Type :=
| PrefixInt (p : Z)
| PrefixNA.

Record Row : Type := mkRow {
  Address : address_cell;
  CIDR_Prefix : prefix_cell;
  IP_Range : string;
  Subnet_Name : string;
  VNet_Name : string;
  Resource_Group_Name : string;
  Subscription_Name : string;
  Region : string;
  Status : string
}.

Record DataFrame : Type := mkDataFrame {
  columns : list string;
  rows : list Row
}.

(** A value of the [_ip_sort] column: an integer or [float('inf')]. *)
Inductive sort_value : Type :=
| Finite (z : Z)
| Infinity.

(** A stable insertion sort with a comparison that cannot fail; one pass
    of the data-frame sort, and what [sorted] computes when no comparison
    raises. *)
Section StableSort.
Context {A : Type} (lt : A -> A -> bool).

Fixpoint stable_insert (x : A) (l : list A) : list A :=
  match l with
  | [] => [x]
  | y :: l' => if lt y x then y :: stable_insert x l' else x :: y :: l'
  end.

Fixpoint stable_sort (l : list A) : list A :=
  match l with
  | [] => []
  | x :: l' => stable_insert x (stable_sort l')
  end.
End StableSort.

(** [sort_values(by=[k1; ...; kn])]: a stable sort on the columns in
    lexicographic order, computed by one stable pass per column, from the
    last column to the first. *)
Definition sort_values {A : Type} (by_ : list (A -> A -> bool)) (l : list A)
  : list A :=
  fold_right (fun lt acc => stable_sort lt acc) l by_.

Definition sort_value_lt (a b : sort_value) : bool :=
  match a, b with
  | Finite x, Finite y => x <? y
  | Finite _, Infinity => true
  | Infinity, _ => false
  end.

(** Integers come before text in a column that mixes both. *)
Definition prefix_cell_lt (a b : prefix_cell) : bool :=
  match a, b with
  | PrefixInt x, PrefixInt y => x <? y
  | PrefixInt _, PrefixNA => true
  | PrefixNA, _ => false
  end.

Definition ip_key (addr : address_cell) : sort_value :=
  match addr with
  | AddressText v ip =>
      match make_network v ip (max_prefixlen v) with
      | Ok n => Finite (network_address n)
      | Raise _ => Infinity
      end
  | AddressNA => Infinity
  end.

Definition has_column (name : string) (df : DataFrame) : bool :=
  existsb (String.eqb name) (columns df).

(** The rows carry their [_ip_sort] value as a first component while they
    are sorted; dropping the column projects it away again. *)
Definition by_ip_sort (a b : sort_value * Row) : bool :=
  sort_value_lt (fst a) (fst b).
Definition by_cidr_prefix (a b : sort_value * Row) : bool :=
  prefix_cell_lt (CIDR_Prefix (snd a)) (CIDR_Prefix (snd b)).
Definition by_status (a b : sort_value * Row) : bool :=
  String.ltb (Status (snd a)) (Status (snd b)).

(** The [_ip_sort] column as the data frame holds it.  [Series.map] infers
    the type of the column from the mapped values.  Integers alone stay
    exact: a column of 64-bit integers, or of Python integers when one of
    them is [2^64] or more.  With a [float('inf')] among them, integers
    that all fit 64 bits make a column of doubles, in which every integer
    is replaced by the nearest double, ties going to the even mantissa; one
    integer of [2^64] or more keeps the column a column of Python objects,
    integers and [inf] as they are. *)
Definition is_infinity (k : sort_value) : bool :=
  match k with
  | Infinity => true
  | Finite _ => false
  end.

Definition fits_uint64 (k : sort_value) : bool :=
  match k with
  | Finite z => z <? 2 ^ 64
  | Infinity => true
  end.

Definition as_float64 (keys : list sort_value) : bool :=
  existsb is_infinity keys && forallb fits_uint64 keys.

(** [float(z)] as an integer again: below [2^53] every integer is a double;
    above, the 53 leading bits are kept and the rest is rounded off. *)
Definition float64_of_int (z : Z) : Z :=
  if z <? 2 ^ 53 then z
  else
    let unit := 2 ^ (Z.log2 z - 52) in
    let q := z / unit in
    let r := z mod unit in
    let up := if (unit <? 2 * r) || ((2 * r =? unit) && Z.odd q)
              then 1 else 0 in
    (q + up) * unit.

Definition series_value (float64 : bool) (k : sort_value) : sort_value :=
  if float64 then
    match k with
    | Finite z => Finite (float64_of_int z)
    | Infinity => Infinity
    end
  else k.

(** [df["Address"].map(ip_key)] before the column gets its type. *)
Definition mapped_keys (rows : list Row) : list sort_value :=
  map (fun r => ip_key (Address r)) rows.

(** The [_ip_sort] value of a row in a column of doubles ([float64 = true])
    or in an exact column. *)
Definition ip_sort (float64 : bool) (r : Row) : sort_value :=
  series_value float64 (ip_key (Address r)).

(** [assign(_ip_sort=df["Address"].map(ip_key))] on one row. *)
Definition with_ip_sort (float64 : bool) (r : Row) : sort_value * Row :=
  (ip_sort float64 r, r).

Definition sort_ipam_dataframe (df : DataFrame) : result DataFrame :=
  if has_column "Address" df then
    let float64 := as_float64 (mapped_keys (rows df)) in
    let assigned := map (with_ip_sort float64) (rows df) in
    if has_column "CIDR Prefix" df && has_column "Status" df then
      let sorted_rows :=
        sort_values [by_ip_sort; by_cidr_prefix; by_status] assigned in
      Ok (mkDataFrame (columns df) (map snd sorted_rows))
    else Raise KeyError
  else Ok df.

(* ================================================================= *)
(** ** [get_pie_data] *)

Record PieRow : Type := mkPieRow {
  CIDR_Range : network;
  Allocated : Z;
  Unallocated : Z
}.

(** [ip_network(f"{row['Address']}/{row['CIDR Prefix']}").num_addresses] *)
Definition row_num_addresses (row : Row) : result Z :=
  match Address row, CIDR_Prefix row with
  | AddressText v ip, PrefixInt p =>
      n <- make_network v ip p ;; Ok (num_addresses n)
  | _, _ => Raise ValueError
  end.

Definition is_used (row : Row) : bool := String.eqb (Status row) "Used".

(** [str(a) == str(b)] for two networks. *)
Definition same_text (a b : network) : bool :=
  version_eqb (version a) (version b)
  && (network_address a =? network_address b)
  && (prefixlen a =? prefixlen b).

(** [cidr_data[str(cidr)]] *)
Fixpoint getitem (cidr_data : list (network * list Row)) (cidr : network)
  : result (list Row) :=
  match cidr_data with
  | [] => Raise KeyError
  | (k, data) :: others =>
      if same_text k cidr then Ok data else getitem others cidr
  end.

Definition sum (l : list Z) : Z := fold_left Z.add l 0.

Fixpoint get_pie_data (user_cidrs : list network)
         (cidr_data : list (network * list Row)) : result (list PieRow) :=
  match user_cidrs with
  | [] => Ok []
  | cidr :: others =>
      net <- ip_network cidr ;;
      let total_ips := num_addresses net in
      data <- getitem cidr_data cidr ;;
      counts <- comprehension row_num_addresses (filter is_used data) ;;
      let used_ips := sum counts in
      let entry := mkPieRow cidr used_ips (Z.max (total_ips - used_ips) 0) in
      pie_data <- get_pie_data others cidr_data ;;
      Ok (entry :: pie_data)
  end.

(* ================================================================= *)
(** ** Vocabulary of the specification *)

(** The size [2^(addressWidth - prefixLength)] of a block. *)
Definition block_size (n : network) : Z :=
  2 ^ (max_prefixlen (version n) - prefixlen n).

(** A validly aligned address block of its family. *)
Definition valid (n : network) : Prop :=
  0 <= prefixlen n <= max_prefixlen (version n)
  /\ 0 <= network_address n <= ALL_ONES (version n)
  /\ network_address n mod block_size n = 0.

Definition covers (n : network) (x : Z) : Prop :=
  network_address n <= x <= broadcast_address n.

Definition within (a b : network) : Prop :=
  network_address b <= network_address a
  /\ broadcast_address a <= broadcast_address b.

Definition disjoint (a b : network) : Prop :=
  broadcast_address a < network_address b
  \/ broadcast_address b < network_address a.

Definition pairwise_disjoint (l : list network) : Prop :=
  ForallOrdPairs disjoint l.

Definition total_addresses (l : list network) : Z :=
  sum (map num_addresses l).

(** A block of the family of [p] that the constructor accepts. *)
Definition block_of (p n : network) : Prop :=
  ip_network n = Ok n /\ version n = version p.

(** Every occupied block is, when its turn comes, inside some block of the
    working set. *)
Fixpoint each_contained (used available : list network) : Prop :=
  match used with
  | [] => True
  | u :: used' =>
      (exists a, In a available /\ subnet_of u a = Ok true)
      /\ exists new_available,
          exclude_from_available u available = Ok new_available
          /\ each_contained used' new_available
  end.

(** The order of the sort key on blocks of one family. *)
Definition block_lt (a b : network) : bool :=
  if network_address a =? network_address b then prefixlen a <? prefixlen b
  else network_address a <? network_address b.

(** What one occupied block does to one available block. *)
Definition pieces (u a : network) : list network :=
  match subnet_of u a with
  | Ok true => match address_exclude a u with Ok l => l | Raise _ => [] end
  | _ => [a]
  end.

(** The order of the normalizer on rows: the key [key] of the address, then
    the prefix length, then the status name. *)
Definition row_le (key : Row -> sort_value) (a b : Row) : Prop :=
  sort_value_lt (key b) (key a) = false
  /\ (sort_value_lt (key a) (key b) = false ->
      prefix_cell_lt (CIDR_Prefix b) (CIDR_Prefix a) = false
      /\ (prefix_cell_lt (CIDR_Prefix a) (CIDR_Prefix b) = false ->
          String.ltb (Status b) (Status a) = false)).

(** Two rows that none of the three keys tells apart. *)
Definition row_tied (key : Row -> sort_value) (a b : Row) : bool :=
  negb (sort_value_lt (key a) (key b))
  && negb (sort_value_lt (key b) (key a))
  && negb (prefix_cell_lt (CIDR_Prefix a) (CIDR_Prefix b))
  && negb (prefix_cell_lt (CIDR_Prefix b) (CIDR_Prefix a))
  && negb (String.ltb (Status a) (Status b))
  && negb (String.ltb (Status b) (Status a)).

(** The number of the address of a row, the key the sort is meant to use,
    and the key of a row in the [_ip_sort] column of a frame with the rows
    [rows]. *)
Definition address_number (r : Row) : sort_value := ip_key (Address r).

Definition held_key (rows : list Row) (r : Row) : sort_value :=
  ip_sort (as_float64 (mapped_keys rows)) r.

(** The frames whose [_ip_sort] column holds every address number as it
    is: no double is involved, or every number is below [2^53]. *)
Definition below_2_53 (k : sort_value) : bool :=
  match k with
  | Finite z => z <? 2 ^ 53
  | Infinity => true
  end.

Definition exact_keys (rows : list Row) : bool :=
  negb (as_float64 (mapped_keys rows))
  || forallb below_2_53 (mapped_keys rows).

(** The address count of the block a Used row describes. *)
Definition row_block_size (row : Row) : Z :=
  match Address row, CIDR_Prefix row with
  | AddressText v _, PrefixInt p => 2 ^ (max_prefixlen v - p)
  | _, _ => 0
  end.

(** The two halves [subnets] cuts a block into. *)
Definition lower_half (n : network) : network :=
  IPNetwork (version n) (network_address n) (prefixlen n + 1).

Definition upper_half (n : network) : network :=
  IPNetwork (version n)
            (network_address n + block_size (lower_half n))
            (prefixlen n + 1).

(** [l] is block [c] without block [o]: valid blocks of the family of [c],
    inside [c], apart from [o] and from each other, that together with [o]
    use up [c]. *)
Definition exclusion_of (c o : network) (l : list network) : Prop :=
  Forall (fun b => valid b /\ version b = version c
                   /\ within b c /\ disjoint b o) l
  /\ pairwise_disjoint l
  /\ (forall x, covers c x -> covers o x \/ Exists (fun b => covers b x) l)
  /\ total_addresses l + num_addresses o = num_addresses c.

(** The working set after one occupied block, and after a list of them,
    when nothing raises. *)
Definition carve_one (u : network) (available : list network) : list network :=
  flat_map (pieces u) available.

Definition carve (used available : list network) : list network :=
  fold_left (fun av u => carve_one u av) used available.

(** The order a stable pass with [lt] leaves behind on a list that was in
    order for [R]: in order for [lt], and still in order for [R] between
    elements that [lt] does not tell apart. *)
Definition refined {A : Type} (lt : A -> A -> bool) (R : A -> A -> Prop)
           (a b : A) : Prop :=
  lt b a = false /\ (lt a b = false -> R a b).

(** All blocks of [l] belong to family [v]. *)
Definition family_of (v : ip_version) (l : list network) : bool :=
  forallb (fun n => version_eqb (version n) v) l.

(** The working set [available] and the occupied blocks [done] excluded so
    far split the parent [p] between them. *)
Definition partition_of (p : network) (available done : list network) : Prop :=
  Forall (fun a => valid a /\ version a = version p /\ within a p) available
  /\ pairwise_disjoint available
  /\ Forall valid done
  /\ pairwise_disjoint done
  /\ Forall (fun a => Forall (disjoint a) done) available
  /\ (forall x, covers p x <->
                Exists (fun a => covers a x) available
                \/ Exists (fun u => covers u x) done)
  /\ total_addresses available + total_addresses done = num_addresses p.

(** The occupied blocks of a collection are, in the order of the run, each
    inside some block of the working set when their turn comes. *)
Definition contained_in_turn (parent_cidr : network)
           (used_networks : list network) : Prop :=
  exists used,
    sorted_used used_networks = Ok used /\ each_contained used [parent_cidr].

(** Rows for the examples: a Used row of a named subnet, and the row of a
    subnet without address space. *)
Definition used_row (v : ip_version) (ip p : Z) (name : string) : Row :=
  mkRow (AddressText v ip) (PrefixInt p) EmptyString name EmptyString
        EmptyString EmptyString EmptyString "Used".

Definition no_address_row (name : string) : Row :=
  mkRow AddressNA PrefixNA "N/A" name EmptyString EmptyString EmptyString
        EmptyString "No address space assigned".

(** Two rows with their [_ip_sort] values that none of the three sort
    columns tells apart. *)
Definition pair_tied (a b : sort_value * Row) : bool :=
  negb (by_ip_sort a b) && negb (by_ip_sort b a)
  && negb (by_cidr_prefix a b) && negb (by_cidr_prefix b a)
  && negb (by_status a b) && negb (by_status b a).

(** Dotted-quad notation for the examples. *)
Definition ipv4 (a b c d p : Z) : network :=
  IPNetwork IPv4 (((a * 256 + b) * 256 + c) * 256 + d) p.

(** The columns of a sheet and a small frame for the examples. *)
Definition sheet_columns : list string :=
  ["Address"; "CIDR Prefix"; "IP Range"; "Subnet Name"; "VNet Name";
   "Resource Group Name"; "Subscription Name"; "Region"; "Status"]%string.

Definition example_frame : DataFrame :=
  mkDataFrame sheet_columns
    [no_address_row "empty";
     used_row IPv4 (network_address (ipv4 10 0 0 64 26)) 26 "backend";
     used_row IPv4 (network_address (ipv4 10 0 0 0 24)) 26 "frontend";
     used_row IPv4 (network_address (ipv4 10 0 0 0 24)) 24 "vnet-scope";
     used_row IPv4 (network_address (ipv4 10 0 0 0 24)) 26 "duplicate"].

(** The double nearest to an integer by the IEEE 754 arithmetic of the
    Standard Library, as an integer again, to compare [float64_of_int]
    with. *)
Definition binary64_of_int (z : Z) : Z :=
  match binary_normalize 53 1024 z 0 false with
  | S754_finite false m e =>
      if e <? 0 then Z.pos m / 2 ^ (- e) else Z.pos m * 2 ^ e
  | _ => 0
  end.

Definition unused_row (v : ip_version) (ip p : Z) : Row :=
  mkRow (AddressText v ip) (PrefixInt p) EmptyString EmptyString EmptyString
        EmptyString EmptyString EmptyString "Unused".

(** The rows [main] has for the range [::20:0:0:0/126] when the subnet
    [::20:0:0:0/128] is in use and another subnet has no address space:
    the addresses are the numbers [2^53], [2^53 + 2] and [2^53 + 1]. *)
Definition rounded_frame : DataFrame :=
  mkDataFrame sheet_columns
    [used_row IPv6 (2 ^ 53) 128 "gateway";
     no_address_row "pending";
     unused_row IPv6 (2 ^ 53 + 2) 127;
     unused_row IPv6 (2 ^ 53 + 1) 128].





(** Rows without ties, in two orders. *)
Definition distinct_frame : DataFrame :=
  mkDataFrame sheet_columns
    [no_address_row "empty";
     used_row IPv4 (network_address (ipv4 10 0 0 64 26)) 26 "backend";
     used_row IPv4 (network_address (ipv4 10 0 0 0 24)) 24 "vnet-scope"].

Definition distinct_frame_shuffled : DataFrame :=
  mkDataFrame sheet_columns
    [used_row IPv4 (network_address (ipv4 10 0 0 64 26)) 26 "backend";
     used_row IPv4 (network_address (ipv4 10 0 0 0 24)) 24 "vnet-scope";
     no_address_row "empty"].

(** The working set [available] is what the occupied blocks [done] leave
    of the parent [p]: blocks of [p] apart from each other and from every
    block of [done], that cover the rest of [p] and hold every block of [p]
    that is apart from [done].  The blocks of [done] may overlap. *)
Definition complement_of (p : network) (available done : list network)
  : Prop :=
  Forall (fun a => valid a /\ version a = version p /\ within a p) available
  /\ pairwise_disjoint available
  /\ Forall (fun d => valid d /\ version d = version p) done
  /\ Forall (fun a => Forall (disjoint a) done) available
  /\ (forall x, covers p x ->
                Exists (fun a => covers a x) available
                \/ Exists (fun d => covers d x) done)
  /\ (forall b, valid b -> version b = version p -> within b p ->
                Forall (disjoint b) done ->
                Exists (fun a => within b a) available).

(** [u.subnet_of(p)] as a test that does not raise. *)
Definition inside (p u : network) : bool :=
  match subnet_of u p with
  | Ok true => true
  | _ => false
  end.

(* ================================================================= *)
(** ** Sheet helpers: [excel_col_letter], [sanitize_sheet_name],
       [reorder_columns] *)

(** [chr(n)], for the code points below 256 that the script produces. *)
Definition chr (n : Z) : ascii := ascii_of_N (Z.to_N n).

(** [ord(c)] *)
Definition ord (c : ascii) : Z := Z.of_N (N_of_ascii c).

(** The loop of [excel_col_letter]; [bound] counts the iterations left. *)
Fixpoint excel_col_loop (bound : nat) (idx : Z) (letters : string)
  : result string :=
  if 0 <=? idx then
    match bound with
    | O => Raise NotTerminated
    | S bound' =>
        let letters := String (chr (idx mod 26 + 65)) letters in
        let idx := idx / 26 - 1 in
        excel_col_loop bound' idx letters
    end
  else Ok letters.

Definition excel_col_letter (idx : Z) : result string :=
  excel_col_loop (Z.to_nat (idx + 1)) idx EmptyString.

(** The column index a column name stands for: the letters are the digits
    1 to 26 of a number in base 26, and the index is that number less
    one. *)
Fixpoint col_value (s : string) (acc : Z) : Z :=
  match s with
  | EmptyString => acc
  | String c s' => col_value s' (acc * 26 + (ord c - 64))
  end.

Definition col_index (s : string) : Z := col_value s 0 - 1.

Definition is_upper (c : ascii) : bool := (65 <=? ord c) && (ord c <=? 90).

(** [re.sub(r'[\\/*?:\[\]]', '_', name)]: the class holds the backslash,
    the slash, the star, the question mark, the colon and the two square
    brackets. *)
Definition in_class (c : ascii) : bool :=
  existsb (Ascii.eqb c) ["\"; "/"; "*"; "?"; ":"; "["; "]"]%char.

Fixpoint re_sub_class (name : string) : string :=
  match name with
  | EmptyString => EmptyString
  | String c rest =>
      String (if in_class c then "_"%char else c) (re_sub_class rest)
  end.

(** [name.replace("'", "")] *)
Fixpoint drop_apostrophes (name : string) : string :=
  match name with
  | EmptyString => EmptyString
  | String c rest =>
      if Ascii.eqb c "'"%char then drop_apostrophes rest
      else String c (drop_apostrophes rest)
  end.

(** [name[:n]] *)
Fixpoint take (n : nat) (name : string) : string :=
  match n, name with
  | S n', String c rest => String c (take n' rest)
  | _, _ => EmptyString
  end.

Definition sanitize_sheet_name (name : string) : string :=
  let name := re_sub_class name in
  let name := drop_apostrophes name in
  take 31 name.

(** [cols.remove(x)]: the first occurrence goes; [ValueError] without
    one. *)
Fixpoint list_remove (x : string) (cols : list string)
  : result (list string) :=
  match cols with
  | [] => Raise ValueError
  | c :: rest =>
      if String.eqb c x then Ok rest
      else (r <- list_remove x rest ;; Ok (c :: r))
  end.

(** [cols.index(x)] *)
Fixpoint list_index (x : string) (cols : list string) : result nat :=
  match cols with
  | [] => Raise ValueError
  | c :: rest =>
      if String.eqb c x then Ok O
      else (i <- list_index x rest ;; Ok (S i))
  end.

(** [df[cols]]: for every label, the columns of the frame that carry it. *)
Definition select_columns (df : DataFrame) (cols : list string) : DataFrame :=
  mkDataFrame (flat_map (fun c => filter (String.eqb c) (columns df)) cols)
              (rows df).

Definition reorder_columns (df : DataFrame) : result DataFrame :=
  let cols := columns df in
  if existsb (String.eqb "IP Range") cols then
    cols <- list_remove "IP Range" cols ;;
    i <- list_index "CIDR Prefix" cols ;;
    let idx := S i in
    let cols := firstn idx cols ++ ["IP Range"%string] ++ skipn idx cols in
    Ok (select_columns df cols)
  else Ok df.

(** Every character of a string. *)
Fixpoint string_forall (p : ascii -> bool) (s : string) : bool :=
  match s with
  | EmptyString => true
  | String c rest => p c && string_forall p rest
  end.

(** A character a sheet name may hold: none of the class and no
    apostrophe. *)
Definition sheet_char (c : ascii) : bool :=
  negb (in_class c) && negb (Ascii.eqb c "'"%char).

(* ================================================================= *)
(** ** [collect_azure_ipam_data] and the Unused rows of [main] *)

(** What the Azure clients list: subscriptions, their resource groups, the
    virtual networks of a group with their address prefixes, and the
    subnets of a network.  An address prefix is the text of a network;
    [None] stands for a subnet whose [address_prefix] is empty or absent. *)
Record Subnet : Type := mkSubnet {
  subnet_name : string;
  address_prefix : option network
}.

Record VirtualNetwork : Type := mkVirtualNetwork {
  vnet_name : string;
  location : string;
  address_prefixes : list network;
  vnet_subnets : list Subnet
}.

Record ResourceGroup : Type := mkResourceGroup {
  rg_name : string;
  virtual_networks : list VirtualNetwork
}.

Record Subscription : Type := mkSubscription {
  subscription_id : string;
  display_name : string;
  resource_groups : list ResourceGroup
}.

(** [for x in l: ...] over a state, the first exception ends the loop. *)
Fixpoint for_each {A S : Type} (body : A -> S -> result S) (l : list A)
         (s : S) : result S :=
  match l with
  | [] => Ok s
  | x :: rest => s' <- body x s ;; for_each body rest s'
  end.

(** Dictionaries keyed by [str(cidr)], in insertion order. *)
Definition has_key {V : Type} (d : list (network * V)) (k : network) : bool :=
  existsb (fun e => same_text (fst e) k) d.

(** [{str(cidr): v for cidr in keys}] *)
Definition dict_init {V : Type} (keys : list network) (v : V)
  : list (network * V) :=
  fold_left (fun d k => if has_key d k then d else d ++ [(k, v)]) keys [].

(** [d[str(k)]] *)
Fixpoint dict_get {V : Type} (d : list (network * V)) (k : network)
  : result V :=
  match d with
  | [] => Raise KeyError
  | (k', v) :: rest => if same_text k' k then Ok v else dict_get rest k
  end.

(** [d[str(k)]] changed in place by [f]. *)
Fixpoint dict_update {V : Type} (d : list (network * V)) (k : network)
         (f : V -> V) : result (list (network * V)) :=
  match d with
  | [] => Raise KeyError
  | (k', v) :: rest =>
      if same_text k' k then Ok ((k', f v) :: rest)
      else (r <- dict_update rest k f ;; Ok ((k', v) :: r))
  end.

(** [s.add(str(net))] on a set of network texts.  The set is kept in the
    order of insertion; [find_unused_subnets] sorts what it is given, so
    the order in which Python enumerates the set has no influence on the
    result. *)
Definition set_add (s : list network) (net : network) : list network :=
  if existsb (same_text net) s then s else s ++ [net].

Definition ipam_state : Type :=
  (list (network * list Row) * list (network * list network))%type.

Section Collection.
(** [str(address)] of an address object. *)
Variable str_address : ip_version -> Z -> string.

(** [f"{net.network_address} - {net.broadcast_address}"] *)
Definition ip_range (net : network) : string :=
  (str_address (version net) (network_address net) ++ " - "
   ++ str_address (version net) (broadcast_address net))%string.

(** The row of a network: a VNet address space, a subnet or a free block. *)
Definition network_row (net : network)
           (subnet vnet rg sub region status : string) : Row :=
  mkRow (AddressText (version net) (network_address net))
        (PrefixInt (prefixlen net)) (ip_range net)
        subnet vnet rg sub region status.

Definition append_row (row : Row) (rows : list Row) : list Row :=
  rows ++ [row].

(** [for user_cidr in user_cidrs: if net.subnet_of(user_cidr): ...] *)
Definition record_used (user_cidrs : list network) (net : network) (row : Row)
  : ipam_state -> result ipam_state :=
  for_each (fun user_cidr st =>
              is_inside <- subnet_of net user_cidr ;;
              if is_inside then
                cidr_data <- dict_update (fst st) user_cidr (append_row row) ;;
                used_subnets_map <-
                  dict_update (snd st) user_cidr (fun s => set_add s net) ;;
                Ok (cidr_data, used_subnets_map)
              else Ok st)
           user_cidrs.

(** The rows of a subnet without address space, one for every range. *)
Definition record_no_address (user_cidrs : list network) (row : Row)
  : ipam_state -> result ipam_state :=
  for_each (fun user_cidr st =>
              cidr_data <- dict_update (fst st) user_cidr (append_row row) ;;
              Ok (cidr_data, snd st))
           user_cidrs.

Definition collect_subnet (user_cidrs : list network)
           (sub rg : string) (vnet : VirtualNetwork) (subnet : Subnet)
           (st : ipam_state) : result ipam_state :=
  match address_prefix subnet with
  | None =>
      record_no_address user_cidrs
        (mkRow AddressNA PrefixNA "N/A" (subnet_name subnet) (vnet_name vnet)
               rg sub (location vnet) "No address space assigned")
        st
  | Some prefix =>
      subnet_net <- ip_network prefix ;;
      record_used user_cidrs subnet_net
        (network_row subnet_net (subnet_name subnet) (vnet_name vnet) rg sub
                     (location vnet) "Used")
        st
  end.

Definition collect_vnet (user_cidrs : list network) (sub rg : string)
           (vnet : VirtualNetwork) (st : ipam_state) : result ipam_state :=
  st <- for_each (fun vnet_cidr st =>
                    vnet_net <- ip_network vnet_cidr ;;
                    record_used user_cidrs vnet_net
                      (network_row vnet_net "vnet-scope" (vnet_name vnet) rg
                                   sub (location vnet) "Used")
                      st)
                 (address_prefixes vnet) st ;;
  for_each (collect_subnet user_cidrs sub rg vnet) (vnet_subnets vnet) st.

Definition collect_azure_ipam_data (user_cidrs : list network)
           (subscriptions : list Subscription) : result ipam_state :=
  for_each (fun sub =>
              for_each (fun rg =>
                          for_each (collect_vnet user_cidrs (display_name sub)
                                                 (rg_name rg))
                                   (virtual_networks rg))
                       (resource_groups sub))
           subscriptions
           (dict_init user_cidrs [], dict_init user_cidrs []).

(** The loop of [main] that appends one Unused row for every free block of
    every range. *)
Definition add_unused_rows (user_cidrs : list network)
           (used_subnets_map : list (network * list network))
           (cidr_data : list (network * list Row))
  : result (list (network * list Row)) :=
  for_each (fun user_cidr cidr_data =>
              used_networks <- dict_get used_subnets_map user_cidr ;;
              unused_subnets <- find_unused_subnets user_cidr used_networks ;;
              for_each (fun unused cidr_data =>
                          dict_update cidr_data user_cidr
                            (append_row
                               (network_row unused EmptyString EmptyString
                                            EmptyString EmptyString
                                            EmptyString "Unused")))
                       unused_subnets cidr_data)
           user_cidrs cidr_data.
End Collection.

(** Every address prefix the listing holds. *)
Definition subnet_prefixes (subnets : list Subnet) : list network :=
  flat_map (fun s => match address_prefix s with
                     | Some prefix => [prefix]
                     | None => []
                     end) subnets.

Definition vnet_prefixes (vnet : VirtualNetwork) : list network :=
  address_prefixes vnet ++ subnet_prefixes (vnet_subnets vnet).

Definition listed_prefixes (subscriptions : list Subscription)
  : list network :=
  flat_map (fun sub =>
              flat_map (fun rg => flat_map vnet_prefixes (virtual_networks rg))
                       (resource_groups sub))
           subscriptions.

(** What holds of the two dictionaries all through the collection: the
    Used rows of a range describe blocks, every row has one of the three
    statuses, and the occupied blocks of a range are blocks of its family
    inside it. *)
Definition row_ok (row : Row) : Prop :=
  (is_used row = true -> exists n, row_num_addresses row = Ok n)
  /\ (Status row = "Used" \/ Status row = "Unused"
      \/ Status row = "No address space assigned")%string.

Definition rows_ok (cidr_data : list (network * list Row)) : Prop :=
  Forall (fun e => Forall row_ok (snd e)) cidr_data.

Definition blocks_ok (used_subnets_map : list (network * list network))
  : Prop :=
  Forall (fun e => Forall (fun n => block_of (fst e) n
                                    /\ subnet_of n (fst e) = Ok true)
                          (snd e))
         used_subnets_map.

(** A listing for the examples: one network with two subnets, one of them
    without address space. *)
Definition example_listing : list Subscription :=
  [mkSubscription "0000" "production"
     [mkResourceGroup "rg-net"
        [mkVirtualNetwork "vnet-hub" "westeurope" [ipv4 10 0 0 0 25]
           [mkSubnet "frontend" (Some (ipv4 10 0 0 0 26));
            mkSubnet "pending" None]]]].

(** The two dictionaries have the keys [keys] and hold what [rows_ok] and
    [blocks_ok] ask for. *)
Definition state_ok (keys : list network) (st : ipam_state) : Prop :=
  map fst (fst st) = keys /\ map fst (snd st) = keys
  /\ rows_ok (fst st) /\ blocks_ok (snd st).

(** The Unused row [main] writes for a free block. *)
Definition unused_row_of (str_address : ip_version -> Z -> string)
           (unused : network) : Row :=
  network_row str_address unused EmptyString EmptyString EmptyString
              EmptyString EmptyString "Unused".

(** A listing with a dual-stack network. *)
Definition dual_stack_listing : list Subscription :=
  [mkSubscription "0000" "production"
     [mkResourceGroup "rg-net"
        [mkVirtualNetwork "vnet-hub" "westeurope"
           [ipv4 10 0 0 0 25; IPNetwork IPv6 0 64] []]]].

(* ================================================================= *)
(** * Properties *)

Example exclude_one_host :
  address_exclude (ipv4 10 0 0 0 24) (ipv4 10 0 0 77 32)
  = Ok [ipv4 10 0 0 128 25; ipv4 10 0 0 0 26; ipv4 10 0 0 96 27;
        ipv4 10 0 0 80 28; ipv4 10 0 0 64 29; ipv4 10 0 0 72 30;
        ipv4 10 0 0 78 31; ipv4 10 0 0 76 32].
Proof. vm_compute. reflexivity. Qed.

(* ----------------------------------------------------------------- *)
(** ** Masks and sizes *)

Lemma max_prefixlen_pos (v : ip_version) : 0 < max_prefixlen v.
Proof. destruct v; reflexivity. Qed.

Lemma ALL_ONES_ones (v : ip_version) : ALL_ONES v = Z.ones (max_prefixlen v).
Proof. unfold ALL_ONES. rewrite Z.ones_equiv. lia. Qed.

Lemma shiftr_ones (w p : Z) :
  0 <= p <= w -> Z.shiftr (Z.ones w) p = Z.ones (w - p).
Proof.
  intros Hp. apply Z.bits_inj'. intros i Hi.
  rewrite Z.shiftr_spec by assumption.
  rewrite !Z.testbit_ones_nonneg by lia.
  destruct (Z.ltb_spec (i + p) w), (Z.ltb_spec i (w - p)); lia || reflexivity.
Qed.

Lemma hostmask_ones (n : network) :
  0 <= prefixlen n <= max_prefixlen (version n) ->
  hostmask n = Z.ones (max_prefixlen (version n) - prefixlen n).
Proof.
  intros Hp. unfold hostmask, netmask, _ip_int_from_prefix.
  rewrite (Z.lxor_comm (ALL_ONES _) (Z.shiftr _ _)), Z.lxor_assoc,
    Z.lxor_nilpotent, Z.lxor_0_r, ALL_ONES_ones.
  now apply shiftr_ones.
Qed.

Lemma block_size_pos (n : network) :
  prefixlen n <= max_prefixlen (version n) -> 0 < block_size n.
Proof. intros H. unfold block_size. apply Z.pow_pos_nonneg; lia. Qed.

Lemma hostmask_size (n : network) :
  0 <= prefixlen n <= max_prefixlen (version n) ->
  hostmask n = block_size n - 1.
Proof.
  intros Hp. rewrite hostmask_ones by assumption.
  rewrite Z.ones_equiv. unfold block_size. lia.
Qed.

Lemma testbit_above (a w i : Z) :
  0 <= a < 2 ^ w -> w <= i -> Z.testbit a i = false.
Proof.
  intros [Ha Hlt] Hi.
  destruct (Z.eq_dec a 0) as [->|Hne]; [apply Z.bits_0|].
  apply Z.bits_above_log2; [assumption|].
  assert (Z.log2 a < w) by (apply Z.log2_lt_pow2; lia). lia.
Qed.

Lemma land_netmask (v : ip_version) (a p : Z) :
  0 <= p <= max_prefixlen v -> 0 <= a <= ALL_ONES v ->
  Z.land a (_ip_int_from_prefix v p) = a - a mod 2 ^ (max_prefixlen v - p).
Proof.
  intros Hp Ha. unfold _ip_int_from_prefix.
  rewrite ALL_ONES_ones, shiftr_ones by assumption.
  set (w := max_prefixlen v) in *. set (k := w - p).
  assert (Hk : 0 <= k <= w) by (unfold k; lia).
  assert (Hlt : 0 <= a < 2 ^ w) by (unfold ALL_ONES in Ha; fold w in Ha; lia).
  transitivity (Z.ldiff a (Z.ones k)).
  - apply Z.bits_inj'. intros i Hi.
    rewrite Z.land_spec, Z.lxor_spec, Z.ldiff_spec.
    rewrite !Z.testbit_ones_nonneg by lia.
    destruct (Z.ltb_spec i w) as [Hiw|Hiw].
    + reflexivity.
    + rewrite (testbit_above a w i) by lia. reflexivity.
  - rewrite Z.ldiff_ones_r by lia.
    rewrite Z.shiftl_mul_pow2, Z.shiftr_div_pow2 by lia.
    pose proof (Z.div_mod a (2 ^ k)) as Hdm.
    assert (2 ^ k <> 0) by (apply Z.pow_nonzero; lia). lia.
Qed.

Lemma make_network_valid (v : ip_version) (a p : Z) (n : network) :
  make_network v a p = Ok n <-> n = IPNetwork v a p /\ valid n.
Proof.
  unfold make_network, valid.
  destruct (Z.ltb_spec a 0) as [Ha0|Ha0]; cbn [orb].
  { split; [discriminate|]. intros [-> H]; cbn in H. lia. }
  destruct (Z.ltb_spec (ALL_ONES v) a) as [Ha1|Ha1].
  { split; [discriminate|]. intros [-> H]; cbn in H. lia. }
  destruct (Z.leb_spec 0 p) as [Hp0|Hp0]; cbn [andb negb].
  2:{ split; [discriminate|]. intros [-> H]; cbn in H. lia. }
  destruct (Z.leb_spec p (max_prefixlen v)) as [Hp1|Hp1]; cbn [negb].
  2:{ split; [discriminate|]. intros [-> H]; cbn in H. lia. }
  rewrite land_netmask by lia.
  destruct (Z.eqb_spec (a - a mod 2 ^ (max_prefixlen v - p)) a) as [He|He];
    cbn [negb].
  - split.
    + intros [= <-]. cbn. unfold block_size; cbn. repeat split; lia.
    + intros [-> _]. reflexivity.
  - split; [discriminate|]. intros [-> H]; cbn in H.
    unfold block_size in H; cbn in H. lia.
Qed.

Lemma ip_network_valid (n : network) : ip_network n = Ok n <-> valid n.
Proof.
  unfold ip_network. rewrite make_network_valid. destruct n; cbn.
  intuition.
Qed.

Lemma ip_network_inv (n m : network) : ip_network n = Ok m -> m = n /\ valid n.
Proof.
  unfold ip_network. rewrite make_network_valid. destruct n; cbn.
  intros [-> H]. auto.
Qed.

Lemma broadcast_valid (n : network) :
  valid n -> broadcast_address n = network_address n + block_size n - 1.
Proof.
  intros (Hp & Ha & Hm). unfold broadcast_address.
  rewrite hostmask_ones by assumption.
  assert (Hl : Z.land (network_address n)
                 (Z.ones (max_prefixlen (version n) - prefixlen n)) = 0).
  { rewrite Z.land_ones by lia. exact Hm. }
  rewrite <- Z.lxor_lor, <- Z.add_nocarry_lxor by assumption.
  rewrite Z.ones_equiv. unfold block_size. lia.
Qed.

Lemma num_addresses_valid (n : network) :
  valid n -> num_addresses n = block_size n.
Proof.
  intros H. unfold num_addresses. rewrite broadcast_valid by assumption. lia.
Qed.

(* ----------------------------------------------------------------- *)
(** ** The two halves of a block *)

Lemma valid_upper (n : network) :
  valid n -> network_address n + block_size n <= 2 ^ max_prefixlen (version n).
Proof.
  intros (Hp & Ha & Hm). unfold ALL_ONES in Ha.
  set (s := block_size n) in *.
  assert (Hs : 0 < s) by (apply block_size_pos; lia).
  assert (Hw : 2 ^ max_prefixlen (version n) = 2 ^ prefixlen n * s).
  { unfold s, block_size. rewrite <- Z.pow_add_r by lia. f_equal. lia. }
  apply Z.mod_divide in Hm; [|lia]. destruct Hm as [q Hq].
  rewrite Hw in *. set (P := 2 ^ prefixlen n) in *.
  assert (HqP : q < P) by (apply Z.mul_lt_mono_pos_r with s; lia).
  assert (HqP' : (q + 1) * s <= P * s)
    by (apply Z.mul_le_mono_nonneg_r; lia).
  lia.
Qed.

Lemma block_size_double (v : ip_version) (a p : Z) :
  p < max_prefixlen v ->
  block_size (IPNetwork v a p) = 2 * block_size (IPNetwork v a (p + 1)).
Proof.
  intros Hp. unfold block_size; cbn [version prefixlen].
  replace (max_prefixlen v - p) with (Z.succ (max_prefixlen v - (p + 1)))
    by lia.
  rewrite Z.pow_succ_r by lia. reflexivity.
Qed.

Lemma half_size (n : network) :
  prefixlen n < max_prefixlen (version n) ->
  block_size n = 2 * block_size (lower_half n)
  /\ block_size (upper_half n) = block_size (lower_half n).
Proof.
  intros Hp. split; [|reflexivity].
  destruct n as [v a p]. apply block_size_double. exact Hp.
Qed.

Lemma half_fields (n : network) :
  version (lower_half n) = version n
  /\ version (upper_half n) = version n
  /\ prefixlen (lower_half n) = prefixlen n + 1
  /\ prefixlen (upper_half n) = prefixlen n + 1
  /\ network_address (lower_half n) = network_address n
  /\ network_address (upper_half n)
     = network_address n + block_size (lower_half n).
Proof. repeat split. Qed.

Lemma lower_half_valid (n : network) :
  valid n -> prefixlen n < max_prefixlen (version n) -> valid (lower_half n).
Proof.
  intros Hv Hlt. pose proof (half_size n Hlt) as [Hs _].
  destruct Hv as (Hp & Ha & Hm).
  destruct (half_fields n) as (Ev & _ & Ep & _ & Ea & _).
  assert (0 < block_size (lower_half n))
    by (apply block_size_pos; rewrite Ev, Ep; lia).
  unfold valid. rewrite Ev, Ep, Ea. repeat split; try lia.
  apply Z.mod_divide in Hm; [|lia]. destruct Hm as [q Hq].
  apply Z.mod_divide; [lia|]. exists (q * 2). lia.
Qed.

Lemma upper_half_valid (n : network) :
  valid n -> prefixlen n < max_prefixlen (version n) -> valid (upper_half n).
Proof.
  intros Hv Hlt. pose proof (half_size n Hlt) as [Hs Hu].
  pose proof (valid_upper n Hv) as Hup.
  destruct Hv as (Hp & Ha & Hm).
  destruct (half_fields n) as (Ev' & Ev & Ep' & Ep & _ & Ea).
  assert (0 < block_size (lower_half n))
    by (apply block_size_pos; rewrite Ev', Ep'; lia).
  unfold valid. rewrite Hu, Ev, Ep, Ea. repeat split; try lia.
  - unfold ALL_ONES. lia.
  - apply Z.mod_divide in Hm; [|lia]. destruct Hm as [q Hq].
    apply Z.mod_divide; [lia|]. exists (q * 2 + 1). lia.
Qed.

Lemma subnets_halves (n : network) :
  valid n -> prefixlen n < max_prefixlen (version n) ->
  subnets n = Ok [lower_half n; upper_half n].
Proof.
  intros Hv Hlt. pose proof (half_size n Hlt) as [Hs _].
  pose proof (lower_half_valid n Hv Hlt) as Hl.
  pose proof (upper_half_valid n Hv Hlt) as Hu.
  assert (Hh : 0 < block_size (lower_half n))
    by (apply block_size_pos; cbn [lower_half version prefixlen]; lia).
  unfold subnets.
  destruct (Z.eqb_spec (prefixlen n) (max_prefixlen (version n))); [lia|].
  destruct (Z.ltb_spec (max_prefixlen (version n)) (prefixlen n + 1)); [lia|].
  rewrite broadcast_valid by assumption.
  rewrite hostmask_size by (destruct Hv; lia).
  replace (Z.shiftr (block_size n - 1 + 1) 1) with (block_size (lower_half n)).
  2:{ rewrite Z.shiftr_div_pow2 by lia. rewrite Hs.
      replace (2 * block_size (lower_half n) - 1 + 1)
        with (block_size (lower_half n) * 2 ^ 1) by lia.
      rewrite Z.div_mul; lia. }
  unfold range.
  destruct (Z.eqb_spec (block_size (lower_half n)) 0); [lia|].
  destruct (Z.ltb_spec 0 (block_size (lower_half n))); [|lia].
  replace ((network_address n + block_size n - 1 + 1 - network_address n
            + block_size (lower_half n) - 1) / block_size (lower_half n))
    with 2.
  2:{ apply Z.div_unique with (r := block_size (lower_half n) - 1); lia. }
  change (Z.to_nat 2) with 2%nat.
  cbn [seq map comprehension bind].
  assert (E1 : make_network (version n)
                 (network_address n + Z.of_nat 0 * block_size (lower_half n))
                 (prefixlen n + 1) = Ok (lower_half n)).
  { apply make_network_valid. split; [|assumption].
    unfold lower_half. f_equal. lia. }
  assert (E2 : make_network (version n)
                 (network_address n + Z.of_nat 1 * block_size (lower_half n))
                 (prefixlen n + 1) = Ok (upper_half n)).
  { apply make_network_valid. split; [|assumption].
    unfold upper_half. f_equal. lia. }
  rewrite E1. cbn [bind]. rewrite E2. reflexivity.
Qed.

(* ----------------------------------------------------------------- *)
(** ** Equality and containment of blocks *)

Lemma version_eqb_eq (v w : ip_version) : version_eqb v w = true <-> v = w.
Proof. destruct v, w; cbn; split; congruence. Qed.

Lemma version_eqb_refl (v : ip_version) : version_eqb v v = true.
Proof. destruct v; reflexivity. Qed.

Lemma version_eqb_neq (v w : ip_version) : v <> w -> version_eqb v w = false.
Proof. destruct v, w; cbn; congruence. Qed.

Lemma network_eq_refl (a : network) : network_eq a a = true.
Proof.
  unfold network_eq. now rewrite version_eqb_refl, !Z.eqb_refl.
Qed.

Lemma network_eq_valid (a b : network) :
  valid a -> valid b -> network_eq a b = true -> a = b.
Proof.
  intros (Hpa & _) (Hpb & _) H. unfold network_eq in H.
  apply andb_prop in H as [H Hm]. apply andb_prop in H as [Hv Ha].
  apply version_eqb_eq in Hv. apply Z.eqb_eq in Ha, Hm.
  assert (Hh : hostmask a = hostmask b) by (unfold hostmask; congruence).
  rewrite !hostmask_ones, !Z.ones_equiv in Hh by assumption.
  assert (Hpow : 2 ^ (max_prefixlen (version a) - prefixlen a)
                 = 2 ^ (max_prefixlen (version b) - prefixlen b)) by lia.
  apply Z.pow_inj_r in Hpow; [|lia..].
  destruct a, b; cbn in *. subst. f_equal. lia.
Qed.

Lemma network_eq_false (a b : network) :
  valid a -> valid b -> network_eq a b = false -> a <> b.
Proof. intros _ _ H ->. rewrite network_eq_refl in H. discriminate. Qed.

Lemma subnet_of_family (a b : network) :
  version a = version b ->
  subnet_of a b = Ok ((network_address b <=? network_address a)
                      && (broadcast_address a <=? broadcast_address b)).
Proof.
  intros E. unfold subnet_of, _is_subnet_of.
  now rewrite E, version_eqb_refl.
Qed.

Lemma subnet_of_other_family (a b : network) :
  version a <> version b -> subnet_of a b = Raise TypeError.
Proof.
  intros E. unfold subnet_of, _is_subnet_of.
  now rewrite version_eqb_neq.
Qed.

Lemma subnet_of_true (a b : network) :
  subnet_of a b = Ok true <-> version a = version b /\ within a b.
Proof.
  unfold subnet_of, _is_subnet_of, within.
  destruct (version_eqb (version a) (version b)) eqn:E; cbn.
  - apply version_eqb_eq in E. split.
    + intros [= H]. apply andb_prop in H as [H1 H2].
      apply Z.leb_le in H1, H2. auto.
    + intros (_ & H1 & H2). f_equal. apply andb_true_intro.
      split; now apply Z.leb_le.
  - split; [discriminate|]. intros [Hv _].
    apply version_eqb_eq in Hv. congruence.
Qed.

Lemma subnet_of_false (a b : network) :
  subnet_of a b = Ok false <-> version a = version b /\ ~ within a b.
Proof.
  unfold subnet_of, _is_subnet_of, within.
  destruct (version_eqb (version a) (version b)) eqn:E; cbn.
  - apply version_eqb_eq in E. split.
    + intros [= H]. split; [assumption|]. intros [H1 H2].
      apply Z.leb_le in H1, H2. rewrite H1, H2 in H. discriminate.
    + intros (_ & H). f_equal. apply not_true_is_false. intros Ht.
      apply andb_prop in Ht as [H1 H2]. apply Z.leb_le in H1, H2. auto.
  - split; [discriminate|]. intros [Hv _].
    apply version_eqb_eq in Hv. congruence.
Qed.

(** Arithmetic facts about the blocks in the context, for [lia]. *)
Ltac block_facts :=
  repeat match goal with
         | H : valid ?n |- _ =>
             lazymatch goal with
             | _ : broadcast_address n = _ |- _ => fail
             | _ => pose proof (broadcast_valid n H);
                    pose proof (block_size_pos n (proj2 (proj1 H)));
                    pose proof (num_addresses_valid n H)
             end
         end.

Ltac block_arith :=
  block_facts; unfold within, covers, disjoint in *; lia.

Lemma within_refl (a : network) : within a a.
Proof. unfold within. lia. Qed.

Lemma within_trans (a b c : network) : within a b -> within b c -> within a c.
Proof. unfold within. lia. Qed.

Lemma disjoint_sym (a b : network) : disjoint a b -> disjoint b a.
Proof. unfold disjoint. lia. Qed.

Lemma disjoint_within (a a' b : network) :
  disjoint a b -> within a' a -> valid a' -> disjoint a' b.
Proof. intros. block_arith. Qed.

Lemma disjoint_irrefl (a : network) : valid a -> ~ disjoint a a.
Proof. intros. block_arith. Qed.

Lemma disjoint_not_within (a b : network) :
  valid a -> valid b -> disjoint a b -> ~ within a b.
Proof. intros. block_arith. Qed.

Lemma within_size (a b : network) :
  valid a -> valid b -> within a b -> block_size a <= block_size b.
Proof. intros. block_arith. Qed.

Lemma aligned_no_straddle (q k s : Z) :
  0 < s -> q * s < k * s -> q * s + s <= k * s.
Proof.
  intros Hs Hlt.
  assert (q < k) by (apply Z.mul_lt_mono_pos_r with s; lia).
  assert ((q + 1) * s <= k * s) by (apply Z.mul_le_mono_nonneg_r; lia).
  lia.
Qed.

Lemma within_prefixlen (o c : network) :
  valid o -> valid c -> version o = version c -> within o c ->
  prefixlen c <= prefixlen o.
Proof.
  intros Ho Hc Ev Hw. pose proof (within_size o c Ho Hc Hw) as Hs.
  unfold block_size in Hs. rewrite Ev in Hs.
  destruct Ho as (Hpo & _), Hc as (Hpc & _). rewrite Ev in Hpo.
  apply Z.pow_le_mono_r_iff in Hs; lia.
Qed.

Lemma within_equal_prefixlen (o c : network) :
  valid o -> valid c -> version o = version c -> within o c ->
  prefixlen c = prefixlen o -> o = c.
Proof.
  intros Ho Hc Ev Hw Ep.
  assert (Es : block_size o = block_size c)
    by (unfold block_size; now rewrite Ev, Ep).
  assert (network_address o = network_address c) by block_arith.
  destruct o, c; cbn in *; subst; reflexivity.
Qed.

Lemma within_half (o c : network) :
  valid o -> valid c -> version o = version c -> within o c -> o <> c ->
  prefixlen c < prefixlen o
  /\ (within o (lower_half c) \/ within o (upper_half c)).
Proof.
  intros Ho Hc Ev Hw Hne.
  assert (Hlt : prefixlen c < prefixlen o).
  { pose proof (within_prefixlen o c Ho Hc Ev Hw).
    destruct (Z.eq_dec (prefixlen c) (prefixlen o)) as [E|E]; [|lia].
    exfalso. apply Hne. now apply within_equal_prefixlen. }
  split; [assumption|].
  assert (Hpc : prefixlen c < max_prefixlen (version c))
    by (destruct Ho as ((_ & H) & _); rewrite Ev in H; lia).
  pose proof (lower_half_valid c Hc Hpc) as Hl.
  pose proof (upper_half_valid c Hc Hpc) as Hu.
  pose proof (half_size c Hpc) as [Hs Hs'].
  destruct (half_fields c) as (_ & _ & _ & _ & Ea & Ea').
  (* the boundary between the halves is a multiple of the size of [o] *)
  set (m := 2 ^ (prefixlen o - prefixlen c - 1)).
  assert (Hm : block_size (lower_half c) = m * block_size o).
  { assert (prefixlen o <= max_prefixlen (version c))
      by (rewrite <- Ev; apply Ho).
    unfold m, block_size. cbn [lower_half version prefixlen].
    rewrite Ev, <- Z.pow_add_r by lia. f_equal. lia. }
  assert (Hmpos : 0 < m) by (apply Z.pow_pos_nonneg; lia).
  pose proof Ho as (Hpo & Hao & Hmo).
  pose proof Hc as (Hpc' & Hac & Hmc).
  assert (Hso : 0 < block_size o) by (apply block_size_pos; lia).
  apply Z.mod_divide in Hmo; [|lia]. destruct Hmo as [qo Hqo].
  apply Z.mod_divide in Hmc; [|lia]. destruct Hmc as [qc Hqc].
  set (k := qc * (2 * m) + m).
  assert (Hb : network_address c + block_size (lower_half c)
               = k * block_size o).
  { unfold k. rewrite Hqc, Hs, Hm. ring. }
  destruct (Z_lt_le_dec (network_address o)
                        (network_address c + block_size (lower_half c)))
    as [Hlow|Hhigh].
  - left. rewrite Hb, Hqo in Hlow.
    apply aligned_no_straddle in Hlow; [|assumption].
    rewrite <- Hqo, <- Hb in Hlow. block_arith.
  - right. block_arith.
Qed.

Lemma halves_tile (c : network) :
  valid c -> prefixlen c < max_prefixlen (version c) ->
  within (lower_half c) c /\ within (upper_half c) c
  /\ disjoint (lower_half c) (upper_half c)
  /\ num_addresses (lower_half c) + num_addresses (upper_half c)
     = num_addresses c.
Proof.
  intros Hc Hpc.
  pose proof (lower_half_valid c Hc Hpc) as Hl.
  pose proof (upper_half_valid c Hc Hpc) as Hu.
  pose proof (half_size c Hpc) as [Hs Hs'].
  destruct (half_fields c) as (_ & _ & _ & _ & Ea & Ea').
  repeat split; block_arith.
Qed.

(* ----------------------------------------------------------------- *)
(** ** [address_exclude] carves a block exactly *)

Lemma fold_add_shift (l : list Z) (a : Z) :
  fold_left Z.add l a = a + fold_left Z.add l 0.
Proof.
  revert a. induction l as [|x l IH]; intros a; cbn; [lia|].
  rewrite IH, (IH x). lia.
Qed.

Lemma sum_cons (x : Z) (l : list Z) : sum (x :: l) = x + sum l.
Proof. unfold sum. cbn. now rewrite fold_add_shift. Qed.

Lemma sum_app (l1 l2 : list Z) : sum (l1 ++ l2) = sum l1 + sum l2.
Proof.
  induction l1 as [|x l1 IH]; [reflexivity|].
  cbn [app]. rewrite !sum_cons, IH. lia.
Qed.

Lemma total_addresses_cons (a : network) (l : list network) :
  total_addresses (a :: l) = num_addresses a + total_addresses l.
Proof. unfold total_addresses. cbn [map]. apply sum_cons. Qed.

Lemma total_addresses_app (l1 l2 : list network) :
  total_addresses (l1 ++ l2) = total_addresses l1 + total_addresses l2.
Proof. unfold total_addresses. rewrite map_app. apply sum_app. Qed.

Section Halving.
Variables c s t : network.
Hypothesis Hc : valid c.
Hypothesis Hs : valid s.
Hypothesis Ht : valid t.
Hypothesis Evs : version s = version c.
Hypothesis Evt : version t = version c.
Hypothesis Hsc : within s c.
Hypothesis Htc : within t c.
Hypothesis Hts : disjoint t s.
Hypothesis Hsum : num_addresses s + num_addresses t = num_addresses c.

Lemma exclusion_last : exclusion_of c s [t].
Proof.
  unfold exclusion_of. repeat split.
  - constructor; [|constructor]. auto.
  - constructor; constructor.
  - intros x Hx.
    assert (covers s x \/ covers t x) as [H|H] by block_arith; auto.
  - rewrite total_addresses_cons. unfold total_addresses, sum; cbn. lia.
Qed.

Lemma exclusion_descend (o : network) (l : list network) :
  valid o -> within o s -> exclusion_of s o l -> exclusion_of c o (t :: l).
Proof.
  intros Ho Hos (Hall & Hpw & Hcov & Htot).
  unfold exclusion_of. repeat split.
  - constructor.
    + refine (conj Ht (conj Evt (conj Htc _))). block_arith.
    + eapply Forall_impl; [|exact Hall]. cbn.
      intros b (Hb & Ev & Hbs & Hbo).
      refine (conj Hb (conj _ (conj _ Hbo))).
      * congruence.
      * eapply within_trans; eassumption.
  - constructor; [|assumption].
    eapply Forall_impl; [|exact Hall]. cbn.
    intros b (Hb & Ev & Hbs & Hbo). block_arith.
  - intros x Hx.
    assert (covers s x \/ covers t x) as [H|H] by block_arith.
    + destruct (Hcov x H) as [H'|H']; auto.
    + right. now constructor.
  - rewrite total_addresses_cons. lia.
Qed.
End Halving.

Lemma exclude_loop_spec (bound : nat) :
  forall c o : network,
    valid c -> valid o -> version o = version c -> within o c -> o <> c ->
    prefixlen o - prefixlen c - 1 <= Z.of_nat bound ->
    exists l, exclude_loop bound c o = Ok l /\ exclusion_of c o l.
Proof.
  induction bound as [|bound IH]; intros c o Hc Ho Ev Hw Hne Hb;
    destruct (within_half o c Ho Hc Ev Hw Hne) as [Hlt Hhalf];
    assert (Hpc : prefixlen c < max_prefixlen (version c))
      by (destruct Ho as ((_ & H) & _); rewrite Ev in H; lia);
    pose proof (lower_half_valid c Hc Hpc) as Hl;
    pose proof (upper_half_valid c Hc Hpc) as Hu;
    destruct (halves_tile c Hc Hpc) as (Hlc & Huc & Hlu & Hsum);
    destruct (half_fields c) as (Evl & Evu & Epl & Epu & _ & _);
    cbn [exclude_loop]; rewrite subnets_halves by assumption;
    cbn [bind unpack2];
    (destruct (network_eq (lower_half c) o) eqn:E1; cbn [negb andb];
     [ apply network_eq_valid in E1; [|assumption..]; subst o;
       exists [upper_half c]; split; [reflexivity|];
       apply exclusion_last; auto using disjoint_sym; lia
     | destruct (network_eq (upper_half c) o) eqn:E2; cbn [negb andb];
       [ apply network_eq_valid in E2; [|assumption..]; subst o;
         exists [lower_half c]; split; [reflexivity|];
         apply exclusion_last; auto using disjoint_sym; lia
       | ] ]);
    apply network_eq_false in E1, E2; try assumption;
    assert (Hdeep : prefixlen c + 1 < prefixlen o)
      by (destruct Hhalf as [Hh|Hh];
          [ destruct (within_half o (lower_half c)) as [H _];
            try congruence; auto; lia
          | destruct (within_half o (upper_half c)) as [H _];
            try congruence; auto; lia ]).
  - lia.
  - rewrite subnet_of_family by congruence.
    destruct ((network_address (lower_half c) <=? network_address o)
              && (broadcast_address o <=? broadcast_address (lower_half c)))
      eqn:Ein; cbn [bind].
    + assert (Hin : within o (lower_half c)).
      { apply andb_prop in Ein as [H1 H2]. apply Z.leb_le in H1, H2.
        split; assumption. }
      destruct (IH (lower_half c) o) as (l & El & Hl'); auto;
        try congruence; try lia.
      rewrite El. cbn [bind]. exists (upper_half c :: l).
      split; [reflexivity|].
      apply exclusion_descend with (s := lower_half c);
        auto using disjoint_sym. 
    + assert (Hin : within o (upper_half c)).
      { destruct Hhalf as [[H1 H2]|H]; [|assumption].
        apply Z.leb_le in H1, H2. rewrite H1, H2 in Ein. discriminate. }
      assert (Es : subnet_of o (upper_half c) = Ok true)
        by (apply subnet_of_true; split; [congruence|assumption]).
      rewrite Es. cbn [bind].
      destruct (IH (upper_half c) o) as (l & El & Hl'); auto;
        try congruence; try lia.
      rewrite El. cbn [bind]. exists (lower_half c :: l).
      split; [reflexivity|].
      apply exclusion_descend with (s := upper_half c); auto. lia.
Qed.

Lemma exclusion_self (c : network) : exclusion_of c c [].
Proof.
  unfold exclusion_of.
  refine (conj (Forall_nil _) (conj (FOP_nil _) (conj _ _))).
  - intros x Hx. now left.
  - reflexivity.
Qed.

Lemma address_exclude_spec (self other : network) :
  valid self -> valid other -> version other = version self ->
  within other self ->
  exists l, address_exclude self other = Ok l /\ exclusion_of self other l.
Proof.
  intros Hs Ho Ev Hw. unfold address_exclude.
  rewrite Ev, version_eqb_refl. cbn [negb].
  assert (Es : subnet_of other self = Ok true)
    by (apply subnet_of_true; auto).
  rewrite Es. cbn [bind negb].
  destruct (network_eq other self) eqn:E.
  - apply network_eq_valid in E; [|assumption..]. subst other.
    exists []. split; [reflexivity|]. apply exclusion_self.
  - apply network_eq_false in E; [|assumption..].
    assert (Em : make_network (version self) (network_address other)
                              (prefixlen other) = Ok other).
    { apply make_network_valid. split; [|assumption].
      destruct other; cbn in *; congruence. }
    rewrite Em. cbn [bind].
    apply exclude_loop_spec; auto.
    destruct Ho as ((_ & H) & _). rewrite Ev in H. lia.
Qed.

(** The iteration bound of [exclude_loop] is never what stops it, whatever
    the arguments. *)
Lemma comprehension_inv {A B : Type} (f : A -> result B) (l : list A)
      (l' : list B) :
  comprehension f l = Ok l' -> Forall2 (fun x y => f x = Ok y) l l'.
Proof.
  revert l'. induction l as [|x l IH]; intros l' H; cbn in H.
  - injection H as <-. constructor.
  - destruct (f x) as [y|] eqn:Ex; cbn in H; [|discriminate].
    destruct (comprehension f l) as [ys|] eqn:El; cbn in H; [|discriminate].
    injection H as <-. constructor; auto.
Qed.

Lemma subnets_two (c s1 s2 : network) :
  subnets c = Ok [s1; s2] ->
  prefixlen c < max_prefixlen (version c)
  /\ version s1 = version c /\ prefixlen s1 = prefixlen c + 1
  /\ version s2 = version c /\ prefixlen s2 = prefixlen c + 1.
Proof.
  unfold subnets.
  destruct (Z.eqb_spec (prefixlen c) (max_prefixlen (version c)));
    [discriminate|].
  destruct (Z.ltb_spec (max_prefixlen (version c)) (prefixlen c + 1));
    [discriminate|].
  destruct (range _ _ _) as [addrs|]; cbn [bind]; [|discriminate].
  intros Hcomp. apply comprehension_inv in Hcomp.
  inversion Hcomp as [|x1 y1 l1 l1' H1 H']; subst.
  inversion H' as [|x2 y2 l2 l2' H2 _]; subst.
  apply make_network_valid in H1 as [-> _], H2 as [-> _]. cbn.
  repeat split; lia.
Qed.

Lemma make_network_raises (v : ip_version) (a p : Z) (e : exception) :
  make_network v a p = Raise e -> e = ValueError.
Proof.
  unfold make_network.
  repeat match goal with
         | |- (if ?b then _ else _) = _ -> _ => destruct b
         end; congruence.
Qed.

Lemma comprehension_raises {A B : Type} (f : A -> result B) (l : list A)
      (e : exception) :
  comprehension f l = Raise e -> exists x, In x l /\ f x = Raise e.
Proof.
  induction l as [|x l IH]; cbn; [discriminate|].
  destruct (f x) as [y|e'] eqn:Ex; cbn.
  - destruct (comprehension f l) as [ys|e'] eqn:El; cbn; [discriminate|].
    intros [= ->]. destruct IH as (x' & Hin & Hx'); eauto.
  - intros [= ->]. eauto.
Qed.

Lemma subnets_raises (c : network) (e : exception) :
  subnets c = Raise e -> e = ValueError.
Proof.
  unfold subnets, range.
  repeat match goal with
         | |- (if ?b then _ else _) = _ -> _ => destruct b
         | |- bind (if ?b then _ else _) _ = _ -> _ => destruct b
         end; cbn [bind]; try congruence.
  all: intros H; apply comprehension_raises in H as (x & _ & H);
    now apply make_network_raises in H.
Qed.

Lemma exclude_loop_terminates (bound : nat) :
  forall c other : network,
    max_prefixlen (version c) - prefixlen c <= Z.of_nat bound ->
    exclude_loop bound c other <> Raise NotTerminated.
Proof.
  induction bound as [|bound IH]; intros c other Hb; cbn [exclude_loop];
    (destruct (subnets c) as [[|s1 [|s2 [|]]]|e] eqn:Es; cbn;
     [discriminate | discriminate | | discriminate
     | apply subnets_raises in Es; congruence]);
    apply subnets_two in Es as (Hlt & Ev1 & Ep1 & Ev2 & Ep2).
  - lia.
  - destruct (negb (network_eq s1 other) && negb (network_eq s2 other)).
    + unfold subnet_of, _is_subnet_of.
      destruct (negb (version_eqb (version other) (version s1)));
        cbn [bind]; [discriminate|].
      match goal with |- context [if ?b then _ else _] => destruct b end.
      * specialize (IH s1 other). rewrite Ev1, Ep1 in IH.
        destruct (exclude_loop bound s1 other) as [l|e]; cbn;
          [discriminate|]. intros [= ->]. apply IH; [lia|reflexivity].
      * destruct (negb (version_eqb (version other) (version s2)));
          cbn [bind]; [discriminate|].
        match goal with |- context [if ?b then _ else _] => destruct b end;
          [|discriminate].
        specialize (IH s2 other). rewrite Ev2, Ep2 in IH.
        destruct (exclude_loop bound s2 other) as [l|e]; cbn;
          [discriminate|]. intros [= ->]. apply IH; [lia|reflexivity].
    + destruct (network_eq s1 other); [discriminate|].
      destruct (network_eq s2 other); discriminate.
Qed.

Lemma address_exclude_terminates (self other : network) :
  address_exclude self other <> Raise NotTerminated.
Proof.
  unfold address_exclude.
  destruct (negb (version_eqb (version self) (version other)));
    [discriminate|].
  destruct (subnet_of other self) as [[|]|e] eqn:Es; cbn;
    try discriminate.
  - destruct (network_eq other self); [discriminate|].
    destruct (make_network _ _ _) as [o|e] eqn:Em; cbn.
    + apply exclude_loop_terminates. lia.
    + apply make_network_raises in Em. congruence.
  - unfold subnet_of, _is_subnet_of in Es.
    destruct (negb _) in Es; congruence.
Qed.

(* ----------------------------------------------------------------- *)
(** ** One occupied block against the working set *)

Lemma pieces_inside (u a : network) :
  valid a -> valid u -> version u = version a -> within u a ->
  subnet_of u a = Ok true
  /\ address_exclude a u = Ok (pieces u a)
  /\ exclusion_of a u (pieces u a).
Proof.
  intros Ha Hu Ev Hw.
  assert (Es : subnet_of u a = Ok true) by (apply subnet_of_true; auto).
  destruct (address_exclude_spec a u Ha Hu Ev Hw) as (l & El & Hl).
  unfold pieces. rewrite Es, El. auto.
Qed.

Lemma pieces_outside (u a : network) :
  version u = version a -> ~ within u a ->
  subnet_of u a = Ok false /\ pieces u a = [a].
Proof.
  intros Ev Hw.
  assert (Es : subnet_of u a = Ok false) by (apply subnet_of_false; auto).
  unfold pieces. rewrite Es. auto.
Qed.

Lemma within_dec (u a : network) : {within u a} + {~ within u a}.
Proof.
  unfold within.
  destruct (Z_le_dec (network_address a) (network_address u));
    destruct (Z_le_dec (broadcast_address u) (broadcast_address a));
    (left; lia) || (right; lia).
Qed.

(** Every piece is a valid block of the same family inside the block it
    comes from, and does not contain the occupied block when that block
    was cut out. *)
Lemma pieces_blocks (u a : network) :
  valid a -> valid u -> version u = version a ->
  Forall (fun b => valid b /\ version b = version a /\ within b a)
         (pieces u a).
Proof.
  intros Ha Hu Ev. destruct (within_dec u a) as [Hw|Hw].
  - destruct (pieces_inside u a Ha Hu Ev Hw) as (_ & _ & Hall & _).
    eapply Forall_impl; [|exact Hall]. cbn. tauto.
  - destruct (pieces_outside u a Ev Hw) as (_ & ->).
    constructor; [|constructor]. auto using within_refl.
Qed.

Lemma exclude_from_available_carve (u : network) (available : list network) :
  valid u ->
  Forall (fun a => valid a /\ version a = version u) available ->
  exclude_from_available u available = Ok (carve_one u available).
Proof.
  intros Hu Hav. induction Hav as [|a rest [Ha Ev] _ IH];
    cbn [exclude_from_available carve_one flat_map]; [reflexivity|].
  fold (carve_one u rest). rewrite IH.
  destruct (within_dec u a) as [Hw|Hw].
  - destruct (pieces_inside u a Ha Hu (eq_sym Ev) Hw) as (-> & -> & _).
    reflexivity.
  - destruct (pieces_outside u a (eq_sym Ev) Hw) as (-> & ->).
    reflexivity.
Qed.

Lemma carve_one_blocks (p u : network) (available : list network) :
  valid u -> version u = version p ->
  Forall (fun a => valid a /\ version a = version p /\ within a p) available ->
  Forall (fun a => valid a /\ version a = version p /\ within a p)
         (carve_one u available).
Proof.
  intros Hu Ev Hav. unfold carve_one. apply Forall_flat_map.
  eapply Forall_impl; [|exact Hav]. cbn. intros a (Ha & Eva & Hap).
  eapply Forall_impl; [|apply (pieces_blocks u a)]; try congruence; auto.
  cbn. intros b (Hb & Evb & Hba). refine (conj Hb (conj _ _)).
  - congruence.
  - eapply within_trans; eassumption.
Qed.

Lemma pairwise_app {A : Type} (R : A -> A -> Prop) (l1 l2 : list A) :
  ForallOrdPairs R l1 -> ForallOrdPairs R l2 ->
  Forall (fun x => Forall (R x) l2) l1 ->
  ForallOrdPairs R (l1 ++ l2).
Proof.
  intros H1 H2 H12. induction H1 as [|x l1 Hx H1 IH]; cbn; [assumption|].
  inversion H12 as [|? ? Hx2 H12']; subst.
  constructor; [|auto]. apply Forall_app. auto.
Qed.

Lemma pairwise_permutation {A : Type} (R : A -> A -> Prop) (l l' : list A) :
  (forall x y, R x y -> R y x) ->
  Permutation l l' -> ForallOrdPairs R l -> ForallOrdPairs R l'.
Proof.
  intros Hsym Hp.
  induction Hp as [|x l l' Hp IH|x y l|l l' l'' Hp1 IH1 Hp2 IH2]; intros H.
  - assumption.
  - inversion H as [|? ? Hx Hl]; subst. constructor; [|auto].
    eapply Permutation_Forall; eassumption.
  - inversion H as [|? ? Hy Hl]; subst.
    inversion Hl as [|? ? Hx Hl']; subst.
    inversion Hy as [|? ? Hyx Hy']; subst.
    constructor; [|constructor; assumption].
    constructor; [auto|assumption].
  - auto.
Qed.

Lemma carve_one_origin (u : network) (available : list network)
      (b : network) :
  valid u ->
  Forall (fun a => valid a /\ version a = version u) available ->
  In b (carve_one u available) ->
  valid b /\ exists a, In a available /\ within b a /\ In b (pieces u a).
Proof.
  intros Hu Hav Hb. unfold carve_one in Hb.
  apply in_flat_map in Hb as (a & Ha & Hb).
  rewrite Forall_forall in Hav. destruct (Hav a Ha) as [Hva Ev].
  pose proof (pieces_blocks u a Hva Hu (eq_sym Ev)) as Hp.
  rewrite Forall_forall in Hp. destruct (Hp b Hb) as (Hvb & _ & Hba).
  eauto.
Qed.

(** A block that was cut out is inside no piece of the new working set. *)
Lemma carve_one_excludes (u : network) (available : list network) :
  valid u ->
  Forall (fun a => valid a /\ version a = version u) available ->
  Forall (fun b => ~ within u b) (carve_one u available).
Proof.
  intros Hu Hav. unfold carve_one. apply Forall_flat_map.
  eapply Forall_impl; [|exact Hav]. cbn. intros a [Ha Ev].
  destruct (within_dec u a) as [Hw|Hw].
  - destruct (pieces_inside u a Ha Hu (eq_sym Ev) Hw) as (_ & _ & Hall & _).
    eapply Forall_impl; [|exact Hall]. cbn.
    intros b (Hb & _ & _ & Hd). apply disjoint_not_within; auto.
    now apply disjoint_sym.
  - destruct (pieces_outside u a (eq_sym Ev) Hw) as (_ & ->).
    constructor; [assumption|constructor].
Qed.

(** An occupied block inside no block of the working set leaves the
    working set as it is. *)
Lemma carve_one_skip (u : network) (available : list network) :
  Forall (fun a => version a = version u /\ ~ within u a) available ->
  carve_one u available = available.
Proof.
  intros H. induction H as [|a rest [Ev Hw] _ IH]; [reflexivity|].
  unfold carve_one in *. cbn [flat_map]. rewrite IH.
  destruct (pieces_outside u a (eq_sym Ev) Hw) as (_ & ->). reflexivity.
Qed.

Lemma carve_one_idempotent (u : network) (available : list network) :
  valid u ->
  Forall (fun a => valid a /\ version a = version u) available ->
  carve_one u (carve_one u available) = carve_one u available.
Proof.
  intros Hu Hav. apply carve_one_skip.
  pose proof (carve_one_excludes u available Hu Hav) as Hex.
  rewrite Forall_forall in *. intros b Hb. split; [|auto].
  unfold carve_one in Hb. apply in_flat_map in Hb as (a & Ha & Hb).
  destruct (Hav a Ha) as [Hva Ev].
  pose proof (pieces_blocks u a Hva Hu (eq_sym Ev)) as Hp.
  rewrite Forall_forall in Hp. destruct (Hp b Hb) as (_ & Evb & _).
  congruence.
Qed.

Lemma carve_one_pairwise (u : network) (available : list network) :
  valid u ->
  Forall (fun a => valid a /\ version a = version u) available ->
  pairwise_disjoint available ->
  pairwise_disjoint (carve_one u available).
Proof.
  intros Hu Hav Hpw. unfold pairwise_disjoint in *.
  induction Hpw as [|a rest Ha Hpw IH]; [constructor|].
  inversion Hav as [|? ? [Hva Ev] Hav']; subst.
  unfold carve_one. cbn [flat_map]. fold (carve_one u rest).
  apply pairwise_app; [|auto|].
  - destruct (within_dec u a) as [Hw|Hw].
    + now destruct (pieces_inside u a Hva Hu (eq_sym Ev) Hw)
        as (_ & _ & _ & H & _).
    + destruct (pieces_outside u a (eq_sym Ev) Hw) as (_ & ->).
      constructor; constructor.
  - pose proof (pieces_blocks u a Hva Hu (eq_sym Ev)) as Hp.
    eapply Forall_impl; [|exact Hp]. cbn. intros b (Hb & _ & Hba).
    apply Forall_forall. intros b' Hb'.
    apply carve_one_origin in Hb' as (Hvb' & a' & Ha' & Hb'a' & _);
      [|assumption..].
    rewrite Forall_forall in Ha. specialize (Ha a' Ha').
    apply disjoint_sym. eapply disjoint_within; [|eassumption|assumption].
    apply disjoint_sym. eapply disjoint_within; eassumption.
Qed.

(** When the occupied block is inside a block of a pairwise disjoint
    working set, exactly its addresses leave the working set. *)
Lemma carve_one_hit (u : network) (available : list network) :
  valid u ->
  Forall (fun a => valid a /\ version a = version u) available ->
  pairwise_disjoint available ->
  (exists a, In a available /\ within u a) ->
  Forall (fun b => disjoint b u) (carve_one u available)
  /\ (forall x, Exists (fun a => covers a x) available <->
                covers u x
                \/ Exists (fun b => covers b x) (carve_one u available))
  /\ total_addresses (carve_one u available) + num_addresses u
     = total_addresses available.
Proof.
  intros Hu Hav Hpw. unfold pairwise_disjoint in Hpw.
  induction Hpw as [|a rest Ha Hpw IH]; intros (a0 & Hin & Hw0).
  { destruct Hin. }
  inversion Hav as [|? ? [Hva Ev] Hav']; subst.
  unfold carve_one. cbn [flat_map]. fold (carve_one u rest).
  destruct (within_dec u a) as [Hw|Hw].
  - (* [a] is the block that holds [u]; the others are apart from it *)
    destruct (pieces_inside u a Hva Hu (eq_sym Ev) Hw)
      as (_ & _ & Hall & _ & Hcov & Htot).
    assert (Hrest : Forall (fun a' => valid a' /\ disjoint a' u) rest).
    { rewrite Forall_forall in *. intros a' Ha'.
      destruct (Hav' a' Ha') as [Hva' _]. split; [assumption|].
      specialize (Ha a' Ha'). block_arith. }
    rewrite (carve_one_skip u rest).
    2:{ rewrite Forall_forall in *. intros a' Ha'.
        destruct (Hav' a' Ha') as [Hva' Ev']. split; [assumption|].
        destruct (Hrest a' Ha') as [_ Hd].
        apply disjoint_not_within; auto using disjoint_sym. }
    split; [|split].
    + apply Forall_app. split.
      * eapply Forall_impl; [|exact Hall]. cbn. tauto.
      * eapply Forall_impl; [|exact Hrest]. cbn. tauto.
    + intros x. rewrite Exists_cons, Exists_app. split.
      * intros [Hx|Hx]; [|tauto]. destruct (Hcov x Hx); tauto.
      * intros [Hx|[Hx|Hx]]; [left; block_arith| |tauto].
        left. apply Exists_exists in Hx as (b & Hb & Hx).
        rewrite Forall_forall in Hall.
        destruct (Hall b Hb) as (Hvb & _ & Hba & _). block_arith.
    + rewrite total_addresses_app, total_addresses_cons. lia.
  - destruct (pieces_outside u a (eq_sym Ev) Hw) as (_ & ->).
    destruct Hin as [->|Hin]; [contradiction|].
    destruct (IH Hav' (ex_intro _ a0 (conj Hin Hw0))) as (Hd & Hcov & Htot).
    cbn [app]. split; [|split].
    + constructor; [|assumption].
      rewrite Forall_forall in Ha, Hav'. specialize (Ha a0 Hin).
      destruct (Hav' a0 Hin) as [Hva0 _]. block_arith.
    + intros x. rewrite !Exists_cons, Hcov. tauto.
    + rewrite !total_addresses_cons. lia.
Qed.

(* ----------------------------------------------------------------- *)
(** ** The stable insertion sort *)

Section StableSortFacts.
Context {A : Type} (lt : A -> A -> bool).

Lemma stable_insert_perm (x : A) (l : list A) :
  Permutation (x :: l) (stable_insert lt x l).
Proof.
  induction l as [|y l IH]; cbn; [reflexivity|].
  destruct (lt y x); [|reflexivity].
  rewrite perm_swap. now constructor.
Qed.

Lemma stable_sort_perm (l : list A) : Permutation l (stable_sort lt l).
Proof.
  induction l as [|x l IH]; cbn; [reflexivity|].
  rewrite <- stable_insert_perm. now constructor.
Qed.

(** Elements that the order does not tell apart keep their places
    relative to each other. *)
Lemma stable_insert_filter (p : A -> bool) (x : A) (l : list A) :
  (forall a b, p a = true -> p b = true -> lt a b = false) ->
  filter p (stable_insert lt x l) = filter p (x :: l).
Proof.
  intros Htie. induction l as [|y l IH]; [reflexivity|].
  cbn [stable_insert]. destruct (lt y x) eqn:E; [|reflexivity].
  cbn [filter] in *. rewrite IH.
  destruct (p x) eqn:Ex, (p y) eqn:Ey; try reflexivity.
  rewrite (Htie y x Ey Ex) in E. discriminate.
Qed.

Lemma stable_sort_filter (p : A -> bool) (l : list A) :
  (forall a b, p a = true -> p b = true -> lt a b = false) ->
  filter p (stable_sort lt l) = filter p l.
Proof.
  intros Htie. induction l as [|x l IH]; [reflexivity|].
  cbn [stable_sort]. rewrite stable_insert_filter by assumption.
  cbn [filter]. now rewrite IH.
Qed.

Hypothesis lt_asym : forall a b, lt a b = true -> lt b a = false.
Hypothesis le_trans :
  forall a b c, lt b a = false -> lt c b = false -> lt c a = false.

Lemma stable_insert_refines (R : A -> A -> Prop) (x : A) (l : list A) :
  StronglySorted (refined lt R) l -> Forall (R x) l ->
  StronglySorted (refined lt R) (stable_insert lt x l).
Proof.
  intros Hs Hx. induction Hs as [|y l Hs IH Hy]; cbn.
  - repeat constructor.
  - inversion Hx as [|? ? Hxy Hxl]; subst.
    destruct (lt y x) eqn:E.
    + constructor; [auto|].
      eapply Permutation_Forall; [apply stable_insert_perm|].
      constructor; [|assumption]. split; [auto|]. congruence.
    + constructor; [constructor; assumption|].
      constructor; [split; auto|].
      rewrite Forall_forall in *. intros z Hz.
      destruct (Hy z Hz) as [Hzy _]. split; [eauto|auto].
Qed.

Lemma stable_sort_refines (R : A -> A -> Prop) (l : list A) :
  StronglySorted R l -> StronglySorted (refined lt R) (stable_sort lt l).
Proof.
  intros Hs. induction Hs as [|x l Hs IH Hx]; cbn; [constructor|].
  apply stable_insert_refines; [assumption|].
  eapply Permutation_Forall; [apply stable_sort_perm|assumption].
Qed.
End StableSortFacts.

Lemma StronglySorted_weaken {A : Type} (R R' : A -> A -> Prop) (l : list A) :
  (forall a b, R a b -> R' a b) -> StronglySorted R l -> StronglySorted R' l.
Proof.
  intros Himp Hs. induction Hs as [|x l Hs IH Hx]; constructor; auto.
  eapply Forall_impl; [|exact Hx]. auto.
Qed.

Lemma StronglySorted_trivial {A : Type} (l : list A) :
  StronglySorted (fun _ _ => True) l.
Proof.
  induction l; constructor; [assumption|]. apply Forall_forall. auto.
Qed.

Lemma stable_sort_sorted {A : Type} (lt : A -> A -> bool) (l : list A) :
  (forall a b, lt a b = true -> lt b a = false) ->
  (forall a b c, lt b a = false -> lt c b = false -> lt c a = false) ->
  StronglySorted (fun a b => lt b a = false) (stable_sort lt l).
Proof.
  intros Hasym Htrans.
  eapply StronglySorted_weaken;
    [|apply (stable_sort_refines lt Hasym Htrans (fun _ _ => True)),
        StronglySorted_trivial].
  intros a b [H _]. exact H.
Qed.

(** Two sorted arrangements of the same elements are the same list when
    the order tells any two different elements apart. *)
Lemma sorted_unique {A : Type} (le : A -> A -> Prop) (l1 : list A) :
  forall l2,
    (forall a b, In a l1 -> In b l1 -> le a b -> le b a -> a = b) ->
    StronglySorted le l1 -> StronglySorted le l2 -> Permutation l1 l2 ->
    l1 = l2.
Proof.
  induction l1 as [|a l1 IH]; intros l2 Hanti H1 H2 Hp.
  - apply Permutation_nil in Hp. now subst.
  - destruct l2 as [|b l2].
    { apply Permutation_sym, Permutation_nil in Hp. discriminate. }
    apply StronglySorted_inv in H1 as [H1 Ha].
    apply StronglySorted_inv in H2 as [H2 Hb].
    assert (Eab : a = b).
    { assert (Hin_a : In a (b :: l2))
        by (eapply Permutation_in; [exact Hp|now left]).
      assert (Hin_b : In b (a :: l1))
        by (eapply Permutation_in; [exact (Permutation_sym Hp)|now left]).
      destruct Hin_a as [|Hin_a]; [congruence|].
      destruct Hin_b as [|Hin_b]; [congruence|].
      rewrite Forall_forall in Ha, Hb.
      apply Hanti; [now left|now right|auto..]. }
    subst b. f_equal. apply Permutation_cons_inv in Hp.
    apply IH; auto. intros x y Hx Hy. apply Hanti; now right.
Qed.

(* ----------------------------------------------------------------- *)
(** ** Sorting the occupied blocks *)

Lemma block_lt_asym (a b : network) :
  block_lt a b = true -> block_lt b a = false.
Proof.
  unfold block_lt. rewrite (Z.eqb_sym (network_address b)).
  destruct (Z.eqb_spec (network_address a) (network_address b)); lia.
Qed.

Lemma block_le_trans (a b c : network) :
  block_lt b a = false -> block_lt c b = false -> block_lt c a = false.
Proof.
  unfold block_lt.
  destruct (Z.eqb_spec (network_address b) (network_address a)),
    (Z.eqb_spec (network_address c) (network_address b)),
    (Z.eqb_spec (network_address c) (network_address a)); lia.
Qed.

Lemma block_le_antisym (a b : network) :
  version a = version b ->
  block_lt b a = false -> block_lt a b = false -> a = b.
Proof.
  unfold block_lt. rewrite (Z.eqb_sym (network_address b)).
  destruct (Z.eqb_spec (network_address a) (network_address b)); [|lia].
  intros Ev H1 H2. destruct a, b; cbn in *. subst. f_equal. lia.
Qed.

Lemma key_lt_family (x y : network) :
  version x = version y ->
  key_lt (sort_key x) (sort_key y) = Ok (block_lt x y).
Proof.
  intros Ev. unfold key_lt, sort_key, address_eq, address_lt, block_lt.
  cbn [fst snd]. rewrite Ev, version_eqb_refl, andb_true_r. cbn [negb].
  destruct (network_address x =? network_address y); reflexivity.
Qed.

Lemma key_lt_other_family (x y : network) :
  version x <> version y ->
  key_lt (sort_key x) (sort_key y) = Raise TypeError.
Proof.
  intros Ev. unfold key_lt, sort_key, address_eq, address_lt.
  cbn [fst snd]. rewrite (version_eqb_neq _ _ Ev), andb_false_r.
  reflexivity.
Qed.

Lemma family_of_forall (v : ip_version) (l : list network) :
  family_of v l = true <-> forall n, In n l -> version n = v.
Proof.
  unfold family_of. rewrite forallb_forall.
  split; intros H n Hn; apply version_eqb_eq; auto.
Qed.

Lemma family_of_permutation (v : ip_version) (l l' : list network) :
  Permutation l l' -> family_of v l = family_of v l'.
Proof.
  intros Hp. destruct (family_of v l') eqn:E.
  - apply family_of_forall. rewrite family_of_forall in E.
    intros n Hn. apply E. eapply Permutation_in; eassumption.
  - destruct (family_of v l) eqn:E'; [|reflexivity].
    rewrite <- E. symmetry. apply family_of_forall.
    rewrite family_of_forall in E'. intros n Hn. apply E'.
    eapply Permutation_in; [apply Permutation_sym|]; eassumption.
Qed.

Lemma insert_family (v : ip_version) (x : network) (l : list network) :
  version x = v -> family_of v l = true ->
  insert sort_key key_lt x l = Ok (stable_insert block_lt x l).
Proof.
  intros Ex. induction l as [|y l IH]; cbn; [reflexivity|].
  intros H. apply andb_prop in H as [Ey Hl]. apply version_eqb_eq in Ey.
  rewrite key_lt_family by congruence. cbn [bind].
  destruct (block_lt y x); [|reflexivity].
  now rewrite IH.
Qed.

Lemma sorted_family (v : ip_version) (l : list network) :
  family_of v l = true ->
  sorted sort_key key_lt l = Ok (stable_sort block_lt l).
Proof.
  induction l as [|x l IH]; cbn; [reflexivity|].
  intros H. apply andb_prop in H as [Ex Hl]. apply version_eqb_eq in Ex.
  rewrite IH by assumption. cbn [bind].
  apply insert_family with (v := v); [assumption|].
  rewrite <- (family_of_permutation v l); [assumption|].
  apply stable_sort_perm.
Qed.

Lemma sorted_mixed (l : list network) :
  family_of IPv4 l = false -> family_of IPv6 l = false ->
  sorted sort_key key_lt l = Raise TypeError.
Proof.
  induction l as [|x l IH]; cbn; [discriminate|].
  intros H4 H6.
  assert (Hins : forall v, version x <> v -> family_of v l = true ->
                           l <> [] ->
                           bind (sorted sort_key key_lt l)
                                (fun s => insert sort_key key_lt x s)
                           = Raise TypeError).
  { intros v Hx Hl Hne. rewrite (sorted_family v l Hl). cbn [bind].
    pose proof (stable_sort_perm block_lt l) as Hp.
    destruct (stable_sort block_lt l) as [|y s] eqn:Es.
    - apply Permutation_sym, Permutation_nil in Hp. contradiction.
    - cbn [insert]. rewrite key_lt_other_family; [reflexivity|].
      rewrite family_of_forall in Hl. rewrite (Hl y); [congruence|].
      eapply Permutation_in; [apply Permutation_sym; exact Hp|now left]. }
  destruct (version x) eqn:Ex; cbn in H4, H6.
  - destruct (family_of IPv6 l) eqn:E6.
    + apply (Hins IPv6); [congruence|assumption|].
      intros ->. cbn in H4. discriminate.
    + rewrite IH by assumption. reflexivity.
  - destruct (family_of IPv4 l) eqn:E4.
    + apply (Hins IPv4); [congruence|assumption|].
      intros ->. cbn in H6. discriminate.
    + rewrite IH by assumption. reflexivity.
Qed.

Lemma stable_sort_block_sorted (l : list network) :
  StronglySorted (fun a b => block_lt b a = false) (stable_sort block_lt l).
Proof.
  apply stable_sort_sorted; [apply block_lt_asym|apply block_le_trans].
Qed.

Lemma stable_sort_block_unique (v : ip_version) (l1 l2 : list network) :
  family_of v l1 = true -> Permutation l1 l2 ->
  StronglySorted (fun a b => block_lt b a = false) l2 ->
  stable_sort block_lt l1 = l2.
Proof.
  intros Hf Hp Hs.
  apply sorted_unique with (le := fun a b => block_lt b a = false).
  - rewrite family_of_forall in Hf. intros a b Ha Hb Hab Hba.
    apply block_le_antisym; [|assumption..].
    rewrite (Hf a), (Hf b); [reflexivity|..];
      eapply Permutation_in; try eassumption;
      apply Permutation_sym, stable_sort_perm.
  - apply stable_sort_block_sorted.
  - assumption.
  - rewrite <- Hp. apply Permutation_sym, stable_sort_perm.
Qed.

Lemma stable_sort_block_permutation (v : ip_version) (l1 l2 : list network) :
  family_of v l1 = true -> Permutation l1 l2 ->
  stable_sort block_lt l1 = stable_sort block_lt l2.
Proof.
  intros Hf Hp. apply stable_sort_block_unique with (v := v); auto.
  - rewrite Hp. apply stable_sort_perm.
  - apply stable_sort_block_sorted.
Qed.

Lemma comprehension_ip_network (l : list network) :
  (Forall valid l /\ comprehension ip_network l = Ok l)
  \/ (~ Forall valid l /\ comprehension ip_network l = Raise ValueError).
Proof.
  induction l as [|x l IH]; cbn; [left; split; [constructor|reflexivity]|].
  destruct (ip_network x) as [m|e] eqn:Ex; cbn.
  - apply ip_network_inv in Ex as [-> Hx].
    destruct IH as [[Hl ->]|[Hl ->]]; cbn.
    + left. split; [now constructor|reflexivity].
    + right. split; [|reflexivity]. intros H. inversion H; auto.
  - right. split.
    + intros H. inversion H as [|? ? Hx _]; subst.
      apply ip_network_valid in Hx. congruence.
    + unfold ip_network in Ex. apply make_network_raises in Ex. now subst.
Qed.

(* ----------------------------------------------------------------- *)
(** ** The run of [find_unused_subnets] *)

Lemma carve_one_family (u : network) (available : list network) :
  valid u ->
  Forall (fun a => valid a /\ version a = version u) available ->
  Forall (fun a => valid a /\ version a = version u) (carve_one u available).
Proof.
  intros Hu Hav. unfold carve_one. apply Forall_flat_map.
  eapply Forall_impl; [|exact Hav]. cbn. intros a [Ha Ev].
  eapply Forall_impl; [|apply (pieces_blocks u a Ha Hu (eq_sym Ev))].
  cbn. intros b (Hb & Evb & _). split; congruence.
Qed.

Lemma exclude_all_carve (p : network) (used : list network) :
  forall available,
    Forall (fun u => valid u /\ version u = version p) used ->
    Forall (fun a => valid a /\ version a = version p /\ within a p)
           available ->
    exclude_all used available = Ok (carve used available)
    /\ Forall (fun a => valid a /\ version a = version p /\ within a p)
              (carve used available).
Proof.
  induction used as [|u used IH]; intros available Hused Hav;
    cbn [exclude_all carve fold_left]; [auto|].
  inversion Hused as [|? ? [Hu Ev] Hused']; subst.
  rewrite exclude_from_available_carve; [|assumption|].
  2:{ eapply Forall_impl; [|exact Hav]. cbn.
      intros a (Ha & Eva & _). split; congruence. }
  cbn [bind]. apply IH; [assumption|].
  now apply carve_one_blocks.
Qed.

Lemma parent_working_set (p : network) :
  valid p ->
  Forall (fun a => valid a /\ version a = version p /\ within a p) [p].
Proof. intros Hp. constructor; [|constructor]. auto using within_refl. Qed.

Lemma sorted_used_family (v : ip_version) (used : list network) :
  Forall valid used -> family_of v used = true ->
  sorted_used used = Ok (stable_sort block_lt used).
Proof.
  intros Hv Hf. unfold sorted_used.
  destruct (comprehension_ip_network used) as [[_ ->]|[H _]];
    [|contradiction].
  cbn [bind]. now apply sorted_family with (v := v).
Qed.

Lemma family_blocks (p : network) (used : list network) :
  Forall valid used -> family_of (version p) used = true ->
  Forall (fun u => valid u /\ version u = version p) used.
Proof.
  intros Hv Hf. rewrite family_of_forall in Hf.
  rewrite Forall_forall in *. auto.
Qed.

Lemma find_unused_subnets_family (p : network) (used : list network) :
  valid p -> Forall valid used -> family_of (version p) used = true ->
  find_unused_subnets p used = Ok (carve (stable_sort block_lt used) [p])
  /\ Forall (fun a => valid a /\ version a = version p /\ within a p)
            (carve (stable_sort block_lt used) [p]).
Proof.
  intros Hp Hv Hf. unfold find_unused_subnets.
  rewrite (sorted_used_family (version p)) by assumption. cbn [bind].
  apply exclude_all_carve; [|now apply parent_working_set].
  eapply Permutation_Forall; [apply stable_sort_perm|].
  now apply family_blocks.
Qed.

Lemma find_unused_subnets_invalid (p : network) (used : list network) :
  ~ Forall valid used -> find_unused_subnets p used = Raise ValueError.
Proof.
  intros H. unfold find_unused_subnets, sorted_used.
  destruct (comprehension_ip_network used) as [[H' _]|[_ ->]];
    [contradiction|reflexivity].
Qed.

Lemma exclude_all_other_family (p : network) (used : list network) :
  used <> [] -> (forall u, In u used -> version u <> version p) ->
  exclude_all used [p] = Raise TypeError.
Proof.
  destruct used as [|u used]; [congruence|]. intros _ H.
  cbn [exclude_all exclude_from_available].
  rewrite subnet_of_other_family by (apply H; now left). reflexivity.
Qed.

Lemma find_unused_subnets_other_family (p : network) (used : list network) :
  Forall valid used -> family_of (version p) used = false ->
  find_unused_subnets p used = Raise TypeError.
Proof.
  intros Hv Hf. unfold find_unused_subnets.
  assert (Hne : used <> []) by (intros ->; discriminate).
  assert (Hcase : forall v, v <> version p -> family_of v used = true ->
                            bind (sorted_used used)
                                 (fun us => exclude_all us [p])
                            = Raise TypeError).
  { intros v Hvp Hfv. rewrite (sorted_used_family v) by assumption.
    cbn [bind]. apply exclude_all_other_family.
    - intros E. apply Hne. apply Permutation_nil.
      rewrite <- E. apply Permutation_sym, stable_sort_perm.
    - rewrite family_of_forall in Hfv. intros u Hu. rewrite (Hfv u).
      + assumption.
      + eapply Permutation_in; [|exact Hu].
        apply Permutation_sym, stable_sort_perm. }
  assert (Hmix : family_of IPv4 used = false -> family_of IPv6 used = false ->
                 bind (sorted_used used) (fun us => exclude_all us [p])
                 = Raise TypeError).
  { intros H4 H6. unfold sorted_used.
    destruct (comprehension_ip_network used) as [[_ ->]|[H _]];
      [|contradiction].
    cbn [bind]. now rewrite sorted_mixed. }
  destruct (version p) eqn:Ep.
  - destruct (family_of IPv6 used) eqn:E6; [|auto].
    apply (Hcase IPv6); [discriminate|assumption].
  - destruct (family_of IPv4 used) eqn:E4; [|auto].
    apply (Hcase IPv4); [discriminate|assumption].
Qed.

(** The three ways a run can go. *)
Lemma find_unused_subnets_cases (p : network) (used : list network) :
  valid p ->
  (Forall (fun u => valid u /\ version u = version p) used
   /\ find_unused_subnets p used = Ok (carve (stable_sort block_lt used) [p]))
  \/ find_unused_subnets p used = Raise ValueError
  \/ find_unused_subnets p used = Raise TypeError.
Proof.
  intros Hp.
  destruct (comprehension_ip_network used) as [[Hv _]|[Hv _]].
  - destruct (family_of (version p) used) eqn:Hf.
    + left. split; [now apply family_blocks|].
      now apply find_unused_subnets_family.
    + right; right. now apply find_unused_subnets_other_family.
  - right; left. now apply find_unused_subnets_invalid.
Qed.

Lemma find_unused_subnets_ok (p : network) (used free : list network) :
  valid p -> find_unused_subnets p used = Ok free ->
  Forall (fun u => valid u /\ version u = version p) used
  /\ free = carve (stable_sort block_lt used) [p]
  /\ Forall (fun a => valid a /\ version a = version p /\ within a p) free.
Proof.
  intros Hp H.
  destruct (find_unused_subnets_cases p used Hp) as [[Hu E]|[E|E]];
    rewrite E in H; try discriminate.
  injection H as <-. split; [assumption|]. split; [reflexivity|].
  apply find_unused_subnets_family; try assumption.
  - eapply Forall_impl; [|exact Hu]. cbn. tauto.
  - apply family_of_forall. rewrite Forall_forall in Hu.
    intros n Hn. now apply Hu.
Qed.

(* ================================================================= *)
(** * The exclusion engine *)

(** C8: on parent 10.0.0.0/24, the occupied blocks 10.0.0.0/26 and
    10.0.0.128/25 leave exactly the free block 10.0.0.64/26; no occupied
    block leaves the parent itself; the parent as the only occupied block
    leaves nothing. *)
Theorem scenarios_10_0_0_0_24 :
  find_unused_subnets (ipv4 10 0 0 0 24)
                      [ipv4 10 0 0 0 26; ipv4 10 0 0 128 25]
  = Ok [ipv4 10 0 0 64 26]
  /\ find_unused_subnets (ipv4 10 0 0 0 24) [] = Ok [ipv4 10 0 0 0 24]
  /\ find_unused_subnets (ipv4 10 0 0 0 24) [ipv4 10 0 0 0 24] = Ok [].
Proof. repeat split; vm_compute; reflexivity. Qed.

(** C9: the result depends only on which occupied blocks are supplied, not
    on their order: two collections that are permutations of each other are
    sorted into the same list and give the same free blocks in the same
    order (or fail in the same way). *)
Theorem find_unused_subnets_permutation (parent_cidr : network)
        (used1 used2 : list network) :
  Permutation used1 used2 ->
  sorted_used used1 = sorted_used used2
  /\ find_unused_subnets parent_cidr used1
     = find_unused_subnets parent_cidr used2.
Proof.
  intros Hp.
  assert (Hs : sorted_used used1 = sorted_used used2).
  { unfold sorted_used.
    destruct (comprehension_ip_network used1) as [[H1 ->]|[H1 ->]],
        (comprehension_ip_network used2) as [[H2 ->]|[H2 ->]];
      cbn [bind]; try reflexivity.
    - destruct (family_of IPv4 used1) eqn:E4.
      + rewrite (sorted_family IPv4 used1 E4).
        rewrite (family_of_permutation _ _ _ Hp) in E4.
        rewrite (sorted_family IPv4 used2 E4). f_equal.
        apply stable_sort_block_permutation with (v := IPv4); [|assumption].
        now rewrite (family_of_permutation _ _ _ Hp).
      + destruct (family_of IPv6 used1) eqn:E6.
        * rewrite (sorted_family IPv6 used1 E6).
          rewrite (family_of_permutation _ _ _ Hp) in E6.
          rewrite (sorted_family IPv6 used2 E6). f_equal.
          apply stable_sort_block_permutation with (v := IPv6); [|assumption].
          now rewrite (family_of_permutation _ _ _ Hp).
        * rewrite (sorted_mixed used1 E4 E6).
          rewrite (family_of_permutation IPv4 _ _ Hp) in E4.
          rewrite (family_of_permutation IPv6 _ _ Hp) in E6.
          now rewrite (sorted_mixed used2 E4 E6).
    - exfalso. apply H2. eapply Permutation_Forall; eassumption.
    - exfalso. apply H1.
      eapply Permutation_Forall; [apply Permutation_sym|]; eassumption. }
  split; [assumption|]. unfold find_unused_subnets. now rewrite Hs.
Qed.

Lemma find_unused_subnets_permutation_witness :
  find_unused_subnets (ipv4 10 0 0 0 24)
                      [ipv4 10 0 0 128 25; ipv4 10 0 0 0 26]
  = find_unused_subnets (ipv4 10 0 0 0 24)
                        [ipv4 10 0 0 0 26; ipv4 10 0 0 128 25].
Proof.
  apply (find_unused_subnets_permutation (ipv4 10 0 0 0 24)).
  apply perm_swap.
Defined.

(** C4: every block that [find_unused_subnets] returns is a validly
    aligned block: its network address is a multiple of its size
    [2^(addressWidth - prefixLength)], with a prefix length and an address
    in the range of its family. *)
Theorem free_blocks_aligned (parent_cidr : network)
        (used_networks free : list network) :
  ip_network parent_cidr = Ok parent_cidr ->
  find_unused_subnets parent_cidr used_networks = Ok free ->
  Forall (fun b =>
            network_address b
              mod 2 ^ (max_prefixlen (version b) - prefixlen b) = 0
            /\ 0 <= prefixlen b <= max_prefixlen (version b)
            /\ 0 <= network_address b < 2 ^ max_prefixlen (version b))
         free.
Proof.
  intros Hp H. apply ip_network_valid in Hp.
  destruct (find_unused_subnets_ok _ _ _ Hp H) as (_ & _ & Hfree).
  eapply Forall_impl; [|exact Hfree]. cbn.
  intros b ((Hpl & Ha & Hm) & _). unfold ALL_ONES in Ha.
  unfold block_size in Hm. repeat split; lia.
Qed.

Lemma free_blocks_aligned_witness :
  Forall (fun b =>
            network_address b
              mod 2 ^ (max_prefixlen (version b) - prefixlen b) = 0
            /\ 0 <= prefixlen b <= max_prefixlen (version b)
            /\ 0 <= network_address b < 2 ^ max_prefixlen (version b))
         [ipv4 10 0 0 128 25; ipv4 10 0 0 64 26].
Proof.
  apply (free_blocks_aligned (ipv4 10 0 0 0 24) [ipv4 10 0 0 0 26]);
    vm_compute; reflexivity.
Defined.

Lemma Forall_firstn {A : Type} (P : A -> Prop) (k : nat) (l : list A) :
  Forall P l -> Forall P (firstn k l).
Proof.
  intros H. rewrite <- (firstn_skipn k l) in H.
  now apply Forall_app in H.
Qed.

(** C10: for occupied blocks of the family of the parent, malformed in
    their layout or not, every block of every working set, and so every
    block returned, is a subnet of the parent. *)
Theorem working_set_within_parent (parent_cidr : network)
        (used_networks : list network) :
  ip_network parent_cidr = Ok parent_cidr ->
  Forall (block_of parent_cidr) used_networks ->
  exists used free,
    sorted_used used_networks = Ok used
    /\ find_unused_subnets parent_cidr used_networks = Ok free
    /\ (forall k, exists available,
           exclude_all (firstn k used) [parent_cidr] = Ok available
           /\ Forall (fun a => subnet_of a parent_cidr = Ok true) available)
    /\ Forall (fun b => subnet_of b parent_cidr = Ok true) free.
Proof.
  intros Hp Hused. apply ip_network_valid in Hp.
  assert (Hv : Forall valid used_networks).
  { eapply Forall_impl; [|exact Hused]. intros u [Hu _].
    now apply ip_network_valid. }
  assert (Hf : family_of (version parent_cidr) used_networks = true).
  { apply family_of_forall. rewrite Forall_forall in Hused.
    intros n Hn. now apply Hused. }
  assert (Hin : forall l : list network,
             Forall (fun a => valid a /\ version a = version parent_cidr
                              /\ within a parent_cidr) l ->
             Forall (fun a => subnet_of a parent_cidr = Ok true) l).
  { intros l Hl. eapply Forall_impl; [|exact Hl]. cbn.
    intros a (_ & Ev & Hw). apply subnet_of_true. auto. }
  destruct (find_unused_subnets_family _ _ Hp Hv Hf) as [Efree Hfree].
  exists (stable_sort block_lt used_networks),
    (carve (stable_sort block_lt used_networks) [parent_cidr]).
  split; [now apply sorted_used_family with (v := version parent_cidr)|].
  split; [assumption|]. split; [|auto].
  intros k.
  destruct (exclude_all_carve parent_cidr
              (firstn k (stable_sort block_lt used_networks)) [parent_cidr])
    as [E Hk].
  - apply Forall_firstn.
    eapply Permutation_Forall; [apply stable_sort_perm|].
    now apply family_blocks.
  - now apply parent_working_set.
  - eauto.
Qed.

Lemma working_set_within_parent_witness :
  exists used free,
    sorted_used [ipv4 10 0 0 32 27; ipv4 10 0 0 0 26; ipv4 10 0 0 0 26]
    = Ok used
    /\ find_unused_subnets (ipv4 10 0 0 0 24)
         [ipv4 10 0 0 32 27; ipv4 10 0 0 0 26; ipv4 10 0 0 0 26] = Ok free
    /\ (forall k, exists available,
           exclude_all (firstn k used) [ipv4 10 0 0 0 24] = Ok available
           /\ Forall (fun a => subnet_of a (ipv4 10 0 0 0 24) = Ok true)
                     available)
    /\ Forall (fun b => subnet_of b (ipv4 10 0 0 0 24) = Ok true) free.
Proof.
  apply working_set_within_parent.
  - vm_compute. reflexivity.
  - repeat (constructor; [split; [vm_compute; reflexivity|reflexivity]|]).
    constructor.
Defined.

Lemma block_lt_irrefl (a : network) : block_lt a a = false.
Proof. unfold block_lt. rewrite Z.eqb_refl. apply Z.ltb_irrefl. Qed.

(** Inserting a block a second time into the sorted occupied blocks does
    not change what is carved. *)
Lemma carve_insert_dup (u : network) (used : list network) :
  valid u ->
  forall available,
    StronglySorted (fun a b => block_lt b a = false) used ->
    In u used ->
    Forall (fun a => valid a /\ version a = version u) used ->
    Forall (fun a => valid a /\ version a = version u) available ->
    carve (stable_insert block_lt u used) available = carve used available.
Proof.
  intros Hu. induction used as [|y used IH]; intros available Hs Hin Hused Hav.
  { destruct Hin. }
  apply StronglySorted_inv in Hs as [Hs Hy].
  inversion Hused as [|? ? [Hvy Evy] Hused']; subst.
  cbn [stable_insert]. destruct (block_lt y u) eqn:E.
  - assert (Hin' : In u used).
    { destruct Hin as [->|Hin]; [|assumption].
      rewrite block_lt_irrefl in E. discriminate. }
    cbn [carve fold_left]. apply IH; auto.
    rewrite <- Evy in *. apply carve_one_family; [assumption|].
    eapply Forall_impl; [|exact Hav]. cbn. intros a [Ha Eva].
    split; congruence.
  - assert (Eyu : y = u).
    { destruct Hin as [Hin|Hin]; [assumption|].
      rewrite Forall_forall in Hy.
      apply block_le_antisym; auto. }
    subst y. cbn [carve fold_left].
    now rewrite carve_one_idempotent.
Qed.

Lemma family_of_duplicate (v : ip_version) (used : list network) (u : network) :
  In u used -> family_of v (used ++ [u]) = family_of v used.
Proof.
  intros Hin. unfold family_of. rewrite forallb_app. cbn [forallb].
  destruct (forallb _ used) eqn:E; [|reflexivity].
  rewrite forallb_forall in E. now rewrite (E u Hin).
Qed.

(** C3: excluding an occupied block a second time changes nothing: with a
    duplicate of one of its blocks appended, a collection gives the same
    free blocks (or fails in the same way). *)
Theorem exclusion_idempotent (parent_cidr : network)
        (used_networks : list network) (u : network) :
  ip_network parent_cidr = Ok parent_cidr ->
  In u used_networks ->
  find_unused_subnets parent_cidr (used_networks ++ [u])
  = find_unused_subnets parent_cidr used_networks.
Proof.
  intros Hp Hin. apply ip_network_valid in Hp.
  destruct (comprehension_ip_network used_networks) as [[Hv _]|[Hv _]].
  - assert (Hu : valid u) by (rewrite Forall_forall in Hv; auto).
    assert (Hv' : Forall valid (used_networks ++ [u]))
      by (apply Forall_app; auto).
    destruct (family_of (version parent_cidr) used_networks) eqn:Hf.
    + destruct (find_unused_subnets_family _ _ Hp Hv Hf) as [-> _].
      destruct (find_unused_subnets_family parent_cidr (used_networks ++ [u]))
        as [-> _]; [assumption..| |].
      { now rewrite family_of_duplicate. }
      f_equal.
      rewrite (stable_sort_block_permutation (version parent_cidr)
                 (used_networks ++ [u]) (u :: used_networks)).
      2:{ now rewrite family_of_duplicate. }
      2:{ apply Permutation_sym, Permutation_cons_append. }
      cbn [stable_sort].
      assert (Ev : version u = version parent_cidr)
        by (rewrite family_of_forall in Hf; auto).
      apply carve_insert_dup.
      * assumption.
      * apply stable_sort_block_sorted.
      * eapply Permutation_in; [apply stable_sort_perm|assumption].
      * eapply Permutation_Forall; [apply stable_sort_perm|].
        rewrite Ev. now apply family_blocks.
      * constructor; [|constructor]. auto.
    + rewrite !find_unused_subnets_other_family; auto.
      now rewrite family_of_duplicate.
  - rewrite !find_unused_subnets_invalid; auto.
    intros H. apply Forall_app in H as [H _]. contradiction.
Qed.

Lemma exclusion_idempotent_witness :
  find_unused_subnets (ipv4 10 0 0 0 24)
                      ([ipv4 10 0 0 128 25; ipv4 10 0 0 0 26]
                         ++ [ipv4 10 0 0 0 26])
  = find_unused_subnets (ipv4 10 0 0 0 24)
                        [ipv4 10 0 0 128 25; ipv4 10 0 0 0 26].
Proof.
  apply exclusion_idempotent.
  - vm_compute. reflexivity.
  - simpl. right. left. reflexivity.
Defined.

(** C2, as stated, fails: an occupied block of the other family is inside
    no block of the working set, and the run raises [TypeError] instead of
    skipping it. *)
Lemma other_family_block_raises :
  let parent_cidr := ipv4 10 0 0 0 24 in
  let u := IPNetwork IPv6 0 128 in
  ip_network parent_cidr = Ok parent_cidr
  /\ ip_network u = Ok u
  /\ (forall a, In a [parent_cidr] -> subnet_of u a <> Ok true)
  /\ find_unused_subnets parent_cidr [u] = Raise TypeError.
Proof.
  cbv zeta. repeat split; try (vm_compute; reflexivity).
  intros a [<-|[]]. vm_compute. discriminate.
Qed.

(** C2, amended: for occupied blocks of the family of the parent, the run
    returns a result, and an occupied block that is inside no block of the
    working set at its turn leaves that working set unchanged. *)
Theorem uncontained_block_skipped (parent_cidr : network)
        (used_networks : list network) :
  ip_network parent_cidr = Ok parent_cidr ->
  Forall (block_of parent_cidr) used_networks ->
  exists used free,
    sorted_used used_networks = Ok used
    /\ find_unused_subnets parent_cidr used_networks = Ok free
    /\ forall k u,
        nth_error used k = Some u ->
        exists available,
          exclude_all (firstn k used) [parent_cidr] = Ok available
          /\ ((forall a, In a available -> subnet_of u a <> Ok true) ->
              exclude_from_available u available = Ok available).
Proof.
  intros Hp Hused. apply ip_network_valid in Hp.
  assert (Hv : Forall valid used_networks).
  { eapply Forall_impl; [|exact Hused]. intros u [Hu _].
    now apply ip_network_valid. }
  assert (Hf : family_of (version parent_cidr) used_networks = true).
  { apply family_of_forall. rewrite Forall_forall in Hused.
    intros n Hn. now apply Hused. }
  destruct (find_unused_subnets_family _ _ Hp Hv Hf) as [Efree _].
  set (used := stable_sort block_lt used_networks) in *.
  assert (Hsorted : Forall (fun u => valid u
                                     /\ version u = version parent_cidr) used).
  { eapply Permutation_Forall; [apply stable_sort_perm|].
    now apply family_blocks. }
  exists used, (carve used [parent_cidr]).
  split; [now apply sorted_used_family with (v := version parent_cidr)|].
  split; [assumption|].
  intros k u Hk.
  destruct (exclude_all_carve parent_cidr (firstn k used) [parent_cidr])
    as [E Hav]; [now apply Forall_firstn|now apply parent_working_set|].
  exists (carve (firstn k used) [parent_cidr]). split; [assumption|].
  intros Hout.
  assert (Hu : valid u /\ version u = version parent_cidr).
  { rewrite Forall_forall in Hsorted. apply Hsorted.
    eapply nth_error_In; eassumption. }
  destruct Hu as [Hu Ev].
  rewrite exclude_from_available_carve; [|assumption|].
  2:{ eapply Forall_impl; [|exact Hav]. cbn.
      intros a (Ha & Eva & _). split; congruence. }
  f_equal. apply carve_one_skip.
  rewrite Forall_forall in *. intros a Ha.
  destruct (Hav a Ha) as (_ & Eva & _). split; [congruence|].
  intros Hw. apply (Hout a Ha). apply subnet_of_true.
  split; [congruence|assumption].
Qed.

Lemma uncontained_block_skipped_witness :
  exists used free,
    sorted_used [ipv4 10 0 0 0 25; ipv4 10 0 0 64 26] = Ok used
    /\ find_unused_subnets (ipv4 10 0 0 0 24)
         [ipv4 10 0 0 0 25; ipv4 10 0 0 64 26] = Ok free
    /\ forall k u,
        nth_error used k = Some u ->
        exists available,
          exclude_all (firstn k used) [ipv4 10 0 0 0 24] = Ok available
          /\ ((forall a, In a available -> subnet_of u a <> Ok true) ->
              exclude_from_available u available = Ok available).
Proof.
  apply uncontained_block_skipped.
  - vm_compute. reflexivity.
  - repeat (constructor; [split; [vm_compute; reflexivity|reflexivity]|]).
    constructor.
Defined.

Example nested_block_skipped :
  find_unused_subnets (ipv4 10 0 0 0 24)
                      [ipv4 10 0 0 32 27; ipv4 10 0 0 0 26]
  = Ok [ipv4 10 0 0 128 25; ipv4 10 0 0 64 26].
Proof. vm_compute. reflexivity. Qed.

(* ----------------------------------------------------------------- *)
(** ** Exact coverage *)

Lemma sum_permutation (l l' : list Z) : Permutation l l' -> sum l = sum l'.
Proof.
  intros Hp. induction Hp; rewrite ?sum_cons; lia.
Qed.

Lemma total_addresses_permutation (l l' : list network) :
  Permutation l l' -> total_addresses l = total_addresses l'.
Proof.
  intros Hp. unfold total_addresses. apply sum_permutation.
  now apply Permutation_map.
Qed.

Lemma pairwise_disjoint_NoDup (l : list network) :
  Forall valid l -> pairwise_disjoint l -> NoDup l.
Proof.
  intros Hv Hpw. induction Hpw as [|a l Ha Hpw IH]; constructor.
  - inversion Hv as [|? ? Hva _]; subst. intros Hin.
    rewrite Forall_forall in Ha.
    apply (disjoint_irrefl a Hva). auto.
  - inversion Hv; auto.
Qed.

Lemma Exists_permutation {A : Type} (P : A -> Prop) (l l' : list A) :
  Permutation l l' -> Exists P l -> Exists P l'.
Proof.
  intros Hp H. apply Exists_exists in H as (x & Hx & HP).
  apply Exists_exists. exists x. split; [|assumption].
  eapply Permutation_in; eassumption.
Qed.

Lemma partition_start (p : network) : valid p -> partition_of p [p] [].
Proof.
  intros Hp. unfold partition_of.
  refine (conj (parent_working_set p Hp) (conj _ (conj _ (conj _
            (conj _ (conj _ _)))))).
  - constructor; constructor.
  - constructor.
  - constructor.
  - constructor; constructor.
  - intros x. rewrite Exists_cons, !Exists_nil. tauto.
  - rewrite total_addresses_cons. unfold total_addresses, sum. cbn. lia.
Qed.

Lemma partition_step (p u : network) (available done : list network) :
  partition_of p available done ->
  valid u -> version u = version p ->
  (exists a, In a available /\ within u a) ->
  partition_of p (carve_one u available) (u :: done).
Proof.
  intros (Hav & Hpw & Hdv & Hdpw & Hsep & Hcov & Htot) Hu Ev Hhit.
  assert (Hfam : Forall (fun a => valid a /\ version a = version u) available).
  { eapply Forall_impl; [|exact Hav]. cbn. intros a (Ha & Eva & _).
    split; congruence. }
  destruct (carve_one_hit u available Hu Hfam Hpw Hhit)
    as (Hnew & Hcov' & Htot').
  unfold partition_of.
  refine (conj _ (conj _ (conj _ (conj _ (conj _ (conj _ _)))))).
  - now apply carve_one_blocks.
  - now apply carve_one_pairwise.
  - now constructor.
  - constructor; [|assumption].
    destruct Hhit as (a & Ha & Hw). rewrite Forall_forall in Hsep, Hav.
    destruct (Hav a Ha) as (Hva & _).
    specialize (Hsep a Ha). rewrite Forall_forall in *.
    intros d Hd. specialize (Hsep d Hd). specialize (Hdv d Hd).
    block_arith.
  - rewrite Forall_forall in *. intros b Hb.
    constructor; [auto|].
    apply carve_one_origin in Hb as (Hvb & a & Ha & Hba & _);
      [|assumption|apply Forall_forall; exact Hfam].
    specialize (Hsep a Ha). rewrite Forall_forall in *.
    intros d Hd. specialize (Hsep d Hd).
    eapply disjoint_within; eassumption.
  - intros x. rewrite Hcov, Hcov', Exists_cons. tauto.
  - rewrite total_addresses_cons. lia.
Qed.

Lemma partition_run (p : network) (used : list network) :
  forall available done,
    Forall (fun u => valid u /\ version u = version p) used ->
    partition_of p available done ->
    each_contained used available ->
    partition_of p (carve used available) (rev used ++ done).
Proof.
  induction used as [|u used IH]; intros available done Hused Hpart Hturn;
    cbn [carve fold_left rev app]; [assumption|].
  inversion Hused as [|? ? [Hu Ev] Hused']; subst.
  destruct Hturn as ((a & Ha & Hsub) & new_available & Enew & Hturn).
  assert (Hfam : Forall (fun a => valid a /\ version a = version u) available).
  { destruct Hpart as (Hav & _). eapply Forall_impl; [|exact Hav]. cbn.
    intros b (Hb & Evb & _). split; congruence. }
  rewrite exclude_from_available_carve in Enew by assumption.
  injection Enew as <-.
  rewrite <- app_assoc. cbn [app]. apply IH; [assumption| |assumption].
  apply partition_step; auto.
  apply subnet_of_true in Hsub as [_ Hw]. eauto.
Qed.

(** C1: when every occupied block is, at its turn in the sorted order,
    inside some block of the working set, the free blocks returned are
    pairwise disjoint, the occupied blocks are distinct and pairwise
    disjoint, no free block meets an occupied block, the free and the
    occupied blocks together cover exactly the addresses of the parent, and
    the sizes of the free and of the occupied blocks add up to the size of
    the parent. *)
Theorem free_blocks_partition (parent_cidr : network)
        (used_networks : list network) :
  ip_network parent_cidr = Ok parent_cidr ->
  contained_in_turn parent_cidr used_networks ->
  exists free,
    find_unused_subnets parent_cidr used_networks = Ok free
    /\ pairwise_disjoint free
    /\ NoDup used_networks
    /\ pairwise_disjoint used_networks
    /\ Forall (fun f => Forall (disjoint f) used_networks) free
    /\ (forall x, covers parent_cidr x <->
                  Exists (fun f => covers f x) free
                  \/ Exists (fun u => covers u x) used_networks)
    /\ total_addresses free + total_addresses used_networks
       = num_addresses parent_cidr.
Proof.
  intros Hp (used & Eused & Hturn). apply ip_network_valid in Hp.
  (* the occupied blocks are valid and of the family of the parent *)
  assert (Hv : Forall valid used_networks).
  { unfold sorted_used in Eused.
    destruct (comprehension_ip_network used_networks) as [[H _]|[_ E]];
      [assumption|]. rewrite E in Eused. discriminate. }
  assert (Hsort : exists v, family_of v used_networks = true
                            /\ used = stable_sort block_lt used_networks).
  { destruct (family_of IPv4 used_networks) eqn:E4.
    - exists IPv4. split; [assumption|].
      rewrite (sorted_used_family IPv4) in Eused by assumption. congruence.
    - destruct (family_of IPv6 used_networks) eqn:E6.
      + exists IPv6. split; [assumption|].
        rewrite (sorted_used_family IPv6) in Eused by assumption. congruence.
      + unfold sorted_used in Eused.
        destruct (comprehension_ip_network used_networks) as [[_ E]|[H _]];
          [|contradiction].
        rewrite E in Eused. cbn [bind] in Eused.
        rewrite sorted_mixed in Eused by assumption. discriminate. }
  destruct Hsort as (v & Hfv & ->).
  set (used := stable_sort block_lt used_networks) in *.
  assert (Hperm : Permutation used_networks used) by apply stable_sort_perm.
  assert (Hf : family_of (version parent_cidr) used_networks = true).
  { destruct used as [|u used'] eqn:Eu.
    - apply Permutation_sym, Permutation_nil in Hperm. now subst.
    - destruct Hturn as ((a & [<-|[]] & Hsub) & _).
      apply subnet_of_true in Hsub as [Ev _].
      assert (Evu : version u = v).
      { rewrite family_of_forall in Hfv. apply Hfv.
        eapply Permutation_in; [apply Permutation_sym; exact Hperm|now left]. }
      congruence. }
  destruct (find_unused_subnets_family _ _ Hp Hv Hf) as [Efree _].
  fold used in Efree.
  assert (Hblocks : Forall (fun u => valid u
                                     /\ version u = version parent_cidr) used).
  { eapply Permutation_Forall; [exact Hperm|]. now apply family_blocks. }
  pose proof (partition_run parent_cidr used [parent_cidr] [] Hblocks
                (partition_start parent_cidr Hp) Hturn) as Hpart.
  rewrite app_nil_r in Hpart.
  destruct Hpart as (_ & Hpw & Hdv & Hdpw & Hsep & Hcov & Htot).
  assert (Hperm' : Permutation (rev used) used_networks).
  { rewrite <- Permutation_rev. now apply Permutation_sym. }
  assert (Hupw : pairwise_disjoint used_networks).
  { eapply pairwise_permutation; [|exact Hperm'|exact Hdpw].
    apply disjoint_sym. }
  exists (carve used [parent_cidr]).
  refine (conj Efree (conj Hpw (conj _ (conj Hupw (conj _ (conj _ _)))))).
  - now apply pairwise_disjoint_NoDup.
  - eapply Forall_impl; [|exact Hsep]. cbn. intros f Hf'.
    eapply Permutation_Forall; eassumption.
  - intros x. rewrite Hcov. split; (intros [H|H]; [now left|right]).
    + eapply Exists_permutation; eassumption.
    + eapply Exists_permutation; [apply Permutation_sym|]; eassumption.
  - rewrite <- (total_addresses_permutation _ _ Hperm'). exact Htot.
Qed.

Lemma free_blocks_partition_witness :
  exists free,
    find_unused_subnets (ipv4 10 0 0 0 24)
                        [ipv4 10 0 0 128 25; ipv4 10 0 0 0 26] = Ok free
    /\ pairwise_disjoint free
    /\ NoDup [ipv4 10 0 0 128 25; ipv4 10 0 0 0 26]
    /\ pairwise_disjoint [ipv4 10 0 0 128 25; ipv4 10 0 0 0 26]
    /\ Forall (fun f => Forall (disjoint f)
                               [ipv4 10 0 0 128 25; ipv4 10 0 0 0 26]) free
    /\ (forall x, covers (ipv4 10 0 0 0 24) x <->
                  Exists (fun f => covers f x) free
                  \/ Exists (fun u => covers u x)
                            [ipv4 10 0 0 128 25; ipv4 10 0 0 0 26])
    /\ total_addresses free
       + total_addresses [ipv4 10 0 0 128 25; ipv4 10 0 0 0 26]
       = num_addresses (ipv4 10 0 0 0 24).
Proof.
  apply free_blocks_partition.
  - vm_compute. reflexivity.
  - exists [ipv4 10 0 0 0 26; ipv4 10 0 0 128 25].
    split; [vm_compute; reflexivity|].
    simpl. split.
    + exists (ipv4 10 0 0 0 24). split; [now left|vm_compute; reflexivity].
    + exists [ipv4 10 0 0 128 25; ipv4 10 0 0 64 26].
      split; [vm_compute; reflexivity|]. split.
      * exists (ipv4 10 0 0 128 25).
        split; [now left|vm_compute; reflexivity].
      * exists [ipv4 10 0 0 64 26]. split; [vm_compute; reflexivity|exact I].
Defined.

(* ================================================================= *)
(** * The aggregator *)

Lemma row_num_addresses_size (row : Row) (n : Z) :
  row_num_addresses row = Ok n -> n = row_block_size row.
Proof.
  unfold row_num_addresses, row_block_size.
  destruct (Address row) as [v ip|]; [|discriminate].
  destruct (CIDR_Prefix row) as [p|]; [|discriminate].
  destruct (make_network v ip p) as [m|] eqn:Em; cbn [bind]; [|discriminate].
  intros [= <-]. apply make_network_valid in Em as [-> Hm].
  now rewrite num_addresses_valid.
Qed.

Lemma used_counts (data : list Row) (counts : list Z) :
  comprehension row_num_addresses data = Ok counts ->
  counts = map row_block_size data.
Proof.
  intros H. apply comprehension_inv in H.
  induction H as [|row n data counts Hn _ IH]; [reflexivity|].
  cbn [map]. f_equal; [|assumption]. now apply row_num_addresses_size.
Qed.

(** C5: in every aggregate [get_pie_data] produces, Allocated is the sum,
    over the rows of the parent whose status is Used, of
    [2^(addressWidth - prefixLength)] of the block of the row, and
    Unallocated is [max(total - Allocated, 0)] for the address count
    [total] of the parent, so it is never negative. *)
Theorem pie_data_counts (user_cidrs : list network)
        (cidr_data : list (network * list Row)) (pie_data : list PieRow) :
  get_pie_data user_cidrs cidr_data = Ok pie_data ->
  Forall2 (fun cidr entry =>
             exists data,
               getitem cidr_data cidr = Ok data
               /\ CIDR_Range entry = cidr
               /\ Allocated entry
                  = sum (map row_block_size (filter is_used data))
               /\ Unallocated entry
                  = Z.max (2 ^ (max_prefixlen (version cidr) - prefixlen cidr)
                           - Allocated entry) 0
               /\ 0 <= Unallocated entry)
          user_cidrs pie_data.
Proof.
  revert pie_data.
  induction user_cidrs as [|cidr others IH]; intros pie_data H;
    cbn [get_pie_data] in H.
  - injection H as <-. constructor.
  - destruct (ip_network cidr) as [net|] eqn:Enet; cbn [bind] in H;
      [|discriminate].
    apply ip_network_inv in Enet as [-> Hcidr].
    destruct (getitem cidr_data cidr) as [data|] eqn:Edata; cbn [bind] in H;
      [|discriminate].
    destruct (comprehension row_num_addresses (filter is_used data))
      as [counts|] eqn:Ecounts; cbn [bind] in H; [|discriminate].
    destruct (get_pie_data others cidr_data) as [rest|] eqn:Erest;
      cbn [bind] in H; [|discriminate].
    injection H as <-. constructor; [|auto].
    exists data. cbn [CIDR_Range Allocated Unallocated].
    apply used_counts in Ecounts. subst counts.
    rewrite num_addresses_valid by assumption. unfold block_size.
    refine (conj Edata (conj eq_refl (conj eq_refl (conj eq_refl _)))).
    lia.
Qed.

Lemma pie_data_counts_witness :
  let parent := ipv4 10 0 0 0 24 in
  let data := [used_row IPv4 (network_address parent) 24 "vnet-scope";
               used_row IPv4 (network_address parent) 25 "frontend";
               no_address_row "empty"] in
  Forall2 (fun cidr entry =>
             exists data',
               getitem [(parent, data)] cidr = Ok data'
               /\ CIDR_Range entry = cidr
               /\ Allocated entry
                  = sum (map row_block_size (filter is_used data'))
               /\ Unallocated entry
                  = Z.max (2 ^ (max_prefixlen (version cidr) - prefixlen cidr)
                           - Allocated entry) 0
               /\ 0 <= Unallocated entry)
          [parent] [mkPieRow parent 384 0].
Proof.
  cbv zeta. apply pie_data_counts. vm_compute. reflexivity.
Defined.

Lemma comprehension_returns {A B : Type} (f : A -> result B) (l : list A) :
  Forall (fun x => exists y, f x = Ok y) l ->
  exists l', comprehension f l = Ok l'.
Proof.
  intros H. induction H as [|x l [y Ey] _ [l' El]]; cbn.
  - eauto.
  - rewrite Ey, El. cbn. eauto.
Qed.

(** [get_pie_data] produces an aggregate for every parent that has its
    rows when the Used rows describe blocks. *)
Lemma get_pie_data_returns (user_cidrs : list network)
      (cidr_data : list (network * list Row)) :
  Forall (fun cidr =>
            valid cidr
            /\ exists data,
                getitem cidr_data cidr = Ok data
                /\ Forall (fun row => is_used row = true ->
                                      exists n, row_num_addresses row = Ok n)
                          data)
         user_cidrs ->
  exists pie_data, get_pie_data user_cidrs cidr_data = Ok pie_data.
Proof.
  intros H.
  induction H as [|cidr others (Hc & data & Ed & Hrows) _ [rest Er]]; cbn.
  - eauto.
  - apply ip_network_valid in Hc. rewrite Hc, Ed. cbn [bind].
    destruct (comprehension_returns row_num_addresses (filter is_used data))
      as [counts ->].
    + apply Forall_forall. intros row Hrow.
      apply filter_In in Hrow as [Hin Hu].
      rewrite Forall_forall in Hrows. auto.
    + rewrite Er. cbn. eauto.
Qed.

(* ================================================================= *)
(** * The normalizer *)

Lemma sort_value_lt_asym (a b : sort_value) :
  sort_value_lt a b = true -> sort_value_lt b a = false.
Proof. destruct a, b; cbn; try reflexivity; try discriminate; lia. Qed.

Lemma sort_value_le_trans (a b c : sort_value) :
  sort_value_lt b a = false -> sort_value_lt c b = false ->
  sort_value_lt c a = false.
Proof. destruct a, b, c; cbn; try reflexivity; try discriminate; lia. Qed.

Lemma sort_value_tied (a b : sort_value) :
  sort_value_lt a b = false -> sort_value_lt b a = false -> a = b.
Proof.
  destruct a, b; cbn; try reflexivity; try discriminate.
  intros H1 H2. f_equal. lia.
Qed.

Lemma prefix_cell_lt_asym (a b : prefix_cell) :
  prefix_cell_lt a b = true -> prefix_cell_lt b a = false.
Proof. destruct a, b; cbn; try reflexivity; try discriminate; lia. Qed.

Lemma prefix_cell_le_trans (a b c : prefix_cell) :
  prefix_cell_lt b a = false -> prefix_cell_lt c b = false ->
  prefix_cell_lt c a = false.
Proof. destruct a, b, c; cbn; try reflexivity; try discriminate; lia. Qed.

Lemma prefix_cell_tied (a b : prefix_cell) :
  prefix_cell_lt a b = false -> prefix_cell_lt b a = false -> a = b.
Proof.
  destruct a, b; cbn; try reflexivity; try discriminate.
  intros H1 H2. f_equal. lia.
Qed.

Lemma ascii_compare_lt_trans (a b c : ascii) :
  Ascii.compare a b = Lt -> Ascii.compare b c = Lt -> Ascii.compare a c = Lt.
Proof.
  unfold Ascii.compare. rewrite !N.compare_lt_iff. apply N.lt_trans.
Qed.

Lemma ascii_compare_refl (a : ascii) : Ascii.compare a a = Eq.
Proof. unfold Ascii.compare. apply N.compare_refl. Qed.

Lemma string_compare_lt_trans (a : string) :
  forall b c, String.compare a b = Lt -> String.compare b c = Lt ->
              String.compare a c = Lt.
Proof.
  induction a as [|x a IH]; intros [|y b] [|z c]; cbn; try congruence.
  destruct (Ascii.compare x y) eqn:Exy; try discriminate;
    destruct (Ascii.compare y z) eqn:Eyz; try discriminate.
  - apply Ascii.compare_eq_iff in Exy, Eyz. subst.
    rewrite ascii_compare_refl. apply IH.
  - apply Ascii.compare_eq_iff in Exy. subst. now rewrite Eyz.
  - apply Ascii.compare_eq_iff in Eyz. subst. now rewrite Exy.
  - now rewrite (ascii_compare_lt_trans x y z).
Qed.

Lemma string_ltb_asym (a b : string) :
  String.ltb a b = true -> String.ltb b a = false.
Proof.
  unfold String.ltb. rewrite (String.compare_antisym b a).
  destruct (String.compare a b); cbn; congruence.
Qed.

Lemma string_ltb_tied (a b : string) :
  String.ltb a b = false -> String.ltb b a = false -> a = b.
Proof.
  unfold String.ltb. rewrite (String.compare_antisym b a).
  destruct (String.compare a b) eqn:E; cbn; try discriminate.
  intros _ _. now apply String.compare_eq_iff.
Qed.

Lemma string_le_trans (a b c : string) :
  String.ltb b a = false -> String.ltb c b = false -> String.ltb c a = false.
Proof.
  intros Hba Hcb. destruct (String.ltb c a) eqn:Hca; [|reflexivity].
  destruct (String.ltb a b) eqn:Hab.
  - unfold String.ltb in *.
    destruct (String.compare c a) eqn:E1; try discriminate.
    destruct (String.compare a b) eqn:E2; try discriminate.
    rewrite (string_compare_lt_trans c a b E1 E2) in Hcb. discriminate.
  - rewrite (string_ltb_tied a b Hab Hba) in Hca. congruence.
Qed.

Lemma StronglySorted_map_inv {A B : Type} (R : B -> B -> Prop) (f : A -> B)
      (l : list A) :
  StronglySorted R (map f l) -> StronglySorted (fun a b => R (f a) (f b)) l.
Proof.
  induction l as [|x l IH]; cbn; intros H; [constructor|].
  apply StronglySorted_inv in H as [Hs Hx]. constructor; [auto|].
  rewrite Forall_map in Hx. exact Hx.
Qed.

Lemma StronglySorted_after {A : Type} (R : A -> A -> Prop) (l1 : list A)
      (a : A) (l2 : list A) :
  StronglySorted R (l1 ++ a :: l2) -> Forall (R a) l2.
Proof.
  induction l1 as [|x l1 IH]; cbn; intros H;
    apply StronglySorted_inv in H as [Hs Hx]; auto.
Qed.

Lemma filter_map_swap {A B : Type} (p : B -> bool) (f : A -> B) (l : list A) :
  filter p (map f l) = map f (filter (fun x => p (f x)) l).
Proof.
  induction l as [|x l IH]; cbn; [reflexivity|].
  destruct (p (f x)); cbn; now rewrite IH.
Qed.

Lemma with_ip_sort_rows (float64 : bool) (l : list (sort_value * Row)) :
  Forall (fun a => a = with_ip_sort float64 (snd a)) l ->
  l = map (with_ip_sort float64) (map snd l).
Proof.
  intros H. induction H as [|a l Ha _ IH]; cbn; [reflexivity|].
  now rewrite <- Ha, <- IH.
Qed.

Lemma filter_with_ip_sort (float64 : bool) (p : sort_value * Row -> bool)
      (l : list (sort_value * Row)) :
  Forall (fun a => a = with_ip_sort float64 (snd a)) l ->
  map snd (filter p l)
  = filter (fun r => p (with_ip_sort float64 r)) (map snd l).
Proof.
  intros H. induction H as [|a l Ha _ IH]; cbn; [reflexivity|].
  rewrite <- Ha. destruct (p a); cbn; now rewrite IH.
Qed.

Lemma snd_with_ip_sort (float64 : bool) (l : list Row) :
  map snd (map (with_ip_sort float64) l) = l.
Proof.
  rewrite map_map. cbn. apply map_id.
Qed.

Lemma by_ip_sort_asym a b : by_ip_sort a b = true -> by_ip_sort b a = false.
Proof. apply sort_value_lt_asym. Qed.
Lemma by_ip_sort_trans a b c :
  by_ip_sort b a = false -> by_ip_sort c b = false -> by_ip_sort c a = false.
Proof. apply sort_value_le_trans. Qed.
Lemma by_cidr_prefix_asym a b :
  by_cidr_prefix a b = true -> by_cidr_prefix b a = false.
Proof. apply prefix_cell_lt_asym. Qed.
Lemma by_cidr_prefix_trans a b c :
  by_cidr_prefix b a = false -> by_cidr_prefix c b = false ->
  by_cidr_prefix c a = false.
Proof. apply prefix_cell_le_trans. Qed.
Lemma by_status_asym a b : by_status a b = true -> by_status b a = false.
Proof. apply string_ltb_asym. Qed.
Lemma by_status_trans a b c :
  by_status b a = false -> by_status c b = false -> by_status c a = false.
Proof. apply string_le_trans. Qed.

(** Rows tied with one row are tied with each other, for every column. *)
Lemma pair_tied_class (r a b : sort_value * Row) :
  pair_tied r a = true -> pair_tied r b = true ->
  by_ip_sort a b = false /\ by_cidr_prefix a b = false
  /\ by_status a b = false.
Proof.
  unfold pair_tied. intros Ha Hb.
  repeat match goal with
         | H : _ && _ = true |- _ => apply andb_prop in H as [? ?]
         | H : negb _ = true |- _ => apply negb_true_iff in H
         end.
  repeat split.
  - apply by_ip_sort_trans with (b := r); assumption.
  - apply by_cidr_prefix_trans with (b := r); assumption.
  - apply by_status_trans with (b := r); assumption.
Qed.

Lemma sort_values_three {A : Type} (k1 k2 k3 : A -> A -> bool) (l : list A) :
  sort_values [k1; k2; k3] l
  = stable_sort k1 (stable_sort k2 (stable_sort k3 l)).
Proof. reflexivity. Qed.

(** ** The three passes on rows with their keys *)

Lemma normalizer_rows (float64 : bool) (l : list Row) :
  let out := map snd (sort_values [by_ip_sort; by_cidr_prefix; by_status]
                                  (map (with_ip_sort float64) l)) in
  Permutation l out
  /\ StronglySorted (row_le (ip_sort float64)) out
  /\ forall r, filter (row_tied (ip_sort float64) r) out
               = filter (row_tied (ip_sort float64) r) l.
Proof.
  cbv zeta. rewrite sort_values_three.
  set (assigned := map (with_ip_sort float64) l).
  set (sorted_rows := stable_sort by_ip_sort
                        (stable_sort by_cidr_prefix
                           (stable_sort by_status assigned))).
  assert (Hperm : Permutation assigned sorted_rows).
  { unfold sorted_rows. now rewrite <- !stable_sort_perm. }
  assert (Hall : Forall (fun a => a = with_ip_sort float64 (snd a))
                        sorted_rows).
  { eapply Permutation_Forall; [exact Hperm|].
    unfold assigned. apply Forall_map, Forall_forall. reflexivity. }
  split; [|split].
  - rewrite <- (snd_with_ip_sort float64 l). now apply Permutation_map.
  - assert (H : StronglySorted
                  (refined by_ip_sort
                     (refined by_cidr_prefix
                        (refined by_status (fun _ _ => True))))
                  sorted_rows).
    { unfold sorted_rows.
      apply stable_sort_refines;
        [apply by_ip_sort_asym|apply by_ip_sort_trans|].
      apply stable_sort_refines;
        [apply by_cidr_prefix_asym|apply by_cidr_prefix_trans|].
      apply stable_sort_refines;
        [apply by_status_asym|apply by_status_trans|].
      apply StronglySorted_trivial. }
    rewrite (with_ip_sort_rows float64 sorted_rows Hall) in H.
    apply StronglySorted_map_inv in H.
    eapply StronglySorted_weaken; [|exact H].
    intros a b (H1 & H2). split; [exact H1|].
    intros Hab. destruct (H2 Hab) as (H3 & H4). split; [exact H3|].
    intros Hab'. now destruct (H4 Hab').
  - intros r.
    assert (Hf : filter (pair_tied (with_ip_sort float64 r)) sorted_rows
                 = filter (pair_tied (with_ip_sort float64 r)) assigned).
    { unfold sorted_rows.
      rewrite !stable_sort_filter; [reflexivity|..];
        intros a b Hta Htb;
        now destruct (pair_tied_class _ _ _ Hta Htb) as (? & ? & ?). }
    apply (f_equal (map snd)) in Hf.
    rewrite (filter_with_ip_sort float64) in Hf by assumption.
    unfold assigned in Hf.
    rewrite (filter_map_swap _ (with_ip_sort float64) l), snd_with_ip_sort
      in Hf.
    exact Hf.
Qed.

Lemma sort_ipam_dataframe_rows (df : DataFrame) :
  has_column "Address" df = true ->
  has_column "CIDR Prefix" df = true ->
  has_column "Status" df = true ->
  sort_ipam_dataframe df
  = Ok (mkDataFrame (columns df)
          (map snd (sort_values [by_ip_sort; by_cidr_prefix; by_status]
                      (map (with_ip_sort (as_float64 (mapped_keys (rows df))))
                           (rows df))))).
Proof.
  intros Ha Hc Hs. unfold sort_ipam_dataframe. now rewrite Ha, Hc, Hs.
Qed.

(** Two arrangements of the same rows that are both in order and keep the
    tied rows in the same order are the same list. *)
Lemma stable_order_unique {A : Type} (le : A -> A -> Prop)
      (tied : A -> A -> bool) (l1 : list A) :
  (forall a, tied a a = true) ->
  (forall a b, le a b -> le b a -> tied a b = true) ->
  forall l2,
    Permutation l1 l2 -> StronglySorted le l1 -> StronglySorted le l2 ->
    (forall r, filter (tied r) l1 = filter (tied r) l2) ->
    l1 = l2.
Proof.
  intros Hrefl Hanti. induction l1 as [|a l1 IH]; intros l2 Hp H1 H2 Hf.
  - apply Permutation_nil in Hp. now subst.
  - destruct l2 as [|b l2].
    { apply Permutation_sym, Permutation_nil in Hp. discriminate. }
    apply StronglySorted_inv in H1 as [H1 Ha].
    apply StronglySorted_inv in H2 as [H2 Hb].
    assert (Eab : a = b).
    { assert (Hin_a : In a (b :: l2))
        by (eapply Permutation_in; [exact Hp|now left]).
      assert (Hin_b : In b (a :: l1))
        by (eapply Permutation_in; [exact (Permutation_sym Hp)|now left]).
      destruct Hin_a as [|Hin_a]; [congruence|].
      destruct Hin_b as [|Hin_b]; [congruence|].
      rewrite Forall_forall in Ha, Hb.
      specialize (Hf a). cbn [filter] in Hf.
      rewrite Hrefl, (Hanti a b) in Hf by auto. congruence. }
    subst b. f_equal. apply Permutation_cons_inv in Hp.
    apply IH; auto. intros r. specialize (Hf r). cbn [filter] in Hf.
    destruct (tied r a); congruence.
Qed.

(** Two arrangements of the same elements that are both in order are the
    same list when no two different elements tie. *)
Lemma sorted_arrangement_unique {A : Type} (le : A -> A -> Prop)
      (l1 : list A) :
  forall l2,
    Permutation l1 l2 -> StronglySorted le l1 -> StronglySorted le l2 ->
    (forall a b, In a l1 -> In b l1 -> le a b -> le b a -> a = b) ->
    l1 = l2.
Proof.
  induction l1 as [|a l1 IH]; intros l2 Hp H1 H2 Hanti.
  - apply Permutation_nil in Hp. now subst.
  - destruct l2 as [|b l2].
    { apply Permutation_sym, Permutation_nil in Hp. discriminate. }
    apply StronglySorted_inv in H1 as [H1 Ha].
    apply StronglySorted_inv in H2 as [H2 Hb].
    assert (Eab : a = b).
    { assert (Hin_a : In a (b :: l2))
        by (eapply Permutation_in; [exact Hp|now left]).
      assert (Hin_b : In b (a :: l1))
        by (eapply Permutation_in; [exact (Permutation_sym Hp)|now left]).
      destruct Hin_a as [|Hin_a]; [congruence|].
      destruct Hin_b as [|Hin_b]; [congruence|].
      rewrite Forall_forall in Ha, Hb.
      apply Hanti; [now left|now right|auto|auto]. }
    subst b. f_equal. apply Permutation_cons_inv in Hp.
    apply IH; auto. intros x y Hx Hy. apply Hanti; now right.
Qed.

Lemma row_tied_refl (key : Row -> sort_value) (a : Row) :
  row_tied key a a = true.
Proof.
  unfold row_tied.
  assert (H1 : sort_value_lt (key a) (key a) = false)
    by (destruct (sort_value_lt _ _) eqn:E; [|reflexivity];
        now rewrite (sort_value_lt_asym _ _ E) in E).
  assert (H2 : prefix_cell_lt (CIDR_Prefix a) (CIDR_Prefix a) = false)
    by (destruct (prefix_cell_lt _ _) eqn:E; [|reflexivity];
        now rewrite (prefix_cell_lt_asym _ _ E) in E).
  assert (H3 : String.ltb (Status a) (Status a) = false)
    by (destruct (String.ltb _ _) eqn:E; [|reflexivity];
        now rewrite (string_ltb_asym _ _ E) in E).
  now rewrite H1, H2, H3.
Qed.

Lemma row_le_antisym (key : Row -> sort_value) (a b : Row) :
  row_le key a b -> row_le key b a -> row_tied key a b = true.
Proof.
  intros (H1 & H2) (H3 & H4). destruct (H2 H3) as (H5 & H6).
  destruct (H4 H1) as (H7 & H8). unfold row_tied.
  now rewrite H3, H1, H7, H5, (H8 H5), (H6 H7).
Qed.

(** ** The type of the key column *)

Lemma existsb_permutation {A : Type} (p : A -> bool) (l l' : list A) :
  Permutation l l' -> existsb p l = existsb p l'.
Proof.
  induction 1 as [|x l l' _ IH|x y l|l l' l'' _ IH1 _ IH2]; cbn.
  - reflexivity.
  - now rewrite IH.
  - now destruct (p x), (p y).
  - congruence.
Qed.

Lemma forallb_permutation {A : Type} (p : A -> bool) (l l' : list A) :
  Permutation l l' -> forallb p l = forallb p l'.
Proof.
  induction 1 as [|x l l' _ IH|x y l|l l' l'' _ IH1 _ IH2]; cbn.
  - reflexivity.
  - now rewrite IH.
  - now destruct (p x), (p y).
  - congruence.
Qed.

Lemma as_float64_permutation (l l' : list Row) :
  Permutation l l' ->
  as_float64 (mapped_keys l) = as_float64 (mapped_keys l').
Proof.
  intros Hp. unfold as_float64, mapped_keys.
  assert (Hk : Permutation (map (fun r => ip_key (Address r)) l)
                           (map (fun r => ip_key (Address r)) l'))
    by now apply Permutation_map.
  now rewrite (existsb_permutation _ _ _ Hk), (forallb_permutation _ _ _ Hk).
Qed.

Lemma series_value_infinity (float64 : bool) (k : sort_value) :
  series_value float64 k = Infinity <-> k = Infinity.
Proof.
  unfold series_value. destruct float64, k; split; congruence.
Qed.

Lemma float64_of_int_small (z : Z) : z < 2 ^ 53 -> float64_of_int z = z.
Proof.
  intros H. unfold float64_of_int.
  destruct (Z.ltb_spec z (2 ^ 53)); [reflexivity|lia].
Qed.

(** From [2^53] on, a double lies between the two neighbours of the
    integer on the grid of its exponent. *)
Lemma float64_of_int_large (z : Z) :
  2 ^ 53 <= z ->
  let unit := 2 ^ (Z.log2 z - 52) in
  let q := z / unit in
  0 < unit
  /\ 2 ^ 52 <= q < 2 ^ 53
  /\ (float64_of_int z = q * unit \/ float64_of_int z = (q + 1) * unit)
  /\ (float64_of_int z = (q + 1) * unit -> unit <= 2 * (z mod unit)).
Proof.
  intros Hz. cbv zeta.
  assert (H53 : 0 < 2 ^ 53) by (apply Z.pow_pos_nonneg; lia).
  assert (Hpos : 0 < z) by lia.
  assert (Hlog : 53 <= Z.log2 z).
  { apply Z.log2_le_pow2; [assumption|lia]. }
  destruct (Z.log2_spec z Hpos) as [Hlo Hhi].
  set (e := Z.log2 z) in *. set (unit := 2 ^ (e - 52)).
  assert (Hu : 0 < unit) by (apply Z.pow_pos_nonneg; lia).
  assert (Elo : 2 ^ e = 2 ^ 52 * unit).
  { unfold unit. rewrite <- Z.pow_add_r by lia. f_equal. lia. }
  assert (Ehi : 2 ^ Z.succ e = 2 ^ 53 * unit).
  { unfold unit. rewrite <- Z.pow_add_r by lia. f_equal. lia. }
  assert (Hq : 2 ^ 52 <= z / unit < 2 ^ 53).
  { split.
    - apply Z.div_le_lower_bound; [assumption|]. rewrite Z.mul_comm. lia.
    - apply Z.div_lt_upper_bound; [assumption|]. rewrite Z.mul_comm. lia. }
  refine (conj Hu (conj Hq _)).
  unfold float64_of_int. fold e. fold unit.
  destruct (Z.ltb_spec z (2 ^ 53)); [lia|].
  destruct (Z.ltb_spec unit (2 * (z mod unit))) as [Hr|Hr]; cbn [orb].
  - split; [now right|lia].
  - destruct (Z.eqb_spec (2 * (z mod unit)) unit) as [Er|Er]; cbn [andb].
    + destruct (Z.odd (z / unit)); split; auto; lia.
    + split; [left; f_equal; lia|].
      intros E. apply Z.mul_cancel_r in E; lia.
Qed.

Lemma float64_of_int_monotone (z1 z2 : Z) :
  z1 <= z2 -> float64_of_int z1 <= float64_of_int z2.
Proof.
  intros Hle.
  destruct (Z_lt_le_dec z2 (2 ^ 53)) as [H2|H2].
  { rewrite !float64_of_int_small by lia. assumption. }
  destruct (float64_of_int_large z2 H2) as (Hu2 & Hq2 & Hf2 & Hup2).
  assert (Hlow2 : 2 ^ 52 * 2 ^ (Z.log2 z2 - 52) <= float64_of_int z2).
  { assert (2 ^ 52 * 2 ^ (Z.log2 z2 - 52)
            <= z2 / 2 ^ (Z.log2 z2 - 52) * 2 ^ (Z.log2 z2 - 52))
      by (apply Z.mul_le_mono_nonneg_r; lia).
    destruct Hf2 as [-> | ->]; lia. }
  assert (Hlog2 : 53 <= Z.log2 z2) by (apply Z.log2_le_pow2; lia).
  assert (E2 : 2 ^ 52 * 2 ^ (Z.log2 z2 - 52) = 2 ^ Z.log2 z2).
  { rewrite <- Z.pow_add_r by lia. f_equal. lia. }
  destruct (Z_lt_le_dec z1 (2 ^ 53)) as [H1|H1].
  { rewrite (float64_of_int_small z1) by assumption.
    assert (2 ^ 53 <= 2 ^ Z.log2 z2) by (apply Z.pow_le_mono_r; lia).
    lia. }
  destruct (float64_of_int_large z1 H1) as (Hu1 & Hq1 & Hf1 & Hup1).
  assert (Hlog1 : 53 <= Z.log2 z1) by (apply Z.log2_le_pow2; lia).
  assert (Hhigh1 : float64_of_int z1 <= 2 ^ 53 * 2 ^ (Z.log2 z1 - 52)).
  { assert ((z1 / 2 ^ (Z.log2 z1 - 52) + 1) * 2 ^ (Z.log2 z1 - 52)
            <= 2 ^ 53 * 2 ^ (Z.log2 z1 - 52))
      by (apply Z.mul_le_mono_nonneg_r; lia).
    destruct Hf1 as [-> | ->]; lia. }
  assert (Hmono : Z.log2 z1 <= Z.log2 z2) by (apply Z.log2_le_mono; lia).
  destruct (Z_lt_le_dec (Z.log2 z1) (Z.log2 z2)) as [Hlt|Hge].
  - assert (E1 : 2 ^ 53 * 2 ^ (Z.log2 z1 - 52) = 2 ^ (Z.log2 z1 + 1)).
    { rewrite <- Z.pow_add_r by lia. f_equal. lia. }
    assert (2 ^ (Z.log2 z1 + 1) <= 2 ^ Z.log2 z2)
      by (apply Z.pow_le_mono_r; lia).
    lia.
  - assert (Elog : Z.log2 z1 = Z.log2 z2) by lia.
    rewrite Elog in *. set (unit := 2 ^ (Z.log2 z2 - 52)) in *.
    assert (Hq : z1 / unit <= z2 / unit) by (apply Z.div_le_mono; lia).
    pose proof (Z.div_mod z1 unit ltac:(lia)) as D1.
    pose proof (Z.div_mod z2 unit ltac:(lia)) as D2.
    pose proof (Z.mod_pos_bound z1 unit Hu2) as B1.
    pose proof (Z.mod_pos_bound z2 unit Hu2) as B2.
    destruct (Z_lt_le_dec (z1 / unit) (z2 / unit)) as [Hqlt|Hqge].
    + assert ((z1 / unit + 1) * unit <= z2 / unit * unit)
        by (apply Z.mul_le_mono_nonneg_r; lia).
      destruct Hf1 as [-> | ->], Hf2 as [-> | ->]; lia.
    + assert (Eq : z1 / unit = z2 / unit) by lia.
      assert (Hr : z1 mod unit <= z2 mod unit) by (rewrite Eq in D1; lia).
      destruct (Z.eq_dec (z1 mod unit) (z2 mod unit)) as [Er|Er].
      * assert (z1 = z2) by (rewrite Eq, Er in D1; lia). subst z1. lia.
      * destruct Hf1 as [E1 | E1]; rewrite E1.
        -- rewrite Eq. destruct Hf2 as [-> | ->]; lia.
        -- specialize (Hup1 E1). rewrite Eq.
           assert (Hup : float64_of_int z2 = (z2 / unit + 1) * unit).
           { unfold float64_of_int. fold unit.
             destruct (Z.ltb_spec z2 (2 ^ 53)); [lia|].
             destruct (Z.ltb_spec unit (2 * (z2 mod unit))); [|lia].
             reflexivity. }
           rewrite Hup. lia.
Qed.

Lemma series_value_monotone (float64 : bool) (a b : sort_value) :
  sort_value_lt (series_value float64 a) (series_value float64 b) = true ->
  sort_value_lt a b = true.
Proof.
  unfold series_value. destruct float64; [|auto].
  destruct a as [x|], b as [y|]; cbn; try congruence.
  rewrite !Z.ltb_lt. intros H.
  destruct (Z_lt_le_dec x y) as [|Hyx]; [assumption|].
  pose proof (float64_of_int_monotone y x Hyx). lia.
Qed.

(** The rounding agrees with the IEEE 754 arithmetic of the Standard
    Library: on small integers, at the first integers that are no doubles,
    on ties to both sides, and at the end of the 64-bit range. *)
Example float64_of_int_binary64 :
  Forall (fun z => float64_of_int z = binary64_of_int z)
         [0; 1; 2 ^ 32; 2 ^ 53 - 1; 2 ^ 53; 2 ^ 53 + 1; 2 ^ 53 + 2;
          2 ^ 53 + 3; 2 ^ 54 + 1; 2 ^ 54 + 2; 2 ^ 54 + 3; 2 ^ 54 + 5;
          2 ^ 54 + 6; 2 ^ 54 + 7; 2 ^ 60 + 127; 2 ^ 60 + 128; 2 ^ 60 + 129;
          2 ^ 60 + 384; 2 ^ 63; 2 ^ 64 - 1025; 2 ^ 64 - 1024; 2 ^ 64 - 1;
          12345678901234567890].
Proof. repeat constructor. Qed.

Example float64_of_int_examples :
  float64_of_int (2 ^ 53 + 1) = 2 ^ 53
  /\ float64_of_int (2 ^ 53 + 2) = 2 ^ 53 + 2
  /\ float64_of_int (2 ^ 53 + 3) = 2 ^ 53 + 4
  /\ float64_of_int (2 ^ 64 - 1) = 2 ^ 64.
Proof. repeat split; vm_compute; reflexivity. Qed.

Lemma exact_keys_held (l : list Row) :
  exact_keys l = true ->
  forall r, In r l -> held_key l r = address_number r.
Proof.
  unfold exact_keys, held_key, ip_sort, address_number, series_value.
  intros H r Hr. destruct (as_float64 (mapped_keys l)); [|reflexivity].
  cbn [negb orb] in H. rewrite forallb_forall in H.
  assert (Hk : below_2_53 (ip_key (Address r)) = true).
  { apply H. unfold mapped_keys. apply in_map_iff. now exists r. }
  destruct (ip_key (Address r)) as [z|]; [|reflexivity].
  f_equal. apply float64_of_int_small. now apply Z.ltb_lt.
Qed.

(** ** The order of the result *)

(** X24: with the three columns present the normalizer rearranges the
    rows, keeps the columns, leaves the rows in ascending order of (1) the
    key of the address as the [_ip_sort] column holds it, (2) the prefix
    length, (3) the status name, and keeps rows tied on all three in their
    input order.  The key held is infinite exactly for a row whose address
    does not parse, such rows come after all others, and a row whose key is
    smaller than that of another has the smaller address number. *)
Theorem normalizer_sorts_held_keys (df : DataFrame) :
  has_column "Address" df = true ->
  has_column "CIDR Prefix" df = true ->
  has_column "Status" df = true ->
  exists out,
    sort_ipam_dataframe df = Ok out
    /\ columns out = columns df
    /\ Permutation (rows df) (rows out)
    /\ StronglySorted (row_le (held_key (rows df))) (rows out)
    /\ (forall r, filter (row_tied (held_key (rows df)) r) (rows out)
                  = filter (row_tied (held_key (rows df)) r) (rows df))
    /\ (forall r, held_key (rows df) r = Infinity
                  <-> address_number r = Infinity)
    /\ (forall a b,
           sort_value_lt (held_key (rows df) a) (held_key (rows df) b) = true ->
           sort_value_lt (address_number a) (address_number b) = true)
    /\ (forall l1 a l2,
           rows out = l1 ++ a :: l2 ->
           address_number a = Infinity ->
           Forall (fun b => address_number b = Infinity) l2).
Proof.
  intros Ha Hc Hs. rewrite (sort_ipam_dataframe_rows df Ha Hc Hs).
  destruct (normalizer_rows (as_float64 (mapped_keys (rows df))) (rows df))
    as (Hperm & Hsorted & Hties).
  eexists. split; [reflexivity|]. cbn [columns rows].
  refine (conj eq_refl (conj Hperm (conj Hsorted (conj Hties
            (conj _ (conj _ _)))))).
  - intros r. apply series_value_infinity.
  - intros a b. apply series_value_monotone.
  - intros l1 a l2 E Hinf. rewrite E in Hsorted.
    apply StronglySorted_after in Hsorted.
    eapply Forall_impl; [|exact Hsorted]. cbn beta. intros b [Hle _].
    apply (series_value_infinity (as_float64 (mapped_keys (rows df)))).
    apply (series_value_infinity (as_float64 (mapped_keys (rows df))))
      in Hinf.
    unfold held_key, ip_sort in Hle. unfold address_number in *.
    rewrite Hinf in Hle.
    destruct (series_value _ (ip_key (Address b))); [discriminate|].
    reflexivity.
Qed.

Lemma normalizer_sorts_held_keys_witness :
  exists out,
    sort_ipam_dataframe rounded_frame = Ok out
    /\ columns out = columns rounded_frame
    /\ Permutation (rows rounded_frame) (rows out)
    /\ StronglySorted (row_le (held_key (rows rounded_frame))) (rows out)
    /\ (forall r, filter (row_tied (held_key (rows rounded_frame)) r)
                         (rows out)
                  = filter (row_tied (held_key (rows rounded_frame)) r)
                           (rows rounded_frame))
    /\ (forall r, held_key (rows rounded_frame) r = Infinity
                  <-> address_number r = Infinity)
    /\ (forall a b,
           sort_value_lt (held_key (rows rounded_frame) a)
                         (held_key (rows rounded_frame) b) = true ->
           sort_value_lt (address_number a) (address_number b) = true)
    /\ (forall l1 a l2,
           rows out = l1 ++ a :: l2 ->
           address_number a = Infinity ->
           Forall (fun b => address_number b = Infinity) l2).
Proof.
  apply normalizer_sorts_held_keys; vm_compute; reflexivity.
Defined.

(** X25: when the [_ip_sort] column holds every address number as it is,
    because no address fails to parse, or some number is [2^64] or more,
    or every number is below [2^53] as for all IPv4 addresses, the rows
    come out in ascending order of (1) the number of the address, with the
    infinite key of a row whose address does not parse after every number,
    (2) the prefix length, (3) the status name, and rows tied on all three
    keep their input order. *)
Theorem normalizer_exact_keys (df : DataFrame) :
  has_column "Address" df = true ->
  has_column "CIDR Prefix" df = true ->
  has_column "Status" df = true ->
  exact_keys (rows df) = true ->
  exists out,
    sort_ipam_dataframe df = Ok out
    /\ columns out = columns df
    /\ Permutation (rows df) (rows out)
    /\ StronglySorted (row_le address_number) (rows out)
    /\ (forall r, filter (row_tied address_number r) (rows out)
                  = filter (row_tied address_number r) (rows df))
    /\ (forall r, Address r = AddressNA -> address_number r = Infinity)
    /\ (forall l1 a l2,
           rows out = l1 ++ a :: l2 ->
           address_number a = Infinity ->
           Forall (fun b => address_number b = Infinity) l2).
Proof.
  intros Ha Hc Hs Hexact. rewrite (sort_ipam_dataframe_rows df Ha Hc Hs).
  assert (Hmap : map (with_ip_sort (as_float64 (mapped_keys (rows df))))
                     (rows df)
                 = map (with_ip_sort false) (rows df)).
  { apply map_ext_in. intros r Hr. unfold with_ip_sort. f_equal.
    apply (exact_keys_held _ Hexact r Hr). }
  rewrite Hmap.
  destruct (normalizer_rows false (rows df)) as (Hperm & Hsorted & Hties).
  change (ip_sort false) with address_number in Hsorted, Hties.
  eexists. split; [reflexivity|]. cbn [columns rows].
  refine (conj eq_refl (conj Hperm (conj Hsorted (conj Hties
            (conj _ _))))).
  - intros r E. unfold address_number. now rewrite E.
  - intros l1 a l2 E Hinf. rewrite E in Hsorted.
    apply StronglySorted_after in Hsorted.
    eapply Forall_impl; [|exact Hsorted]. cbn beta. intros b [Hle _].
    rewrite Hinf in Hle. destruct (address_number b); [discriminate|].
    reflexivity.
Qed.

Lemma normalizer_exact_keys_witness :
  exists out,
    sort_ipam_dataframe example_frame = Ok out
    /\ columns out = columns example_frame
    /\ Permutation (rows example_frame) (rows out)
    /\ StronglySorted (row_le address_number) (rows out)
    /\ (forall r, filter (row_tied address_number r) (rows out)
                  = filter (row_tied address_number r) (rows example_frame))
    /\ (forall r, Address r = AddressNA -> address_number r = Infinity)
    /\ (forall l1 a l2,
           rows out = l1 ++ a :: l2 ->
           address_number a = Infinity ->
           Forall (fun b => address_number b = Infinity) l2).
Proof.
  apply normalizer_exact_keys; vm_compute; reflexivity.
Defined.

Example normalizer_example :
  sort_ipam_dataframe example_frame
  = Ok (mkDataFrame sheet_columns
          [used_row IPv4 (network_address (ipv4 10 0 0 0 24)) 24 "vnet-scope";
           used_row IPv4 (network_address (ipv4 10 0 0 0 24)) 26 "frontend";
           used_row IPv4 (network_address (ipv4 10 0 0 0 24)) 26 "duplicate";
           used_row IPv4 (network_address (ipv4 10 0 0 64 26)) 26 "backend";
           no_address_row "empty"]).
Proof. vm_compute. reflexivity. Qed.

(** C6: the rows of the range [::20:0:0:0/126] with a row without address
    come back with the row of the address [2^53 + 1] before the row of the
    address [2^53]: in the column of doubles the two addresses are the same
    number, and the status name decides.  The result is not in the order of
    the numbers of the addresses. *)
Theorem normalizer_rounds_address_keys :
  sort_ipam_dataframe rounded_frame
  = Ok (mkDataFrame sheet_columns
          [unused_row IPv6 (2 ^ 53 + 1) 128;
           used_row IPv6 (2 ^ 53) 128 "gateway";
           unused_row IPv6 (2 ^ 53 + 2) 127;
           no_address_row "pending"])
  /\ address_number (unused_row IPv6 (2 ^ 53 + 1) 128) = Finite (2 ^ 53 + 1)
  /\ address_number (used_row IPv6 (2 ^ 53) 128 "gateway") = Finite (2 ^ 53)
  /\ ~ StronglySorted (row_le address_number)
                      [unused_row IPv6 (2 ^ 53 + 1) 128;
                       used_row IPv6 (2 ^ 53) 128 "gateway";
                       unused_row IPv6 (2 ^ 53 + 2) 127;
                       no_address_row "pending"].
Proof.
  assert (E : sort_ipam_dataframe rounded_frame
              = Ok (mkDataFrame sheet_columns
                      [unused_row IPv6 (2 ^ 53 + 1) 128;
                       used_row IPv6 (2 ^ 53) 128 "gateway";
                       unused_row IPv6 (2 ^ 53 + 2) 127;
                       no_address_row "pending"]))
    by (vm_compute; reflexivity).
  refine (conj E (conj _ (conj _ _))); try (vm_compute; reflexivity).
  intros Hs. apply StronglySorted_inv in Hs as [_ Hs].
  apply Forall_inv in Hs. destruct Hs as [Hs _].
  vm_compute in Hs. discriminate.
Qed.

(** ** Two orders of the same rows *)





(** X26: for a row set, a frame with the Address column, in which no two
    different rows tie on all three sort keys, the normalizer returns the
    same ordered frame in whatever order the rows are given. *)
Theorem normalizer_untied_rows_any_order (df1 df2 : DataFrame) :
  has_column "Address" df1 = true ->
  columns df1 = columns df2 ->
  Permutation (rows df1) (rows df2) ->
  (forall a b, In a (rows df1) -> In b (rows df1) ->
               row_tied (held_key (rows df1)) a b = true -> a = b) ->
  sort_ipam_dataframe df1 = sort_ipam_dataframe df2.
Proof.
  intros Ha Hcols Hperm Hties. unfold sort_ipam_dataframe.
  unfold has_column in *. rewrite <- Hcols, Ha.
  destruct (existsb (String.eqb "CIDR Prefix") (columns df1)
            && existsb (String.eqb "Status") (columns df1));
    [|reflexivity].
  rewrite <- (as_float64_permutation _ _ Hperm).
  set (float64 := as_float64 (mapped_keys (rows df1))).
  destruct (normalizer_rows float64 (rows df1)) as (Hp1 & Hs1 & _).
  destruct (normalizer_rows float64 (rows df2)) as (Hp2 & Hs2 & _).
  f_equal. f_equal.
  apply (sorted_arrangement_unique (row_le (ip_sort float64)));
    [|assumption|assumption|].
  - rewrite <- Hp1, <- Hp2. assumption.
  - intros a b Hin_a Hin_b Hab Hba.
    apply Hties.
    + eapply Permutation_in; [apply Permutation_sym, Hp1|assumption].
    + eapply Permutation_in; [apply Permutation_sym, Hp1|assumption].
    + now apply row_le_antisym.
Qed.

Lemma normalizer_untied_rows_any_order_witness :
  sort_ipam_dataframe distinct_frame
  = sort_ipam_dataframe distinct_frame_shuffled.
Proof.
  apply normalizer_untied_rows_any_order.
  - vm_compute. reflexivity.
  - reflexivity.
  - simpl. apply Permutation_cons_append.
  - simpl. intros a b Ha Hb.
    destruct Ha as [<-|[<-|[<-|[]]]], Hb as [<-|[<-|[<-|[]]]];
      vm_compute; intros H; first [reflexivity|discriminate H].
Defined.

(* ================================================================= *)
(** * Further properties of the exclusion engine *)

(** ** Blocks of one family are nested or apart *)

Lemma laminar_smaller (a b : network) :
  valid a -> valid b -> version a = version b ->
  prefixlen b <= prefixlen a ->
  disjoint a b \/ within a b.
Proof.
  intros Ha Hb Ev Hp.
  set (m := 2 ^ (prefixlen a - prefixlen b)).
  assert (Hm : block_size b = m * block_size a).
  { assert (prefixlen a <= max_prefixlen (version b))
      by (rewrite <- Ev; apply Ha).
    unfold m, block_size. rewrite Ev, <- Z.pow_add_r by lia. f_equal. lia. }
  pose proof Ha as (Hpa & Haa & Hma). pose proof Hb as (Hpb & Hab & Hmb).
  assert (Hsa : 0 < block_size a) by (apply block_size_pos; lia).
  assert (Hsb : 0 < block_size b) by (apply block_size_pos; lia).
  apply Z.mod_divide in Hma; [|lia]. destruct Hma as [qa Hqa].
  apply Z.mod_divide in Hmb; [|lia]. destruct Hmb as [qb Hqb].
  destruct (Z_lt_le_dec (network_address a) (network_address b)) as [Hlo|Hlo].
  - left.
    assert (Hk : qa * block_size a < (qb * m) * block_size a)
      by (rewrite <- Z.mul_assoc, <- Hm; lia).
    apply aligned_no_straddle in Hk; [|assumption].
    rewrite <- Z.mul_assoc, <- Hm in Hk. block_arith.
  - destruct (Z_lt_le_dec (network_address a)
                          (network_address b + block_size b)) as [Hhi|Hhi].
    + right.
      assert (Hk : qa * block_size a < ((qb + 1) * m) * block_size a)
        by (rewrite <- Z.mul_assoc, <- Hm; lia).
      apply aligned_no_straddle in Hk; [|assumption].
      rewrite <- Z.mul_assoc, <- Hm in Hk. block_arith.
    + left. block_arith.
Qed.

Lemma laminar (a b : network) :
  valid a -> valid b -> version a = version b ->
  disjoint a b \/ within a b \/ within b a.
Proof.
  intros Ha Hb Ev.
  destruct (Z_le_gt_dec (prefixlen b) (prefixlen a)) as [H|H].
  - destruct (laminar_smaller a b Ha Hb Ev H); auto.
  - destruct (laminar_smaller b a Hb Ha (eq_sym Ev)); [lia| |];
      auto using disjoint_sym.
Qed.

(** A block that comes earlier in the sort order is not properly inside a
    later one. *)
Lemma earlier_not_inside (d u : network) :
  valid d -> valid u -> version d = version u ->
  block_lt u d = false -> within d u -> d = u.
Proof.
  intros Hd Hu Ev Hord Hw.
  pose proof (within_prefixlen d u Hd Hu Ev Hw) as Hp.
  apply within_equal_prefixlen; try assumption.
  unfold block_lt in Hord.
  destruct (Z.eqb_spec (network_address u) (network_address d)) as [E|E].
  - apply Z.ltb_ge in Hord. lia.
  - apply Z.ltb_ge in Hord. exfalso. block_arith.
Qed.

Lemma earlier_apart_or_around (d u : network) :
  valid d -> valid u -> version d = version u ->
  block_lt u d = false -> disjoint d u \/ within u d.
Proof.
  intros Hd Hu Ev Hord.
  destruct (laminar d u Hd Hu Ev) as [H|[H|H]]; auto.
  right. rewrite (earlier_not_inside d u Hd Hu Ev Hord H).
  apply within_refl.
Qed.

(** ** The shape of what [address_exclude] yields *)

Lemma exclude_loop_cases (bound : nat) (c o : network) :
  valid c -> valid o -> version o = version c -> within o c -> o <> c ->
  prefixlen o - prefixlen c - 1 <= Z.of_nat bound ->
  (o = lower_half c /\ exclude_loop bound c o = Ok [upper_half c])
  \/ (o = upper_half c /\ exclude_loop bound c o = Ok [lower_half c])
  \/ exists bound',
      bound = S bound' /\ o <> lower_half c /\ o <> upper_half c
      /\ ((within o (lower_half c)
           /\ exclude_loop bound c o
              = bind (exclude_loop bound' (lower_half c) o)
                     (fun rest => Ok (upper_half c :: rest)))
          \/ (within o (upper_half c)
              /\ exclude_loop bound c o
                 = bind (exclude_loop bound' (upper_half c) o)
                        (fun rest => Ok (lower_half c :: rest)))).
Proof.
  intros Hc Ho Ev Hw Hne Hb.
  destruct (within_half o c Ho Hc Ev Hw Hne) as [Hlt Hhalf].
  assert (Hpc : prefixlen c < max_prefixlen (version c))
    by (destruct Ho as ((_ & H) & _); rewrite Ev in H; lia).
  pose proof (lower_half_valid c Hc Hpc) as Hl.
  pose proof (upper_half_valid c Hc Hpc) as Hu.
  destruct (half_fields c) as (Evl & Evu & Epl & Epu & _ & _).
  destruct (network_eq (lower_half c) o) eqn:E1.
  { apply network_eq_valid in E1; [|assumption..]. left. split; [auto|].
    destruct bound; cbn [exclude_loop]; rewrite subnets_halves by assumption;
      cbn [bind unpack2]; rewrite <- E1, network_eq_refl; reflexivity. }
  destruct (network_eq (upper_half c) o) eqn:E2.
  { apply network_eq_valid in E2; [|assumption..]. right; left.
    split; [auto|].
    destruct bound; cbn [exclude_loop]; rewrite subnets_halves by assumption;
      cbn [bind unpack2]; rewrite E1, <- E2, network_eq_refl; reflexivity. }
  right; right.
  pose proof (network_eq_false _ _ Hl Ho E1) as N1.
  pose proof (network_eq_false _ _ Hu Ho E2) as N2.
  assert (Hdeep : prefixlen c + 1 < prefixlen o).
  { destruct Hhalf as [Hh|Hh].
    - destruct (within_half o (lower_half c)) as [H _];
        try congruence; auto; lia.
    - destruct (within_half o (upper_half c)) as [H _];
        try congruence; auto; lia. }
  destruct bound as [|bound']; [lia|]. exists bound'.
  split; [reflexivity|]. split; [congruence|]. split; [congruence|].
  cbn [exclude_loop]. rewrite subnets_halves by assumption.
  cbn [bind unpack2]. rewrite E1, E2. cbn [negb andb].
  rewrite subnet_of_family by congruence.
  destruct ((network_address (lower_half c) <=? network_address o)
            && (broadcast_address o <=? broadcast_address (lower_half c)))
    eqn:Ein; cbn [bind].
  - left. split; [|reflexivity].
    apply andb_prop in Ein as [H1 H2]. apply Z.leb_le in H1, H2.
    split; assumption.
  - right.
    assert (Hin : within o (upper_half c)).
    { destruct Hhalf as [[H1 H2]|H]; [|assumption].
      apply Z.leb_le in H1, H2. rewrite H1, H2 in Ein. discriminate. }
    split; [assumption|].
    assert (Es : subnet_of o (upper_half c) = Ok true)
      by (apply subnet_of_true; split; [congruence|assumption]).
    rewrite Es. reflexivity.
Qed.

Lemma within_half_apart (b c o : network) :
  valid b -> valid c -> valid o -> version b = version c ->
  within b c -> within o c -> disjoint b o ->
  within b (lower_half c) \/ within b (upper_half c).
Proof.
  intros Hb Hc Ho Ev Hbc Hoc Hbo.
  apply (within_half b c Hb Hc Ev Hbc).
  intros ->. apply (disjoint_not_within o c Ho Hc); auto using disjoint_sym.
Qed.

(** Every block inside [c] and apart from [o] is inside one of the pieces,
    and the pieces have the prefix lengths from that of [c] plus one up to
    that of [o], in this order. *)
Lemma exclude_loop_pieces (bound : nat) :
  forall (c o : network) (l : list network),
    valid c -> valid o -> version o = version c -> within o c -> o <> c ->
    prefixlen o - prefixlen c - 1 <= Z.of_nat bound ->
    exclude_loop bound c o = Ok l ->
    map prefixlen l
    = map (fun i => prefixlen c + Z.of_nat i)
          (seq 1 (Z.to_nat (prefixlen o - prefixlen c)))
    /\ forall b, valid b -> version b = version c -> within b c ->
                 disjoint b o -> Exists (fun p => within b p) l.
Proof.
  induction bound as [|bound IH]; intros c o l Hc Ho Ev Hw Hne Hb El;
    destruct (within_half o c Ho Hc Ev Hw Hne) as [Hlt _];
    assert (Hpc : prefixlen c < max_prefixlen (version c))
      by (destruct Ho as ((_ & H) & _); rewrite Ev in H; lia);
    pose proof (lower_half_valid c Hc Hpc) as Hl;
    pose proof (upper_half_valid c Hc Hpc) as Hu;
    destruct (halves_tile c Hc Hpc) as (Hlc & Huc & Hlu & _);
    destruct (half_fields c) as (Evl & Evu & Epl & Epu & _ & _);
    assert (Hsplit : forall b, valid b -> version b = version c ->
                               within b c -> disjoint b o ->
                               within b (lower_half c)
                               \/ within b (upper_half c))
      by (intros b Hvb Evb Hbc Hbo;
          now apply within_half_apart with (o := o));
    destruct (exclude_loop_cases _ c o Hc Ho Ev Hw Hne Hb)
      as [[Eo E]|[[Eo E]|(bound' & Eb & N1 & N2 & Hrec)]];
    try (rewrite E in El; injection El as <-; split;
         [ rewrite Eo; cbn [map prefixlen lower_half upper_half];
           replace (prefixlen c + 1 - prefixlen c) with 1 by lia;
           reflexivity
         | intros b Hvb Evb Hbc Hbo;
           destruct (Hsplit b Hvb Evb Hbc Hbo) as [Hin|Hin];
           [ try (now constructor);
             exfalso; apply (disjoint_not_within b o Hvb Ho Hbo); congruence
           | try (now constructor);
             exfalso; apply (disjoint_not_within b o Hvb Ho Hbo);
             congruence ] ]).
  - discriminate.
  - injection Eb as <-.
    assert (Hstep : forall s t : network,
               valid s -> version s = version c ->
               prefixlen s = prefixlen c + 1 -> within o s -> o <> s ->
               (forall b, valid b -> version b = version c ->
                          within b c -> disjoint b o ->
                          within b s \/ within b t) ->
               exclude_loop (S bound) c o
               = bind (exclude_loop bound s o) (fun rest => Ok (t :: rest)) ->
               prefixlen t = prefixlen c + 1 ->
               map prefixlen l
               = map (fun i => prefixlen c + Z.of_nat i)
                     (seq 1 (Z.to_nat (prefixlen o - prefixlen c)))
               /\ forall b, valid b -> version b = version c -> within b c ->
                            disjoint b o -> Exists (fun p => within b p) l).
    { intros s t Hs Evs Eps Hos Nos Hst E Ept. rewrite E in El.
      destruct (exclude_loop bound s o) as [l'|] eqn:El'; cbn [bind] in El;
        [|discriminate].
      injection El as <-.
      destruct (within_half o s Ho Hs) as [Hlt' _]; try congruence; auto.
      destruct (IH s o l' Hs Ho) as [Hmap Hmax]; try congruence; auto;
        try lia.
      split.
      - cbn [map]. rewrite Hmap, Ept, Eps.
        replace (Z.to_nat (prefixlen o - prefixlen c))
          with (S (Z.to_nat (prefixlen o - (prefixlen c + 1)))) by lia.
        cbn [seq map]. f_equal; try lia.
        rewrite <- (seq_shift _ 1), map_map. apply map_ext. intros i. lia.
      - intros b Hvb Evb Hbc Hbo.
        destruct (Hst b Hvb Evb Hbc Hbo) as [Hin|Hin].
        + right. apply Hmax; auto. congruence.
        + now left. }
    destruct Hrec as [[Hos E]|[Hos E]].
    + apply (Hstep (lower_half c) (upper_half c)); auto.
    + apply (Hstep (upper_half c) (lower_half c)); auto.
      intros b Hvb Evb Hbc Hbo.
      destruct (Hsplit b Hvb Evb Hbc Hbo); auto.
Qed.

Lemma address_exclude_strict (c o : network) :
  valid c -> valid o -> version o = version c -> within o c -> o <> c ->
  address_exclude c o
  = exclude_loop (Z.to_nat (max_prefixlen (version c) - prefixlen c)) c o.
Proof.
  intros Hc Ho Ev Hw Hne. unfold address_exclude.
  rewrite Ev, version_eqb_refl. cbn [negb].
  assert (Es : subnet_of o c = Ok true) by (apply subnet_of_true; auto).
  rewrite Es. cbn [bind negb].
  destruct (network_eq o c) eqn:E.
  { apply network_eq_valid in E; [contradiction|assumption..]. }
  assert (Em : make_network (version c) (network_address o) (prefixlen o)
               = Ok o).
  { apply make_network_valid. split; [|assumption].
    destruct o; cbn in *; congruence. }
  rewrite Em. reflexivity.
Qed.

Lemma pieces_maximal (u a b : network) :
  valid a -> valid u -> version u = version a -> within u a ->
  valid b -> version b = version a -> within b a -> disjoint b u ->
  Exists (fun p => within b p) (pieces u a).
Proof.
  intros Ha Hu Ev Hw Hb Evb Hba Hbu.
  destruct (pieces_inside u a Ha Hu Ev Hw) as (_ & E & _).
  assert (Hne : u <> a).
  { intros ->. apply (disjoint_not_within b a Hb Ha); assumption. }
  rewrite address_exclude_strict in E by assumption.
  eapply exclude_loop_pieces in E; try eassumption.
  - now apply E.
  - destruct Hu as ((_ & H) & _). rewrite Ev in H. lia.
Qed.

Lemma carve_one_maximal (u : network) (available : list network)
      (b : network) :
  valid u ->
  Forall (fun a => valid a /\ version a = version u) available ->
  valid b -> version b = version u -> disjoint b u ->
  Exists (fun a => within b a) available ->
  Exists (fun a => within b a) (carve_one u available).
Proof.
  intros Hu Hav Hb Evb Hbu Hex.
  apply Exists_exists in Hex as (a & Ha & Hba).
  rewrite Forall_forall in Hav. destruct (Hav a Ha) as [Hva Ev].
  assert (Hp : Exists (fun p => within b p) (pieces u a)).
  { destruct (within_dec u a) as [Hw|Hw].
    - apply pieces_maximal; auto; congruence.
    - destruct (pieces_outside u a (eq_sym Ev) Hw) as (_ & ->).
      now constructor. }
  apply Exists_exists in Hp as (p & Hp & Hbp).
  apply Exists_exists. exists p. split; [|assumption].
  unfold carve_one. apply in_flat_map. eauto.
Qed.

(** ** Occupied blocks that overlap, repeat or lie outside the parent *)

Lemma complement_start (p : network) : valid p -> complement_of p [p] [].
Proof.
  intros Hp. unfold complement_of.
  refine (conj (parent_working_set p Hp) (conj _ (conj _ (conj _
            (conj _ _))))).
  - constructor; constructor.
  - constructor.
  - constructor; constructor.
  - intros x Hx. left. now constructor.
  - intros b _ _ Hb _. now constructor.
Qed.

Lemma complement_family (p u : network) (available done : list network) :
  complement_of p available done -> version u = version p ->
  Forall (fun a => valid a /\ version a = version u) available.
Proof.
  intros (Hav & _) Ev. eapply Forall_impl; [|exact Hav]. cbn.
  intros a (Ha & Eva & _). split; congruence.
Qed.

(** A block that is not inside the parent is skipped. *)
Lemma complement_outside (p u : network) (available done : list network) :
  complement_of p available done -> version u = version p ->
  ~ within u p -> carve_one u available = available.
Proof.
  intros (Hav & _) Ev Hout. apply carve_one_skip.
  eapply Forall_impl; [|exact Hav]. cbn. intros a (_ & Eva & Hap).
  split; [congruence|]. intros H. apply Hout.
  eapply within_trans; eassumption.
Qed.

(** A block inside a block excluded before is skipped. *)
Lemma complement_covered (p u d : network) (available done : list network) :
  complement_of p available done ->
  valid u -> version u = version p -> In d done -> within u d ->
  carve_one u available = available
  /\ complement_of p available (u :: done).
Proof.
  intros Hcomp Hu Ev Hd Hud.
  pose proof Hcomp as (Hav & Hpw & Hdv & Hsep & Hcov & Hmax).
  assert (Hapart : Forall (fun a => disjoint a u) available).
  { rewrite Forall_forall in *. intros a Ha.
    destruct (Hav a Ha) as (Hva & _). specialize (Hsep a Ha).
    rewrite Forall_forall in Hsep. specialize (Hsep d Hd).
    apply disjoint_sym. eapply disjoint_within; eauto using disjoint_sym. }
  split.
  - apply carve_one_skip. rewrite Forall_forall in *. intros a Ha.
    destruct (Hav a Ha) as (Hva & Eva & _). split; [congruence|].
    apply disjoint_not_within; auto using disjoint_sym.
  - unfold complement_of.
    refine (conj Hav (conj Hpw (conj _ (conj _ (conj _ _))))).
    + constructor; auto.
    + rewrite Forall_forall in *. intros a Ha. constructor; auto.
    + intros x Hx. destruct (Hcov x Hx); [now left|right].
      now apply Exists_cons_tl.
    + intros b Hb Evb Hbp Hbd. apply Hmax; auto. now inversion Hbd.
Qed.

(** A block inside the parent and apart from the blocks excluded before is
    inside a block of the working set and is cut out of it. *)
Lemma complement_fresh (p u : network) (available done : list network) :
  complement_of p available done ->
  valid u -> version u = version p -> within u p ->
  Forall (fun d => disjoint d u) done ->
  (exists a, In a available /\ within u a)
  /\ complement_of p (carve_one u available) (u :: done).
Proof.
  intros Hcomp Hu Ev Hup Hfresh.
  pose proof (complement_family p u _ _ Hcomp Ev) as Hfam.
  destruct Hcomp as (Hav & Hpw & Hdv & Hsep & Hcov & Hmax).
  assert (Hhit : exists a, In a available /\ within u a).
  { apply Exists_exists. apply Hmax; auto.
    eapply Forall_impl; [|exact Hfresh]. cbn. intros d.
    apply disjoint_sym. }
  split; [assumption|].
  destruct (carve_one_hit u available Hu Hfam Hpw Hhit)
    as (Hnew & Hcov' & _).
  unfold complement_of.
  refine (conj _ (conj _ (conj _ (conj _ (conj _ _))))).
  - now apply carve_one_blocks.
  - now apply carve_one_pairwise.
  - constructor; auto.
  - rewrite Forall_forall in *. intros b Hb. constructor; [auto|].
    apply carve_one_origin in Hb as (Hvb & a & Ha & Hba & _);
      [|assumption|apply Forall_forall; exact Hfam].
    specialize (Hsep a Ha). rewrite Forall_forall in *.
    intros d Hd. eapply disjoint_within; eauto.
  - intros x Hx. rewrite Exists_cons.
    destruct (Hcov x Hx) as [H|H]; [|tauto].
    apply Hcov' in H. tauto.
  - intros b Hb Evb Hbp Hbd. inversion Hbd as [|? ? Hbu Hbd']; subst.
    apply carve_one_maximal; auto; try congruence.
Qed.

Lemma apart_or_covered (u : network) (done : list network) :
  Forall (fun d => disjoint d u \/ within u d) done ->
  Forall (fun d => disjoint d u) done \/ exists d, In d done /\ within u d.
Proof.
  intros H. induction H as [|d done [Hd|Hd] _ [IH|(d' & Hin & Hw)]].
  - left. constructor.
  - left. now constructor.
  - right. exists d'. split; [now right|assumption].
  - right. exists d. split; [now left|assumption].
  - right. exists d. split; [now left|assumption].
Qed.

(** The run over the sorted occupied blocks: the working set stays the
    complement of the blocks seen so far that are inside the parent. *)
Lemma complement_run (p : network) (used : list network) :
  forall available done,
    StronglySorted (fun a b => block_lt b a = false) used ->
    Forall (fun u => valid u /\ version u = version p) used ->
    Forall (fun d => Forall (fun u => block_lt u d = false) used) done ->
    complement_of p available done ->
    exists done',
      complement_of p (carve used available) done'
      /\ forall d, In d done' <-> In d done \/ (In d used /\ within d p).
Proof.
  induction used as [|u used IH]; intros available done Hs Hused Hord Hcomp;
    cbn [carve fold_left].
  { exists done. split; [assumption|]. intros d. cbn. tauto. }
  apply StronglySorted_inv in Hs as [Hs Hu_le].
  inversion Hused as [|? ? [Hu Ev] Hused']; subst.
  assert (Hord' : Forall (fun d => Forall (fun u' => block_lt u' d = false)
                                          used) done).
  { eapply Forall_impl; [|exact Hord]. cbn. intros d H. now inversion H. }
  destruct (within_dec u p) as [Hup|Hup].
  - assert (Hcase : Forall (fun d => disjoint d u \/ within u d) done).
    { destruct Hcomp as (_ & _ & Hdv & _).
      rewrite Forall_forall in *. intros d Hd.
      destruct (Hdv d Hd) as [Hvd Evd]. specialize (Hord d Hd).
      inversion Hord as [|? ? Hud _]; subst.
      apply earlier_apart_or_around; auto. congruence. }
    assert (Hcomp' : complement_of p (carve_one u available) (u :: done)).
    { destruct (apart_or_covered u done Hcase) as [Hfresh|(d & Hd & Hud)].
      - now destruct (complement_fresh p u _ _ Hcomp Hu Ev Hup Hfresh).
      - destruct (complement_covered p u d _ _ Hcomp Hu Ev Hd Hud)
          as [E H]. now rewrite E. }
    destruct (IH (carve_one u available) (u :: done)) as (done' & H & Hin);
      try assumption; [constructor; assumption|].
    exists done'. split; [assumption|]. intros d. rewrite Hin. cbn.
    split; [|intuition (subst; auto)].
    intros [[<-|H']|[H1 H2]]; auto.
  - rewrite (complement_outside p u _ _ Hcomp Ev Hup).
    destruct (IH available done) as (done' & H & Hin); try assumption.
    exists done'. split; [assumption|]. intros d. rewrite Hin. cbn.
    split; [tauto|]. intros [H'|[[<-|H1] H2]]; tauto.
Qed.

Lemma find_unused_subnets_complement (p : network) (used : list network) :
  valid p -> Forall (block_of p) used ->
  exists free done,
    find_unused_subnets p used = Ok free
    /\ complement_of p free done
    /\ forall d, In d done <-> In d used /\ within d p.
Proof.
  intros Hp Hused.
  assert (Hv : Forall valid used).
  { eapply Forall_impl; [|exact Hused]. intros u [Hu _].
    now apply ip_network_valid. }
  assert (Hf : family_of (version p) used = true).
  { apply family_of_forall. rewrite Forall_forall in Hused.
    intros n Hn. now apply Hused. }
  destruct (find_unused_subnets_family _ _ Hp Hv Hf) as [Efree _].
  destruct (complement_run p (stable_sort block_lt used) [p] [])
    as (done & Hcomp & Hin).
  - apply stable_sort_block_sorted.
  - eapply Permutation_Forall; [apply stable_sort_perm|].
    now apply family_blocks.
  - constructor.
  - now apply complement_start.
  - exists (carve (stable_sort block_lt used) [p]), done.
    split; [assumption|]. split; [assumption|].
    intros d. rewrite Hin. cbn. split.
    + intros [[]|[H1 H2]]. split; [|assumption].
      apply (Permutation_in d
               (Permutation_sym (stable_sort_perm block_lt used)) H1).
    + intros [H1 H2]. right. split; [|assumption].
      apply (Permutation_in d (stable_sort_perm block_lt used) H1).
Qed.

(** X1: for occupied blocks of the family of the parent, however they
    overlap, nest or repeat, the free blocks are pairwise disjoint, apart
    from every occupied block inside the parent, and an address of the
    parent is in a free block or in an occupied block inside the parent:
    after the sort no part of an occupied block inside the parent is left
    unexcluded. *)
Theorem overlapping_blocks_excluded (parent_cidr : network)
        (used_networks : list network) :
  ip_network parent_cidr = Ok parent_cidr ->
  Forall (block_of parent_cidr) used_networks ->
  exists free,
    find_unused_subnets parent_cidr used_networks = Ok free
    /\ pairwise_disjoint free
    /\ (forall f u, In f free -> In u used_networks ->
                    within u parent_cidr -> disjoint f u)
    /\ (forall x, covers parent_cidr x <->
                  Exists (fun f => covers f x) free
                  \/ Exists (fun u => within u parent_cidr /\ covers u x)
                            used_networks).
Proof.
  intros Hp Hused. apply ip_network_valid in Hp.
  destruct (find_unused_subnets_complement _ _ Hp Hused)
    as (free & done & Efree & (Hav & Hpw & Hdv & Hsep & Hcov & _) & Hin).
  exists free. refine (conj Efree (conj Hpw (conj _ _))).
  - intros f u Hf Hu Hup. rewrite Forall_forall in Hsep.
    specialize (Hsep f Hf). rewrite Forall_forall in Hsep.
    apply Hsep, Hin. auto.
  - intros x. split.
    + intros Hx. destruct (Hcov x Hx) as [H|H]; [now left|right].
      apply Exists_exists in H as (d & Hd & Hdx). apply Hin in Hd as [Hd Hdp].
      apply Exists_exists. eauto.
    + intros [H|H]; apply Exists_exists in H.
      * destruct H as (f & Hf & Hfx). rewrite Forall_forall in Hav.
        destruct (Hav f Hf) as (Hvf & _ & Hfp). block_arith.
      * destruct H as (u & Hu & Hup & Hux).
        rewrite Forall_forall in Hused. destruct (Hused u Hu) as [Hvu _].
        apply ip_network_valid in Hvu. block_arith.
Qed.

Lemma overlapping_blocks_excluded_witness :
  let used := [ipv4 10 0 0 0 25; ipv4 10 0 0 0 26; ipv4 10 0 0 0 26;
               ipv4 10 0 0 64 27; ipv4 10 0 0 0 16] in
  exists free,
    find_unused_subnets (ipv4 10 0 0 0 24) used = Ok free
    /\ pairwise_disjoint free
    /\ (forall f u, In f free -> In u used ->
                    within u (ipv4 10 0 0 0 24) -> disjoint f u)
    /\ (forall x, covers (ipv4 10 0 0 0 24) x <->
                  Exists (fun f => covers f x) free
                  \/ Exists (fun u => within u (ipv4 10 0 0 0 24)
                                      /\ covers u x) used).
Proof.
  cbv zeta. apply overlapping_blocks_excluded.
  - vm_compute. reflexivity.
  - repeat (constructor; [split; [vm_compute; reflexivity|reflexivity]|]).
    constructor.
Defined.

(** X2: the free blocks are maximal: every block of the parent that is
    apart from all occupied blocks inside the parent lies within one of the
    free blocks returned. *)
Theorem free_blocks_maximal (parent_cidr : network)
        (used_networks free : list network) (b : network) :
  ip_network parent_cidr = Ok parent_cidr ->
  Forall (block_of parent_cidr) used_networks ->
  find_unused_subnets parent_cidr used_networks = Ok free ->
  block_of parent_cidr b -> within b parent_cidr ->
  (forall u, In u used_networks -> within u parent_cidr -> disjoint b u) ->
  Exists (fun f => within b f) free.
Proof.
  intros Hp Hused Efree [Hb Evb] Hbp Hapart. apply ip_network_valid in Hp, Hb.
  destruct (find_unused_subnets_complement _ _ Hp Hused)
    as (free' & done & Efree' & (_ & _ & _ & _ & _ & Hmax) & Hin).
  assert (free' = free) by congruence. subst free'.
  apply Hmax; auto. apply Forall_forall. intros d Hd.
  apply Hin in Hd as [Hd Hdp]. auto.
Qed.

Lemma free_blocks_maximal_witness :
  Exists (fun f => within (ipv4 10 0 0 192 27) f)
         [ipv4 10 0 0 128 25; ipv4 10 0 0 64 26].
Proof.
  apply (free_blocks_maximal (ipv4 10 0 0 0 24) [ipv4 10 0 0 0 26]).
  - vm_compute. reflexivity.
  - repeat (constructor; [split; [vm_compute; reflexivity|reflexivity]|]).
    constructor.
  - vm_compute. reflexivity.
  - split; [vm_compute; reflexivity|reflexivity].
  - unfold within. vm_compute. split; discriminate.
  - intros u [<-|[]] _. unfold disjoint. vm_compute. right. reflexivity.
Defined.

Lemma inside_within (p u : network) :
  version u = version p -> (inside p u = true <-> within u p).
Proof.
  intros Ev. unfold inside. destruct (within_dec u p) as [H|H].
  - rewrite (proj2 (subnet_of_true u p) (conj Ev H)). tauto.
  - rewrite (proj2 (subnet_of_false u p) (conj Ev H)).
    split; [discriminate|contradiction].
Qed.

Lemma filter_permutation {A : Type} (q : A -> bool) (l l' : list A) :
  Permutation l l' -> Permutation (filter q l) (filter q l').
Proof.
  intros Hp. induction Hp as [|x l l' Hp IH|x y l|l l' l'' _ IH1 _ IH2]; cbn.
  - constructor.
  - destruct (q x); [now constructor|assumption].
  - destruct (q x), (q y); try reflexivity. apply perm_swap.
  - now rewrite IH1.
Qed.

Lemma filter_sorted {A : Type} (R : A -> A -> Prop) (q : A -> bool)
      (l : list A) :
  StronglySorted R l -> StronglySorted R (filter q l).
Proof.
  intros Hs. induction Hs as [|x l Hs IH Hx]; cbn; [constructor|].
  destruct (q x); [|assumption]. constructor; [assumption|].
  rewrite Forall_forall in *. intros y Hy.
  apply filter_In in Hy as [Hy _]. auto.
Qed.

Lemma family_of_filter (v : ip_version) (q : network -> bool)
      (l : list network) :
  family_of v l = true -> family_of v (filter q l) = true.
Proof.
  rewrite !family_of_forall. intros H n Hn.
  apply filter_In in Hn as [Hn _]. auto.
Qed.

(** Blocks that are not inside the parent change nothing in any working
    set of blocks of the parent. *)
Lemma carve_inside (p : network) (used : list network) :
  forall available,
    Forall (fun u => valid u /\ version u = version p) used ->
    Forall (fun a => valid a /\ version a = version p /\ within a p)
           available ->
    carve used available = carve (filter (inside p) used) available.
Proof.
  induction used as [|u used IH]; intros available Hused Hav;
    [reflexivity|].
  inversion Hused as [|? ? [Hu Ev] Hused']; subst.
  cbn [filter]. destruct (inside p u) eqn:E; cbn [carve fold_left].
  - apply IH; [assumption|]. now apply carve_one_blocks.
  - rewrite carve_one_skip; [now apply IH|].
    eapply Forall_impl; [|exact Hav]. cbn. intros a (_ & Eva & Hap).
    split; [congruence|]. intros H.
    assert (Hin : inside p u = true)
      by (apply inside_within; eauto using within_trans).
    congruence.
Qed.

(** X3: occupied blocks that are not inside the parent, because they lie
    outside it or properly contain it, have no effect on the result. *)
Theorem blocks_not_inside_ignored (parent_cidr : network)
        (used_networks : list network) :
  ip_network parent_cidr = Ok parent_cidr ->
  Forall (block_of parent_cidr) used_networks ->
  find_unused_subnets parent_cidr used_networks
  = find_unused_subnets parent_cidr
                        (filter (inside parent_cidr) used_networks).
Proof.
  intros Hp Hused. apply ip_network_valid in Hp.
  assert (Hv : Forall valid used_networks).
  { eapply Forall_impl; [|exact Hused]. intros u [Hu _].
    now apply ip_network_valid. }
  assert (Hf : family_of (version parent_cidr) used_networks = true).
  { apply family_of_forall. rewrite Forall_forall in Hused.
    intros n Hn. now apply Hused. }
  destruct (find_unused_subnets_family _ _ Hp Hv Hf) as [-> _].
  destruct (find_unused_subnets_family parent_cidr
              (filter (inside parent_cidr) used_networks)) as [-> _];
    [assumption| |now apply family_of_filter|].
  { rewrite Forall_forall in *. intros u Hu.
    apply filter_In in Hu as [Hu _]. auto. }
  f_equal.
  rewrite (carve_inside parent_cidr).
  - f_equal. symmetry.
    apply stable_sort_block_unique with (v := version parent_cidr).
    + now apply family_of_filter.
    + apply filter_permutation, stable_sort_perm.
    + apply filter_sorted, stable_sort_block_sorted.
  - eapply Permutation_Forall; [apply stable_sort_perm|].
    now apply family_blocks.
  - now apply parent_working_set.
Qed.

Lemma blocks_not_inside_ignored_witness :
  find_unused_subnets (ipv4 10 0 0 0 24)
                      [ipv4 10 0 0 0 16; ipv4 10 0 0 0 26; ipv4 10 0 1 0 24]
  = find_unused_subnets (ipv4 10 0 0 0 24)
      (filter (inside (ipv4 10 0 0 0 24))
              [ipv4 10 0 0 0 16; ipv4 10 0 0 0 26; ipv4 10 0 1 0 24]).
Proof.
  apply blocks_not_inside_ignored.
  - vm_compute. reflexivity.
  - repeat (constructor; [split; [vm_compute; reflexivity|reflexivity]|]).
    constructor.
Defined.

Example containing_block_ignored :
  find_unused_subnets (ipv4 10 0 0 0 24) [ipv4 10 0 0 0 16]
  = Ok [ipv4 10 0 0 0 24].
Proof. vm_compute. reflexivity. Qed.

Lemma each_contained_run (p : network) (used : list network) :
  forall available done,
    Forall (fun u => valid u /\ version u = version p /\ within u p) used ->
    pairwise_disjoint used ->
    Forall (fun u => Forall (fun d => disjoint d u) done) used ->
    complement_of p available done ->
    each_contained used available.
Proof.
  induction used as [|u used IH]; intros available done Hused Hpw Hfresh Hcomp;
    cbn [each_contained]; [exact I|].
  inversion Hused as [|? ? (Hu & Ev & Hup) Hused']; subst.
  inversion Hfresh as [|? ? Hfu Hfresh']; subst.
  inversion Hpw as [|? ? Hu_apart Hpw']; subst.
  destruct (complement_fresh p u _ _ Hcomp Hu Ev Hup Hfu)
    as [(a & Ha & Hua) Hcomp'].
  pose proof (complement_family p u _ _ Hcomp Ev) as Hfam.
  split.
  - exists a. split; [assumption|]. apply subnet_of_true. split; [|assumption].
    rewrite Forall_forall in Hfam. destruct (Hfam a Ha). congruence.
  - exists (carve_one u available).
    split; [now apply exclude_from_available_carve|].
    apply IH with (done := u :: done); try assumption.
    rewrite Forall_forall in *. intros u' Hu'.
    constructor; [|auto]. apply Hu_apart. exact Hu'.
Qed.

(** X4: occupied blocks of the family of the parent that are inside the
    parent and pairwise disjoint are each, at their turn, inside a block of
    the working set: none of them is skipped. *)
Theorem disjoint_blocks_contained_in_turn (parent_cidr : network)
        (used_networks : list network) :
  ip_network parent_cidr = Ok parent_cidr ->
  Forall (fun u => block_of parent_cidr u /\ within u parent_cidr)
         used_networks ->
  pairwise_disjoint used_networks ->
  contained_in_turn parent_cidr used_networks.
Proof.
  intros Hp Hused Hpw. apply ip_network_valid in Hp.
  assert (Hv : Forall valid used_networks).
  { eapply Forall_impl; [|exact Hused]. intros u [[Hu _] _].
    now apply ip_network_valid. }
  assert (Hf : family_of (version parent_cidr) used_networks = true).
  { apply family_of_forall. rewrite Forall_forall in Hused.
    intros n Hn. now apply Hused. }
  exists (stable_sort block_lt used_networks).
  split; [now apply sorted_used_family with (v := version parent_cidr)|].
  apply each_contained_run with (p := parent_cidr) (done := []).
  - eapply Permutation_Forall; [apply stable_sort_perm|].
    rewrite Forall_forall in *. intros u Hu.
    destruct (Hused u Hu) as [[_ Ev] Hup]. auto.
  - eapply pairwise_permutation; [|apply stable_sort_perm|exact Hpw].
    apply disjoint_sym.
  - apply Forall_forall. intros u _. constructor.
  - now apply complement_start.
Qed.

Lemma disjoint_blocks_contained_in_turn_witness :
  contained_in_turn (ipv4 10 0 0 0 24)
                    [ipv4 10 0 0 128 25; ipv4 10 0 0 0 26].
Proof.
  apply disjoint_blocks_contained_in_turn.
  - vm_compute. reflexivity.
  - repeat (constructor;
            [split; [split; [vm_compute; reflexivity|reflexivity]
                    |unfold within; vm_compute; split; discriminate]|]).
    constructor.
  - constructor; [|constructor; constructor].
    constructor; [|constructor].
    unfold disjoint. vm_compute. right. reflexivity.
Defined.

(** X5: a single occupied block properly inside the parent leaves one free
    block of each prefix length from that of the parent plus one up to its
    own, in this order, so as many free blocks as the prefix lengths
    differ. *)
Theorem single_block_free_prefixes (parent_cidr u : network) :
  ip_network parent_cidr = Ok parent_cidr ->
  block_of parent_cidr u -> within u parent_cidr -> u <> parent_cidr ->
  exists free,
    find_unused_subnets parent_cidr [u] = Ok free
    /\ map prefixlen free
       = map (fun i => prefixlen parent_cidr + Z.of_nat i)
             (seq 1 (Z.to_nat (prefixlen u - prefixlen parent_cidr)))
    /\ List.length free = Z.to_nat (prefixlen u - prefixlen parent_cidr).
Proof.
  intros Hp [Hu Ev] Hup Hne. apply ip_network_valid in Hp, Hu.
  destruct (find_unused_subnets_family parent_cidr [u]) as [E _];
    [assumption|now constructor| |].
  { cbn. now rewrite Ev, version_eqb_refl. }
  cbn [stable_sort stable_insert carve fold_left carve_one flat_map] in E.
  rewrite app_nil_r in E. exists (pieces u parent_cidr).
  split; [assumption|].
  destruct (pieces_inside u parent_cidr Hp Hu Ev Hup) as (_ & Ex & _).
  rewrite address_exclude_strict in Ex by assumption.
  eapply exclude_loop_pieces in Ex; try eassumption.
  - destruct Ex as [Hmap _]. split; [assumption|].
    rewrite <- (List.length_map prefixlen), Hmap, List.length_map.
    apply List.length_seq.
  - destruct Hu as ((_ & H) & _). rewrite Ev in H. lia.
Qed.

Lemma single_block_free_prefixes_witness :
  exists free,
    find_unused_subnets (ipv4 10 0 0 0 24) [ipv4 10 0 0 77 32] = Ok free
    /\ map prefixlen free
       = map (fun i => prefixlen (ipv4 10 0 0 0 24) + Z.of_nat i)
             (seq 1 (Z.to_nat (prefixlen (ipv4 10 0 0 77 32)
                               - prefixlen (ipv4 10 0 0 0 24))))
    /\ List.length free = Z.to_nat (prefixlen (ipv4 10 0 0 77 32)
                               - prefixlen (ipv4 10 0 0 0 24)).
Proof.
  apply single_block_free_prefixes.
  - vm_compute. reflexivity.
  - split; [vm_compute; reflexivity|reflexivity].
  - unfold within. vm_compute. split; discriminate.
  - discriminate.
Defined.

(* ================================================================= *)
(** * Sheet helpers *)

(** ** [excel_col_letter] *)

Lemma string_app_assoc (a b c : string) :
  ((a ++ b) ++ c)%string = (a ++ (b ++ c))%string.
Proof. induction a as [|x a IH]; cbn; [reflexivity|]. now rewrite IH. Qed.

Lemma string_app_nil_r (a : string) : (a ++ EmptyString)%string = a.
Proof. induction a as [|x a IH]; cbn; [reflexivity|]. now rewrite IH. Qed.

Lemma col_value_app (a b : string) (acc : Z) :
  col_value (a ++ b) acc = col_value b (col_value a acc).
Proof. revert acc. induction a as [|x a IH]; intros acc; cbn; auto. Qed.

Lemma string_forall_app (p : ascii -> bool) (a b : string) :
  string_forall p (a ++ b) = string_forall p a && string_forall p b.
Proof.
  induction a as [|x a IH]; cbn; [reflexivity|].
  now rewrite IH, andb_assoc.
Qed.

Lemma ord_chr (n : Z) : 0 <= n < 256 -> ord (chr n) = n.
Proof.
  intros Hn. unfold ord, chr. rewrite N_ascii_embedding; lia.
Qed.

Lemma excel_col_loop_spec (bound : nat) :
  forall (idx : Z) (letters : string),
    -1 <= idx -> idx + 1 <= Z.of_nat bound ->
    exists pre,
      excel_col_loop bound idx letters = Ok (pre ++ letters)%string
      /\ col_value pre 0 = idx + 1
      /\ string_forall is_upper pre = true
      /\ (pre = EmptyString <-> idx = -1).
Proof.
  induction bound as [|bound IH]; intros idx letters Hlo Hb;
    cbn [excel_col_loop]; destruct (Z.leb_spec 0 idx) as [Hidx|Hidx];
    try lia;
    try (exists EmptyString; cbn;
         repeat split; try reflexivity; try lia; intros H; reflexivity).
  assert (Hr : 0 <= idx mod 26 < 26) by (apply Z.mod_pos_bound; lia).
  assert (Hq : 0 <= idx / 26 <= idx).
  { split; [apply Z.div_pos; lia|].
    apply Z.div_le_upper_bound; lia. }
  destruct (IH (idx / 26 - 1) (String (chr (idx mod 26 + 65)) letters))
    as (pre & E & Hval & Hup & _); try lia.
  exists (pre ++ String (chr (idx mod 26 + 65)) EmptyString)%string.
  rewrite string_app_assoc. cbn [append]. split; [exact E|].
  rewrite col_value_app, string_forall_app, Hval, Hup.
  cbn [col_value string_forall]. unfold is_upper.
  rewrite ord_chr by lia. repeat split.
  - pose proof (Z.div_mod idx 26). lia.
  - cbn [andb]. rewrite andb_true_r. apply andb_true_intro.
    split; [apply Z.leb_le|apply Z.leb_le]; lia.
  - intros H. destruct pre; discriminate.
  - lia.
Qed.

(** X6: [excel_col_letter] gives a name for every index; the name consists
    of the capital letters A to Z and is empty exactly for a negative
    index. *)
Theorem excel_col_letter_capitals (idx : Z) :
  exists s,
    excel_col_letter idx = Ok s
    /\ string_forall is_upper s = true
    /\ (s = EmptyString <-> idx < 0).
Proof.
  unfold excel_col_letter.
  destruct (Z_lt_le_dec idx 0) as [Hneg|Hpos].
  - exists EmptyString. replace (Z.to_nat (idx + 1)) with O by lia.
    cbn [excel_col_loop]. destruct (Z.leb_spec 0 idx); [lia|].
    repeat split; auto.
  - destruct (excel_col_loop_spec (Z.to_nat (idx + 1)) idx EmptyString)
      as (pre & E & _ & Hup & Hempty); try lia.
    rewrite string_app_nil_r in E. exists pre.
    split; [assumption|]. split; [assumption|].
    rewrite Hempty. lia.
Qed.

(** X7: the name of a column index, read back as a number in base 26 with
    the digits A = 1 to Z = 26, is that index. *)
Theorem excel_col_letter_round_trip (idx : Z) :
  0 <= idx ->
  exists s, excel_col_letter idx = Ok s /\ col_index s = idx.
Proof.
  intros Hidx. unfold excel_col_letter, col_index.
  destruct (excel_col_loop_spec (Z.to_nat (idx + 1)) idx EmptyString)
    as (pre & E & Hval & _); try lia.
  rewrite string_app_nil_r in E. exists pre.
  split; [assumption|]. lia.
Qed.

Lemma excel_col_letter_round_trip_witness :
  exists s, excel_col_letter 702 = Ok s /\ col_index s = 702.
Proof. apply excel_col_letter_round_trip. lia. Defined.

(** X8: two different column indexes never get the same name. *)
Theorem excel_col_letter_injective (i j : Z) :
  0 <= i -> 0 <= j -> i <> j -> excel_col_letter i <> excel_col_letter j.
Proof.
  intros Hi Hj Hne E. apply Hne.
  destruct (excel_col_loop_spec (Z.to_nat (i + 1)) i EmptyString)
    as (si & Ei & Hvi & _); try lia.
  destruct (excel_col_loop_spec (Z.to_nat (j + 1)) j EmptyString)
    as (sj & Ej & Hvj & _); try lia.
  unfold excel_col_letter in E. rewrite Ei, Ej in E.
  injection E as E. rewrite !string_app_nil_r in E. subst sj. lia.
Qed.

Lemma excel_col_letter_injective_witness :
  excel_col_letter 0 <> excel_col_letter 26.
Proof. apply excel_col_letter_injective; lia. Defined.

Example excel_col_letter_examples :
  excel_col_letter 0 = Ok "A"%string
  /\ excel_col_letter 25 = Ok "Z"%string
  /\ excel_col_letter 26 = Ok "AA"%string
  /\ excel_col_letter 701 = Ok "ZZ"%string
  /\ excel_col_letter 702 = Ok "AAA"%string.
Proof. repeat split; vm_compute; reflexivity. Qed.

(** ** [sanitize_sheet_name] *)

Lemma take_length (n : nat) (s : string) : (String.length (take n s) <= n)%nat.
Proof.
  revert s. induction n as [|n IH]; intros [|c s]; cbn; try lia.
  specialize (IH s). lia.
Qed.

Lemma take_forall (p : ascii -> bool) (n : nat) (s : string) :
  string_forall p s = true -> string_forall p (take n s) = true.
Proof.
  revert s. induction n as [|n IH]; intros [|c s]; cbn; auto.
  intros H. apply andb_prop in H as [Hc Hs]. now rewrite Hc, IH.
Qed.

Lemma take_all (n : nat) (s : string) :
  (String.length s <= n)%nat -> take n s = s.
Proof.
  revert s. induction n as [|n IH]; intros [|c s]; cbn; try lia; auto.
  intros H. rewrite IH by lia. reflexivity.
Qed.

Lemma drop_apostrophes_clean (s : string) :
  string_forall (fun c => negb (in_class c)) s = true ->
  string_forall sheet_char (drop_apostrophes s) = true.
Proof.
  induction s as [|c s IH]; cbn [string_forall drop_apostrophes];
    [reflexivity|].
  intros H. apply andb_prop in H as [Hc Hs].
  destruct (Ascii.eqb c "'"%char) eqn:E; [auto|].
  cbn [string_forall]. unfold sheet_char at 1. now rewrite Hc, E, IH.
Qed.

Lemma re_sub_class_clean (s : string) :
  string_forall (fun c => negb (in_class c)) (re_sub_class s) = true.
Proof.
  induction s as [|c s IH]; cbn [string_forall re_sub_class]; [reflexivity|].
  rewrite IH, andb_true_r. destruct (in_class c) eqn:E; [reflexivity|].
  now rewrite E.
Qed.

Lemma sheet_chars_kept (s : string) :
  string_forall sheet_char s = true ->
  re_sub_class s = s /\ drop_apostrophes s = s.
Proof.
  induction s as [|c s IH];
    cbn [string_forall re_sub_class drop_apostrophes]; [auto|].
  intros H. apply andb_prop in H as [Hc Hs]. destruct (IH Hs) as [E1 E2].
  unfold sheet_char in Hc. apply andb_prop in Hc as [Hc1 Hc2].
  apply negb_true_iff in Hc1, Hc2. rewrite Hc1, Hc2, E1, E2. auto.
Qed.

Lemma sanitize_sheet_name_legal_parts (name : string) :
  (String.length (sanitize_sheet_name name) <= 31)%nat
  /\ string_forall sheet_char (sanitize_sheet_name name) = true.
Proof.
  unfold sanitize_sheet_name. split; [apply take_length|].
  apply take_forall, drop_apostrophes_clean, re_sub_class_clean.
Qed.

(** X9: a sanitized name has at most 31 characters and holds none of the
    characters [\ / * ? : [ ]] and no apostrophe. *)
Theorem sanitize_sheet_name_legal (name : string) :
  (String.length (sanitize_sheet_name name) <= 31)%nat
  /\ string_forall sheet_char (sanitize_sheet_name name) = true.
Proof. apply sanitize_sheet_name_legal_parts. Qed.

(** X10: a name that is already legal, at most 31 characters without the
    characters above, comes back unchanged. *)
Theorem sanitize_sheet_name_fixed (name : string) :
  (String.length name <= 31)%nat ->
  string_forall sheet_char name = true ->
  sanitize_sheet_name name = name.
Proof.
  intros Hlen Hchars. unfold sanitize_sheet_name.
  destruct (sheet_chars_kept name Hchars) as [-> ->].
  now apply take_all.
Qed.

Lemma sanitize_sheet_name_fixed_witness :
  sanitize_sheet_name "10.0.0.0_24" = "10.0.0.0_24"%string.
Proof.
  apply sanitize_sheet_name_fixed; [vm_compute; lia|vm_compute; reflexivity].
Defined.

(** X11: sanitizing twice is the same as sanitizing once. *)
Theorem sanitize_sheet_name_idempotent (name : string) :
  sanitize_sheet_name (sanitize_sheet_name name) = sanitize_sheet_name name.
Proof.
  destruct (sanitize_sheet_name_legal_parts name) as [Hlen Hchars].
  unfold sanitize_sheet_name at 1.
  destruct (sheet_chars_kept _ Hchars) as [-> ->]. now apply take_all.
Qed.

Example sanitize_sheet_name_example :
  sanitize_sheet_name "2001:db8::/32 [lab's]" = "2001_db8___32 _labs_"%string.
Proof. vm_compute. reflexivity. Qed.

(** ** [reorder_columns] *)

Lemma filter_eqb_nodup (c : string) (l : list string) :
  NoDup l -> In c l -> filter (String.eqb c) l = [c].
Proof.
  intros Hnd. induction Hnd as [|x l Hx Hnd IH]; intros Hin; [destruct Hin|].
  cbn [filter]. destruct (String.eqb_spec c x) as [->|Hne].
  - f_equal. clear IH Hin. induction l as [|y l IH]; [reflexivity|].
    cbn [filter]. destruct (String.eqb_spec x y) as [->|_].
    + exfalso. apply Hx. now left.
    + apply IH; [|now inversion Hnd]. intros H. apply Hx. now right.
  - destruct Hin as [->|Hin]; [contradiction|auto].
Qed.

Lemma select_columns_labels (df : DataFrame) (cols : list string) :
  NoDup (columns df) -> (forall c, In c cols -> In c (columns df)) ->
  select_columns df cols = mkDataFrame cols (rows df).
Proof.
  intros Hnd Hin. unfold select_columns. f_equal.
  induction cols as [|c cols IH]; [reflexivity|].
  cbn [flat_map]. rewrite filter_eqb_nodup, IH; auto.
  - intros c' Hc'. apply Hin. now right.
  - apply Hin. now left.
Qed.

Lemma list_remove_nodup (x : string) (l : list string) :
  NoDup l -> In x l ->
  list_remove x l = Ok (filter (fun c => negb (String.eqb c x)) l).
Proof.
  intros Hnd. induction Hnd as [|y l Hy Hnd IH]; intros Hin; [destruct Hin|].
  cbn [list_remove filter]. destruct (String.eqb_spec y x) as [->|Hne].
  - cbn [negb]. f_equal. symmetry. apply forallb_filter_id.
    apply forallb_forall. intros c Hc.
    destruct (String.eqb_spec c x) as [->|_]; [contradiction|reflexivity].
  - destruct Hin as [->|Hin]; [contradiction|].
    rewrite IH by assumption. reflexivity.
Qed.

Lemma list_remove_subset (x : string) (l l' : list string) :
  list_remove x l = Ok l' -> forall c, In c l' -> In c l.
Proof.
  revert l'. induction l as [|y l IH]; intros l' H; cbn in H; [discriminate|].
  destruct (String.eqb y x).
  - injection H as <-. intros c Hc. now right.
  - destruct (list_remove x l) as [r|]; cbn in H; [|discriminate].
    injection H as <-. intros c [->|Hc]; [now left|right; eauto].
Qed.

Lemma list_remove_present (x : string) (l : list string) :
  In x l -> exists l', list_remove x l = Ok l'.
Proof.
  induction l as [|y l IH]; intros Hin; [destruct Hin|].
  cbn. destruct (String.eqb_spec y x) as [->|Hne]; [eauto|].
  destruct Hin as [->|Hin]; [contradiction|].
  destruct (IH Hin) as [l' ->]. cbn. eauto.
Qed.

Lemma list_index_absent (x : string) (l : list string) :
  ~ In x l -> list_index x l = Raise ValueError.
Proof.
  induction l as [|y l IH]; intros Hin; [reflexivity|].
  cbn. destruct (String.eqb_spec y x) as [->|Hne].
  - exfalso. apply Hin. now left.
  - rewrite IH; [reflexivity|]. intros H. apply Hin. now right.
Qed.

Lemma list_index_split (x : string) (l : list string) :
  In x l ->
  exists i before,
    list_index x l = Ok i
    /\ firstn (S i) l = before ++ [x]
    /\ l = before ++ x :: skipn (S i) l.
Proof.
  induction l as [|y l IH]; intros Hin; [destruct Hin|].
  cbn [list_index]. destruct (String.eqb_spec y x) as [->|Hne].
  - exists O, []. repeat split.
  - destruct Hin as [->|Hin]; [contradiction|].
    destruct (IH Hin) as (i & before & -> & Hf & Hl).
    exists (S i), (y :: before). cbn [bind]. split; [reflexivity|].
    split.
    + change (firstn (S (S i)) (y :: l)) with (y :: firstn (S i) l).
      now rewrite Hf.
    + change (skipn (S (S i)) (y :: l)) with (skipn (S i) l).
      cbn [app]. now rewrite <- Hl.
Qed.

Lemma reorder_columns_shape (df : DataFrame) :
  NoDup (columns df) ->
  In "IP Range"%string (columns df) ->
  In "CIDR Prefix"%string (columns df) ->
  exists before after,
    reorder_columns df
    = Ok (mkDataFrame
            (before ++ ["CIDR Prefix"; "IP Range"]%string ++ after)
            (rows df))
    /\ filter (fun c => negb (String.eqb c "IP Range")) (columns df)
       = before ++ ["CIDR Prefix"%string] ++ after
    /\ Permutation (columns df)
                   (before ++ ["CIDR Prefix"; "IP Range"]%string ++ after).
Proof.
  intros Hnd Hip Hcp. unfold reorder_columns.
  assert (Hex : existsb (String.eqb "IP Range") (columns df) = true).
  { apply existsb_exists. exists "IP Range"%string.
    split; [assumption|apply String.eqb_refl]. }
  rewrite Hex, list_remove_nodup by assumption. cbn [bind].
  set (rest := filter (fun c => negb (String.eqb c "IP Range")) (columns df)).
  assert (Hin : In "CIDR Prefix"%string rest).
  { apply filter_In. split; [assumption|reflexivity]. }
  destruct (list_index_split _ _ Hin) as (i & before & -> & Hf & Hl).
  cbn [bind]. rewrite Hf. set (after := skipn (S i) rest) in *.
  exists before, after.
  assert (Hperm : Permutation (columns df)
                    (before ++ ["CIDR Prefix"; "IP Range"]%string ++ after)).
  { transitivity ("IP Range"%string :: rest).
    - unfold rest. clear -Hnd Hip.
      induction Hnd as [|c l Hc Hnd IH]; [destruct Hip|].
      cbn [filter]. destruct (String.eqb_spec c "IP Range") as [->|Hne].
      + cbn [negb]. constructor. rewrite forallb_filter_id; [reflexivity|].
        apply forallb_forall. intros c' Hc'.
        destruct (String.eqb_spec c' "IP Range") as [->|_];
          [contradiction|reflexivity].
      + cbn [negb]. destruct Hip as [->|Hip]; [contradiction|].
        rewrite perm_swap. constructor. auto.
    - rewrite Hl. cbn [app].
      rewrite (Permutation_middle before ("CIDR Prefix"%string :: after)).
      apply Permutation_app_head. apply perm_swap. }
  split; [|split; [exact Hl|exact Hperm]].
  f_equal. rewrite <- app_assoc. cbn [app].
  apply select_columns_labels; [assumption|].
  intros c Hc. eapply Permutation_in; [apply Permutation_sym, Hperm|].
  exact Hc.
Qed.

(** X12: in a frame with distinct column names that has the columns
    "IP Range" and "CIDR Prefix", [reorder_columns] puts "IP Range" right
    after "CIDR Prefix", keeps the other columns in their order and leaves
    the rows alone. *)
Theorem reorder_columns_places (df : DataFrame) :
  NoDup (columns df) ->
  In "IP Range"%string (columns df) ->
  In "CIDR Prefix"%string (columns df) ->
  exists before after,
    reorder_columns df
    = Ok (mkDataFrame
            (before ++ ["CIDR Prefix"; "IP Range"]%string ++ after)
            (rows df))
    /\ filter (fun c => negb (String.eqb c "IP Range")) (columns df)
       = before ++ ["CIDR Prefix"%string] ++ after
    /\ Permutation (columns df)
                   (before ++ ["CIDR Prefix"; "IP Range"]%string ++ after).
Proof. apply reorder_columns_shape. Qed.

Lemma reorder_columns_places_witness :
  let df := mkDataFrame ["IP Range"; "Address"; "CIDR Prefix"; "Status"]%string
                        [no_address_row "empty"] in
  exists before after,
    reorder_columns df
    = Ok (mkDataFrame
            (before ++ ["CIDR Prefix"; "IP Range"]%string ++ after)
            (rows df))
    /\ filter (fun c => negb (String.eqb c "IP Range")) (columns df)
       = before ++ ["CIDR Prefix"%string] ++ after
    /\ Permutation (columns df)
                   (before ++ ["CIDR Prefix"; "IP Range"]%string ++ after).
Proof.
  cbv zeta. apply reorder_columns_places.
  - repeat constructor; simpl; intuition discriminate.
  - simpl. left. reflexivity.
  - simpl. right. right. left. reflexivity.
Defined.

(** X13: a frame with an "IP Range" column and no "CIDR Prefix" column makes
    [reorder_columns] raise [ValueError]. *)
Theorem reorder_columns_without_prefix (df : DataFrame) :
  In "IP Range"%string (columns df) ->
  ~ In "CIDR Prefix"%string (columns df) ->
  reorder_columns df = Raise ValueError.
Proof.
  intros Hip Hcp. unfold reorder_columns.
  assert (Hex : existsb (String.eqb "IP Range") (columns df) = true).
  { apply existsb_exists. exists "IP Range"%string.
    split; [assumption|apply String.eqb_refl]. }
  rewrite Hex. destruct (list_remove_present _ _ Hip) as [rest E].
  rewrite E. cbn [bind]. rewrite list_index_absent; [reflexivity|].
  intros H. apply Hcp. eapply list_remove_subset; eassumption.
Qed.

Lemma reorder_columns_without_prefix_witness :
  reorder_columns (mkDataFrame ["Address"; "IP Range"]%string [])
  = Raise ValueError.
Proof.
  apply reorder_columns_without_prefix.
  - simpl. right. left. reflexivity.
  - simpl. intuition discriminate.
Defined.

Lemma list_index_middle (x : string) (before after : list string) :
  ~ In x before ->
  list_index x (before ++ x :: after) = Ok (List.length before)
  /\ firstn (S (List.length before)) (before ++ x :: after) = before ++ [x]
  /\ skipn (S (List.length before)) (before ++ x :: after) = after.
Proof.
  induction before as [|y before IH]; intros Hx.
  - cbn. rewrite String.eqb_refl. auto.
  - destruct IH as (Hi & Hf & Hs); [intros H; apply Hx; now right|].
    cbn [app list_index List.length].
    destruct (String.eqb_spec y x) as [->|_];
      [exfalso; apply Hx; now left|].
    rewrite Hi. cbn [bind]. split; [reflexivity|]. split.
    + change (firstn (S (S (List.length before)))
                     (y :: before ++ x :: after))
        with (y :: firstn (S (List.length before)) (before ++ x :: after)).
      now rewrite Hf.
    + exact Hs.
Qed.

Lemma filter_absent (x : string) (l : list string) :
  ~ In x l -> filter (fun c => negb (String.eqb c x)) l = l.
Proof.
  intros Hx. apply forallb_filter_id, forallb_forall. intros c Hc.
  destruct (String.eqb_spec c x) as [->|_]; [contradiction|reflexivity].
Qed.

Lemma reorder_columns_adjacent (df : DataFrame)
      (before after : list string) :
  NoDup (columns df) ->
  columns df = before ++ ["CIDR Prefix"; "IP Range"]%string ++ after ->
  reorder_columns df = Ok df.
Proof.
  intros Hnd Hcols. unfold reorder_columns.
  assert (Hip : In "IP Range"%string (columns df)).
  { rewrite Hcols. apply in_or_app. right. right. now left. }
  assert (Hex : existsb (String.eqb "IP Range") (columns df) = true).
  { apply existsb_exists. exists "IP Range"%string.
    split; [assumption|apply String.eqb_refl]. }
  rewrite Hex, list_remove_nodup by assumption. cbn [bind].
  assert (Hnd' := Hnd). rewrite Hcols in Hnd'.
  apply NoDup_remove in Hnd' as [Hnd' Hcp]. cbn [app] in Hnd', Hcp.
  apply NoDup_remove in Hnd' as [_ Hir].
  assert (Hrest : filter (fun c => negb (String.eqb c "IP Range")) (columns df)
                  = before ++ "CIDR Prefix"%string :: after).
  { rewrite Hcols, filter_app. cbn [app filter String.eqb Ascii.eqb Bool.eqb negb].
    rewrite !filter_absent; [reflexivity| |];
      intros H; apply Hir, in_or_app; auto. }
  rewrite Hrest.
  destruct (list_index_middle "CIDR Prefix" before after) as (Hi & Hf & Hs).
  { intros H. apply Hcp, in_or_app. now left. }
  rewrite Hi. cbn [bind]. cbv zeta. rewrite Hf, Hs, <- app_assoc.
  cbn [app].
  rewrite select_columns_labels; [|assumption|].
  - cbn [app] in Hcols. rewrite <- Hcols. now destruct df.
  - intros c Hc. rewrite Hcols. exact Hc.
Qed.

(** X22: a frame with distinct column names in which "IP Range" already
    comes right after "CIDR Prefix", as in the frames [main] builds from
    the row dictionaries, comes back from [reorder_columns] unchanged. *)
Theorem reorder_columns_in_place (df : DataFrame)
        (before after : list string) :
  NoDup (columns df) ->
  columns df = before ++ ["CIDR Prefix"; "IP Range"]%string ++ after ->
  reorder_columns df = Ok df.
Proof. apply reorder_columns_adjacent. Qed.

Lemma reorder_columns_in_place_witness :
  reorder_columns (mkDataFrame sheet_columns [no_address_row "empty"])
  = Ok (mkDataFrame sheet_columns [no_address_row "empty"]).
Proof.
  apply (reorder_columns_in_place _ ["Address"%string]
           ["Subnet Name"; "VNet Name"; "Resource Group Name";
            "Subscription Name"; "Region"; "Status"]%string).
  - vm_compute. repeat constructor; simpl; intuition discriminate.
  - reflexivity.
Defined.

(** X23: on frames with distinct column names [reorder_columns] is
    idempotent: the frame it returns is returned unchanged by a second
    call. *)
Theorem reorder_columns_idempotent (df out : DataFrame) :
  NoDup (columns df) ->
  reorder_columns df = Ok out ->
  reorder_columns out = Ok out.
Proof.
  intros Hnd E.
  destruct (existsb (String.eqb "IP Range") (columns df)) eqn:Hex.
  - apply existsb_exists in Hex as (c & Hip & Hc).
    apply String.eqb_eq in Hc. subst c.
    destruct (in_dec string_dec "CIDR Prefix"%string (columns df))
      as [Hcp|Hcp].
    + destruct (reorder_columns_shape df Hnd Hip Hcp)
        as (before & after & E' & _ & Hperm).
      rewrite E' in E. injection E as <-.
      apply (reorder_columns_adjacent _ before after); cbn [columns].
      * eapply Permutation_NoDup; eassumption.
      * reflexivity.
    + exfalso. unfold reorder_columns in E.
      assert (Hex : existsb (String.eqb "IP Range") (columns df) = true).
      { apply existsb_exists. exists "IP Range"%string.
        split; [assumption|apply String.eqb_refl]. }
      rewrite Hex in E. destruct (list_remove_present _ _ Hip) as [rest Er].
      rewrite Er in E. cbn [bind] in E.
      rewrite list_index_absent in E; [discriminate|].
      intros H. apply Hcp. eapply list_remove_subset; eassumption.
  - unfold reorder_columns in E. rewrite Hex in E. injection E as <-.
    unfold reorder_columns. now rewrite Hex.
Qed.

Lemma reorder_columns_idempotent_witness :
  reorder_columns
    (mkDataFrame ["Address"; "CIDR Prefix"; "IP Range"; "Status"]%string
                 [no_address_row "empty"])
  = Ok (mkDataFrame ["Address"; "CIDR Prefix"; "IP Range"; "Status"]%string
                    [no_address_row "empty"]).
Proof.
  apply (reorder_columns_idempotent
           (mkDataFrame ["IP Range"; "Address"; "CIDR Prefix"; "Status"]%string
                        [no_address_row "empty"])).
  - repeat constructor; simpl; intuition discriminate.
  - vm_compute. reflexivity.
Defined.

(* ================================================================= *)
(** * Further properties of the aggregator and the normalizer *)

Lemma getitem_same_used (d1 d2 : list (network * list Row)) (cidr : network) :
  Forall2 (fun e1 e2 => fst e1 = fst e2
                        /\ filter is_used (snd e1) = filter is_used (snd e2))
          d1 d2 ->
  (getitem d1 cidr = Raise KeyError /\ getitem d2 cidr = Raise KeyError)
  \/ exists data1 data2,
      getitem d1 cidr = Ok data1 /\ getitem d2 cidr = Ok data2
      /\ filter is_used data1 = filter is_used data2.
Proof.
  intros H. induction H as [|[k1 r1] [k2 r2] d1 d2 [Ek Er] _ IH]; cbn.
  - now left.
  - cbn in Ek, Er. subst k2. destruct (same_text k1 cidr); [|exact IH].
    right. eauto.
Qed.

(** X14: rows whose status is not Used, the Unused rows and the rows
    without address space, have no influence on the aggregates: two row
    tables with the same parents and the same Used rows give the same pie
    data. *)
Theorem pie_data_ignores_other_rows (user_cidrs : list network)
        (d1 d2 : list (network * list Row)) :
  Forall2 (fun e1 e2 => fst e1 = fst e2
                        /\ filter is_used (snd e1) = filter is_used (snd e2))
          d1 d2 ->
  get_pie_data user_cidrs d1 = get_pie_data user_cidrs d2.
Proof.
  intros H. induction user_cidrs as [|cidr others IH]; [reflexivity|].
  cbn [get_pie_data]. destruct (ip_network cidr); cbn [bind]; [|reflexivity].
  destruct (getitem_same_used d1 d2 cidr H)
    as [[-> ->]|(data1 & data2 & -> & -> & E)]; [reflexivity|].
  cbn [bind]. now rewrite E, IH.
Qed.

Lemma pie_data_ignores_other_rows_witness :
  let parent := ipv4 10 0 0 0 24 in
  let used := used_row IPv4 (network_address parent) 25 "frontend" in
  get_pie_data [parent] [(parent, [used])]
  = get_pie_data [parent]
                 [(parent, [no_address_row "empty"; used;
                            no_address_row "other"])].
Proof.
  cbv zeta. apply pie_data_ignores_other_rows.
  constructor; [|constructor]. split; reflexivity.
Defined.

Lemma sum_nonneg (l : list Z) : Forall (fun z => 0 <= z) l -> 0 <= sum l.
Proof.
  intros H. induction H as [|z l Hz _ IH]; [reflexivity|].
  rewrite sum_cons. lia.
Qed.

Lemma row_block_size_nonneg (row : Row) : 0 <= row_block_size row.
Proof.
  unfold row_block_size. destruct (Address row); [|lia].
  destruct (CIDR_Prefix row); [|lia]. apply Z.pow_nonneg. lia.
Qed.

(** X15: in every aggregate the two counts are not negative, Unallocated
    is at most the address count of the parent, and the two add up to the
    larger of Allocated and that address count: to the address count
    itself exactly when the Used rows do not count more addresses than the
    parent has. *)
Theorem pie_data_slices (user_cidrs : list network)
        (cidr_data : list (network * list Row)) (pie_data : list PieRow) :
  get_pie_data user_cidrs cidr_data = Ok pie_data ->
  Forall (fun entry =>
            let total := num_addresses (CIDR_Range entry) in
            0 <= Allocated entry
            /\ 0 <= Unallocated entry <= total
            /\ Allocated entry + Unallocated entry
               = Z.max (Allocated entry) total)
         pie_data.
Proof.
  revert pie_data.
  induction user_cidrs as [|cidr others IH]; intros pie_data H;
    cbn [get_pie_data] in H.
  - injection H as <-. constructor.
  - destruct (ip_network cidr) as [net|] eqn:Enet; cbn [bind] in H;
      [|discriminate].
    apply ip_network_inv in Enet as [-> Hcidr].
    destruct (getitem cidr_data cidr) as [data|]; cbn [bind] in H;
      [|discriminate].
    destruct (comprehension row_num_addresses (filter is_used data))
      as [counts|] eqn:Ecounts; cbn [bind] in H; [|discriminate].
    destruct (get_pie_data others cidr_data) as [rest|];
      cbn [bind] in H; [|discriminate].
    injection H as <-. constructor; [|auto].
    cbn [CIDR_Range Allocated Unallocated]. cbv zeta.
    apply used_counts in Ecounts. subst counts.
    assert (0 <= sum (map row_block_size (filter is_used data))).
    { apply sum_nonneg, Forall_map, Forall_forall. intros row _.
      apply row_block_size_nonneg. }
    assert (0 < num_addresses cidr).
    { rewrite num_addresses_valid by assumption.
      apply block_size_pos, Hcidr. }
    lia.
Qed.

Lemma pie_data_slices_witness :
  Forall (fun entry =>
            let total := num_addresses (CIDR_Range entry) in
            0 <= Allocated entry
            /\ 0 <= Unallocated entry <= total
            /\ Allocated entry + Unallocated entry
               = Z.max (Allocated entry) total)
         [mkPieRow (ipv4 10 0 0 0 24) 128 128].
Proof.
  apply (pie_data_slices [ipv4 10 0 0 0 24]
           [(ipv4 10 0 0 0 24,
             [used_row IPv4 (network_address (ipv4 10 0 0 0 24)) 25
                       "frontend"])]).
  vm_compute. reflexivity.
Defined.

(** ** The normalizer leaves a sorted frame as it is *)

(** X16: normalizing a frame that is already normalized changes nothing. *)
Theorem normalizer_idempotent (df out : DataFrame) :
  sort_ipam_dataframe df = Ok out -> sort_ipam_dataframe out = Ok out.
Proof.
  unfold sort_ipam_dataframe.
  destruct (has_column "Address" df) eqn:Ha.
  - destruct (has_column "CIDR Prefix" df && has_column "Status" df) eqn:Hc;
      [|discriminate].
    intros [= <-]. unfold has_column in *. cbn [columns rows].
    rewrite Ha, Hc. f_equal. f_equal.
    set (float64 := as_float64 (mapped_keys (rows df))).
    destruct (normalizer_rows float64 (rows df)) as (Hp1 & Hs1 & Hf1).
    set (once := map snd (sort_values [by_ip_sort; by_cidr_prefix; by_status]
                            (map (with_ip_sort float64) (rows df)))) in *.
    change (map snd (sort_values [by_ip_sort; by_cidr_prefix; by_status]
                       (map (with_ip_sort (as_float64 (mapped_keys once)))
                            once))
            = once).
    rewrite <- (as_float64_permutation _ _ Hp1). fold float64.
    destruct (normalizer_rows float64 once) as (Hp2 & Hs2 & Hf2).
    apply (stable_order_unique (row_le (ip_sort float64))
                               (row_tied (ip_sort float64)));
      auto using row_tied_refl, row_le_antisym, Permutation_sym.
  - intros [= <-]. now rewrite Ha.
Qed.

Lemma normalizer_idempotent_witness :
  sort_ipam_dataframe
    (mkDataFrame sheet_columns
       [used_row IPv4 (network_address (ipv4 10 0 0 0 24)) 24 "vnet-scope";
        used_row IPv4 (network_address (ipv4 10 0 0 0 24)) 26 "frontend";
        used_row IPv4 (network_address (ipv4 10 0 0 0 24)) 26 "duplicate";
        used_row IPv4 (network_address (ipv4 10 0 0 64 26)) 26 "backend";
        no_address_row "empty"])
  = Ok (mkDataFrame sheet_columns
          [used_row IPv4 (network_address (ipv4 10 0 0 0 24)) 24 "vnet-scope";
           used_row IPv4 (network_address (ipv4 10 0 0 0 24)) 26 "frontend";
           used_row IPv4 (network_address (ipv4 10 0 0 0 24)) 26 "duplicate";
           used_row IPv4 (network_address (ipv4 10 0 0 64 26)) 26 "backend";
           no_address_row "empty"]).
Proof.
  apply (normalizer_idempotent example_frame). vm_compute. reflexivity.
Defined.

(* ================================================================= *)
(** * The collection and the Unused rows *)

(** ** Loops and dictionaries *)

Lemma same_text_eq (a b : network) : same_text a b = true <-> a = b.
Proof.
  unfold same_text. split.
  - intros H. apply andb_prop in H as [H Hp]. apply andb_prop in H as [Hv Ha].
    apply version_eqb_eq in Hv. apply Z.eqb_eq in Ha, Hp.
    destruct a, b; cbn in *; congruence.
  - intros ->. now rewrite version_eqb_refl, !Z.eqb_refl.
Qed.

Lemma for_each_invariant {A S : Type} (I : S -> Prop)
      (body : A -> S -> result S) (l : list A) :
  (forall x s s', In x l -> I s -> body x s = Ok s' -> I s') ->
  forall s s', I s -> for_each body l s = Ok s' -> I s'.
Proof.
  induction l as [|x l IH]; intros Hbody s s' Hs E; cbn in E.
  - now injection E as <-.
  - destruct (body x s) as [s1|] eqn:E1; cbn in E; [|discriminate].
    apply (IH (fun y t t' Hy => Hbody y t t' (or_intror Hy)) s1 s');
      [|assumption].
    apply (Hbody x s s1); auto. now left.
Qed.

Lemma for_each_each {A S : Type} (body : A -> S -> result S) (l : list A) :
  forall s s',
    for_each body l s = Ok s' ->
    forall x, In x l -> exists s1 s2, body x s1 = Ok s2.
Proof.
  induction l as [|y l IH]; intros s s' E x Hx; [destruct Hx|].
  cbn in E. destruct (body y s) as [s1|] eqn:E1; cbn in E; [|discriminate].
  destruct Hx as [->|Hx]; eauto.
Qed.

Lemma for_each_returns {A S : Type} (I : S -> Prop)
      (body : A -> S -> result S) (l : list A) :
  (forall x s, In x l -> I s -> exists s', body x s = Ok s' /\ I s') ->
  forall s, I s -> exists s', for_each body l s = Ok s' /\ I s'.
Proof.
  induction l as [|x l IH]; intros Hbody s Hs; cbn; [eauto|].
  destruct (Hbody x s) as (s1 & -> & Hs1); [now left|assumption|].
  cbn. apply IH; [|assumption]. intros y t Hy. apply Hbody. now right.
Qed.

Lemma dict_update_inv {V : Type} (Q : network -> V -> Prop)
      (f : V -> V) (k : network) (d : list (network * V)) :
  forall d',
    dict_update d k f = Ok d' ->
    map fst d' = map fst d
    /\ ((forall v, Q k v -> Q k (f v)) ->
        Forall (fun e => Q (fst e) (snd e)) d ->
        Forall (fun e => Q (fst e) (snd e)) d').
Proof.
  induction d as [|[k' v] d IH]; intros d' E; cbn in E; [discriminate|].
  destruct (same_text k' k) eqn:Ek.
  - apply same_text_eq in Ek. subst k'. injection E as <-.
    split; [reflexivity|]. intros Hf H. inversion H; subst.
    constructor; cbn in *; auto.
  - destruct (dict_update d k f) as [r|] eqn:Er; cbn in E; [|discriminate].
    injection E as <-. destruct (IH r eq_refl) as [Hk Hq].
    split; [cbn; now rewrite Hk|]. intros Hf H. inversion H; subst.
    constructor; auto.
Qed.

Lemma dict_update_present {V : Type} (f : V -> V) (k : network)
      (d : list (network * V)) :
  In k (map fst d) -> exists d', dict_update d k f = Ok d'.
Proof.
  induction d as [|[k' v] d IH]; intros Hin; [destruct Hin|].
  cbn. destruct (same_text k' k) eqn:Ek; [eauto|].
  destruct Hin as [Hin|Hin].
  - cbn in Hin. subst k'.
    rewrite (proj2 (same_text_eq k k) eq_refl) in Ek. discriminate.
  - destruct (IH Hin) as [d' ->]. cbn. eauto.
Qed.

Lemma dict_get_present {V : Type} (k : network) (d : list (network * V)) :
  In k (map fst d) -> exists v, dict_get d k = Ok v /\ In (k, v) d.
Proof.
  induction d as [|[k' v] d IH]; intros Hin; [destruct Hin|].
  cbn [dict_get]. destruct (same_text k' k) eqn:Ek.
  - apply same_text_eq in Ek. subst k'. exists v. split; [reflexivity|].
    now left.
  - destruct Hin as [Hin|Hin].
    + cbn in Hin. subst k'.
      rewrite (proj2 (same_text_eq k k) eq_refl) in Ek. discriminate.
    + destruct (IH Hin) as (v' & E & Hv'). exists v'. split; [assumption|].
      now right.
Qed.

Lemma getitem_present (k : network) (d : list (network * list Row)) :
  In k (map fst d) -> exists data, getitem d k = Ok data /\ In (k, data) d.
Proof.
  induction d as [|[k' v] d IH]; intros Hin; [destruct Hin|].
  cbn [getitem]. destruct (same_text k' k) eqn:Ek.
  - apply same_text_eq in Ek. subst k'. exists v. split; [reflexivity|].
    now left.
  - destruct Hin as [Hin|Hin].
    + cbn in Hin. subst k'.
      rewrite (proj2 (same_text_eq k k) eq_refl) in Ek. discriminate.
    + destruct (IH Hin) as (v' & E & Hv'). exists v'. split; [assumption|].
      now right.
Qed.

Lemma has_key_in {V : Type} (d : list (network * V)) (k : network) :
  has_key d k = true -> In k (map fst d).
Proof.
  unfold has_key. intros H. apply existsb_exists in H as (e & He & Hk).
  apply same_text_eq in Hk. subst k. now apply in_map.
Qed.

Lemma dict_init_spec {V : Type} (v : V) (keys : list network) :
  (forall k, In k keys -> In k (map fst (dict_init keys v)))
  /\ Forall (fun e => snd e = v) (dict_init keys v).
Proof.
  unfold dict_init.
  assert (H : forall d : list (network * V),
             Forall (fun e => snd e = v) d ->
             (forall k, In k (map fst d) \/ In k keys ->
                        In k (map fst
                                (fold_left
                                   (fun d k => if has_key d k then d
                                               else d ++ [(k, v)]) keys d)))
             /\ Forall (fun e => snd e = v)
                       (fold_left
                          (fun d k => if has_key d k then d
                                      else d ++ [(k, v)]) keys d)).
  { induction keys as [|k0 keys IH]; intros d Hd; cbn [fold_left].
    - split; [|assumption]. intros k [H|[]]. exact H.
    - destruct (has_key d k0) eqn:Hk.
      + destruct (IH d Hd) as [H1 H2]. split; [|assumption].
        intros k [H|[->|H]]; apply H1; auto.
        left. now apply has_key_in.
      + destruct (IH (d ++ [(k0, v)])) as [H1 H2].
        { apply Forall_app. split; [assumption|]. now constructor. }
        split; [|assumption].
        intros k [H|[->|H]]; apply H1; auto; left;
          rewrite map_app; apply in_or_app; cbn; auto. }
  destruct (H [] (Forall_nil _)) as [H1 H2]. split; [|assumption].
  intros k Hk. apply H1. now right.
Qed.

(** ** What the collection keeps true *)

Lemma set_add_forall (P : network -> Prop) (s : list network) (net : network) :
  Forall P s -> P net -> Forall P (set_add s net).
Proof.
  intros Hs Hn. unfold set_add. destruct (existsb _ s); [assumption|].
  apply Forall_app. split; [assumption|]. now constructor.
Qed.

Lemma no_address_row_ok (subnet vnet rg sub region : string) :
  row_ok (mkRow AddressNA PrefixNA "N/A" subnet vnet rg sub region
                "No address space assigned").
Proof. split; [discriminate|]. cbn. auto. Qed.

Lemma append_rows_ok (keys : list network) (row : Row) (k : network)
      (cidr_data cidr_data' : list (network * list Row)) :
  row_ok row -> map fst cidr_data = keys -> rows_ok cidr_data ->
  dict_update cidr_data k (append_row row) = Ok cidr_data' ->
  map fst cidr_data' = keys /\ rows_ok cidr_data'.
Proof.
  intros Hrow Hk Hrows E.
  destruct (dict_update_inv (fun _ rows => Forall row_ok rows) _ _ _ _ E)
    as [Hk' Hq].
  split; [congruence|]. apply Hq; [|exact Hrows].
  intros rows Hr. unfold append_row. apply Forall_app.
  split; [assumption|]. now constructor.
Qed.

Lemma record_used_ok (keys user_cidrs : list network) (net : network)
      (row : Row) (st st' : ipam_state) :
  valid net -> row_ok row -> state_ok keys st ->
  record_used user_cidrs net row st = Ok st' -> state_ok keys st'.
Proof.
  intros Hnet Hrow Hst E. unfold record_used in E.
  eapply (for_each_invariant (state_ok keys)); [|exact Hst|exact E].
  intros uc s s' _ (K1 & K2 & R & B) Eb. cbv beta in Eb.
  destruct (subnet_of net uc) as [[|]|] eqn:Es; cbn [bind] in Eb;
    try discriminate.
  - destruct (dict_update (fst s) uc (append_row row)) as [cd|] eqn:Ecd;
      cbn [bind] in Eb; [|discriminate].
    destruct (dict_update (snd s) uc (fun s0 => set_add s0 net))
      as [um|] eqn:Eum; cbn [bind] in Eb; [|discriminate].
    injection Eb as <-.
    destruct (append_rows_ok _ _ _ _ _ Hrow K1 R Ecd) as [K1' R'].
    destruct (dict_update_inv
                (fun k s0 => Forall (fun n => block_of k n
                                              /\ subnet_of n k = Ok true) s0)
                _ _ _ _ Eum) as [K2' Hq].
    refine (conj K1' (conj _ (conj R' _))); cbn [fst snd]; [congruence|].
    apply Hq; [|exact B]. intros s0 Hs0. apply set_add_forall; [assumption|].
    split; [|assumption]. split; [now apply ip_network_valid|].
    now apply subnet_of_true in Es.
  - injection Eb as <-. repeat split; assumption.
Qed.

Lemma record_no_address_ok (keys user_cidrs : list network) (row : Row)
      (st st' : ipam_state) :
  row_ok row -> state_ok keys st ->
  record_no_address user_cidrs row st = Ok st' -> state_ok keys st'.
Proof.
  intros Hrow Hst E. unfold record_no_address in E.
  eapply (for_each_invariant (state_ok keys)); [|exact Hst|exact E].
  intros uc s s' _ (K1 & K2 & R & B) Eb. cbv beta in Eb.
  destruct (dict_update (fst s) uc (append_row row)) as [cd|] eqn:Ecd;
    cbn [bind] in Eb; [|discriminate].
  injection Eb as <-.
  destruct (append_rows_ok _ _ _ _ _ Hrow K1 R Ecd) as [K1' R'].
  repeat split; assumption.
Qed.

Lemma record_used_family (user_cidrs : list network) (net : network)
      (row : Row) (st st' : ipam_state) :
  record_used user_cidrs net row st = Ok st' ->
  forall p, In p user_cidrs -> version net = version p.
Proof.
  intros E p Hp. unfold record_used in E.
  destruct (for_each_each _ _ _ _ E p Hp) as (s1 & s2 & Eb).
  cbv beta in Eb.
  destruct (version_eqb (version net) (version p)) eqn:Ev.
  - now apply version_eqb_eq.
  - unfold subnet_of, _is_subnet_of in Eb. rewrite Ev in Eb. discriminate.
Qed.

Lemma has_key_keys {V : Type} (d : list (network * V)) (k : network) :
  has_key d k = existsb (fun k' => same_text k' k) (map fst d).
Proof.
  unfold has_key. induction d as [|e d IH]; cbn; [reflexivity|].
  now rewrite IH.
Qed.

Lemma dict_init_keys {V W : Type} (v : V) (w : W) (keys : list network) :
  map fst (dict_init keys v) = map fst (dict_init keys w).
Proof.
  unfold dict_init.
  assert (H : forall (d : list (network * V)) (d' : list (network * W)),
             map fst d = map fst d' ->
             map fst (fold_left (fun d k => if has_key d k then d
                                            else d ++ [(k, v)]) keys d)
             = map fst (fold_left (fun d k => if has_key d k then d
                                              else d ++ [(k, w)]) keys d')).
  { induction keys as [|k keys IH]; intros d d' E; cbn [fold_left]; [exact E|].
    apply IH. rewrite !has_key_keys, E.
    destruct (existsb _ (map fst d')); [exact E|].
    rewrite !map_app, E. reflexivity. }
  now apply H.
Qed.

Section Pipeline.
Variable str_address : ip_version -> Z -> string.

Lemma network_row_ok (net : network)
      (subnet vnet rg sub region status : string) :
  valid net -> (status = "Used" \/ status = "Unused")%string ->
  row_ok (network_row str_address net subnet vnet rg sub region status).
Proof.
  intros Hnet Hstatus. split.
  - intros _. unfold row_num_addresses, network_row. cbn [Address CIDR_Prefix].
    rewrite (proj2 (make_network_valid _ _ _ net)); [cbn; eauto|].
    split; [|assumption]. now destruct net.
  - cbn [network_row Status]. tauto.
Qed.

Lemma collect_subnet_ok (keys user_cidrs : list network) (sub rg : string)
      (vnet : VirtualNetwork) (subnet : Subnet) (st st' : ipam_state) :
  state_ok keys st ->
  collect_subnet str_address user_cidrs sub rg vnet subnet st = Ok st' ->
  state_ok keys st'.
Proof.
  intros Hst E. unfold collect_subnet in E.
  destruct (address_prefix subnet) as [prefix|].
  - destruct (ip_network prefix) as [net|] eqn:En; cbn [bind] in E;
      [|discriminate].
    apply ip_network_inv in En as [-> Hnet].
    eapply record_used_ok; [exact Hnet| |exact Hst|exact E].
    apply network_row_ok; auto.
  - eapply record_no_address_ok; [|exact Hst|exact E].
    apply no_address_row_ok.
Qed.

Lemma collect_vnet_ok (keys user_cidrs : list network) (sub rg : string)
      (vnet : VirtualNetwork) (st st' : ipam_state) :
  state_ok keys st ->
  collect_vnet str_address user_cidrs sub rg vnet st = Ok st' ->
  state_ok keys st'.
Proof.
  intros Hst E. unfold collect_vnet in E.
  destruct (for_each _ (address_prefixes vnet) st) as [st1|] eqn:E1;
    cbn [bind] in E; [|discriminate].
  assert (Hst1 : state_ok keys st1).
  { eapply (for_each_invariant (state_ok keys)); [|exact Hst|exact E1].
    intros prefix s s' _ Hs Eb. cbv beta in Eb.
    destruct (ip_network prefix) as [net|] eqn:En; cbn [bind] in Eb;
      [|discriminate].
    apply ip_network_inv in En as [-> Hnet].
    eapply record_used_ok; [exact Hnet| |exact Hs|exact Eb].
    apply network_row_ok; auto. }
  eapply (for_each_invariant (state_ok keys)); [|exact Hst1|exact E].
  intros subnet s s' _ Hs Eb. eapply collect_subnet_ok; eassumption.
Qed.

Lemma collect_ok (user_cidrs : list network)
      (subscriptions : list Subscription) (st : ipam_state) :
  collect_azure_ipam_data str_address user_cidrs subscriptions = Ok st ->
  state_ok (map fst (dict_init user_cidrs (@nil Row))) st.
Proof.
  intros E. unfold collect_azure_ipam_data in E.
  eapply (for_each_invariant
            (state_ok (map fst (dict_init user_cidrs (@nil Row)))));
    [| |exact E].
  - intros sub s s' _ Hs Es.
    eapply (for_each_invariant
              (state_ok (map fst (dict_init user_cidrs (@nil Row)))));
      [|exact Hs|exact Es].
    intros rg t t' _ Ht Et.
    eapply (for_each_invariant
              (state_ok (map fst (dict_init user_cidrs (@nil Row)))));
      [|exact Ht|exact Et].
    intros vnet r r' _ Hr Er. eapply collect_vnet_ok; eassumption.
  - refine (conj eq_refl (conj _ (conj _ _))); cbn [fst snd].
    + apply dict_init_keys.
    + destruct (dict_init_spec (@nil Row) user_cidrs) as [_ H].
      eapply Forall_impl; [|exact H]. cbn. intros e ->. constructor.
    + destruct (dict_init_spec (@nil network) user_cidrs) as [_ H].
      eapply Forall_impl; [|exact H]. cbn. intros e ->. constructor.
Qed.

Lemma collect_vnet_family (user_cidrs : list network) (sub rg : string)
      (vnet : VirtualNetwork) (st st' : ipam_state) :
  collect_vnet str_address user_cidrs sub rg vnet st = Ok st' ->
  forall n, In n (vnet_prefixes vnet) ->
            ip_network n = Ok n
            /\ forall p, In p user_cidrs -> version n = version p.
Proof.
  intros E n Hn. unfold collect_vnet in E.
  destruct (for_each _ (address_prefixes vnet) st) as [st1|] eqn:E1;
    cbn [bind] in E; [|discriminate].
  unfold vnet_prefixes in Hn. apply in_app_or in Hn as [Hn|Hn].
  - destruct (for_each_each _ _ _ _ E1 n Hn) as (s1 & s2 & Eb).
    cbv beta in Eb.
    destruct (ip_network n) as [net|] eqn:En; cbn [bind] in Eb;
      [|discriminate].
    apply ip_network_inv in En as [-> Hnet].
    split; [reflexivity|].
    eapply record_used_family; eassumption.
  - unfold subnet_prefixes in Hn. apply in_flat_map in Hn as (subnet & Hs & Hn).
    destruct (for_each_each _ _ _ _ E subnet Hs) as (s1 & s2 & Eb).
    unfold collect_subnet in Eb.
    destruct (address_prefix subnet) as [prefix|]; [|destruct Hn].
    destruct Hn as [->|[]].
    destruct (ip_network n) as [net|] eqn:En; cbn [bind] in Eb;
      [|discriminate].
    apply ip_network_inv in En as [-> Hnet].
    split; [reflexivity|].
    eapply record_used_family; eassumption.
Qed.

(** X17: the collection returns only when every address prefix that is
    listed, of a virtual network or of a subnet, is the text of a network
    of the family of every range: one IPv6 prefix in the tenant makes a
    run over an IPv4 range fail. *)
Theorem collection_single_family (user_cidrs : list network)
        (subscriptions : list Subscription) (st : ipam_state) :
  collect_azure_ipam_data str_address user_cidrs subscriptions = Ok st ->
  Forall (fun n => ip_network n = Ok n
                   /\ forall p, In p user_cidrs -> version n = version p)
         (listed_prefixes subscriptions).
Proof.
  intros E. apply Forall_forall. intros n Hn.
  unfold listed_prefixes in Hn.
  apply in_flat_map in Hn as (sub & Hsub & Hn).
  apply in_flat_map in Hn as (rg & Hrg & Hn).
  apply in_flat_map in Hn as (vnet & Hvnet & Hn).
  unfold collect_azure_ipam_data in E.
  destruct (for_each_each _ _ _ _ E sub Hsub) as (s1 & s2 & Es).
  destruct (for_each_each _ _ _ _ Es rg Hrg) as (t1 & t2 & Et).
  destruct (for_each_each _ _ _ _ Et vnet Hvnet) as (r1 & r2 & Er).
  eapply collect_vnet_family; eassumption.
Qed.

(** X18: after the collection the occupied blocks recorded for a range are
    blocks of its family inside it, and every range has its entry. *)
Theorem collected_blocks_inside (user_cidrs : list network)
        (subscriptions : list Subscription)
        (cidr_data : list (network * list Row))
        (used_subnets_map : list (network * list network)) :
  collect_azure_ipam_data str_address user_cidrs subscriptions
  = Ok (cidr_data, used_subnets_map) ->
  forall p, In p user_cidrs ->
    exists used_networks,
      dict_get used_subnets_map p = Ok used_networks
      /\ Forall (fun n => block_of p n /\ subnet_of n p = Ok true)
                used_networks.
Proof.
  intros E p Hp. apply collect_ok in E as (_ & K2 & _ & B).
  cbn [fst snd] in *.
  destruct (dict_init_spec (@nil Row) user_cidrs) as [Hkeys _].
  destruct (dict_get_present p used_subnets_map) as (nets & Eg & Hin).
  { rewrite K2. now apply Hkeys. }
  exists nets. split; [assumption|].
  unfold blocks_ok in B. rewrite Forall_forall in B. apply (B _ Hin).
Qed.

Lemma add_unused_rows_ok (keys user_cidrs : list network)
      (used_subnets_map : list (network * list network))
      (cidr_data : list (network * list Row)) :
  Forall valid user_cidrs ->
  (forall p, In p user_cidrs -> In p keys) ->
  map fst used_subnets_map = keys -> blocks_ok used_subnets_map ->
  map fst cidr_data = keys -> rows_ok cidr_data ->
  exists cidr_data',
    add_unused_rows str_address user_cidrs used_subnets_map cidr_data
    = Ok cidr_data'
    /\ map fst cidr_data' = keys /\ rows_ok cidr_data'.
Proof.
  intros Hvalid Hkeys K2 B K1 R. unfold add_unused_rows.
  apply (for_each_returns (fun cd => map fst cd = keys /\ rows_ok cd));
    [|auto].
  intros p cd Hp [Kcd Rcd].
  destruct (dict_get_present p used_subnets_map) as (nets & -> & Hin).
  { rewrite K2. auto. }
  cbn [bind].
  assert (Hnets : Forall (fun n => block_of p n /\ subnet_of n p = Ok true)
                         nets).
  { unfold blocks_ok in B. rewrite Forall_forall in B. apply (B _ Hin). }
  assert (Hpv : valid p) by (rewrite Forall_forall in Hvalid; auto).
  destruct (find_unused_subnets_family p nets) as [-> Hfree];
    [assumption| | |].
  { eapply Forall_impl; [|exact Hnets]. intros n [[Hn _] _].
    now apply ip_network_valid. }
  { apply family_of_forall. rewrite Forall_forall in Hnets.
    intros n Hn. now apply Hnets. }
  cbn [bind].
  apply (for_each_returns (fun cd => map fst cd = keys /\ rows_ok cd));
    [|auto].
  intros unused cd0 Hunused [Kcd0 Rcd0].
  destruct (dict_update_present
              (append_row (network_row str_address unused EmptyString
                             EmptyString EmptyString EmptyString EmptyString
                             "Unused")) p cd0) as [cd1 E1].
  { rewrite Kcd0. auto. }
  exists cd1. split; [assumption|].
  eapply append_rows_ok; [|exact Kcd0|exact Rcd0|exact E1].
  apply network_row_ok; [|auto].
  rewrite Forall_forall in Hfree. now apply Hfree.
Qed.

(** X19: after a collection that returned, the rest of the data flow of
    [main] cannot fail: the Unused rows of every range are computed and
    appended, and [get_pie_data] gives the aggregates of the result. *)
Theorem report_data_after_collection (user_cidrs : list network)
        (subscriptions : list Subscription)
        (cidr_data : list (network * list Row))
        (used_subnets_map : list (network * list network)) :
  Forall (fun p => ip_network p = Ok p) user_cidrs ->
  collect_azure_ipam_data str_address user_cidrs subscriptions
  = Ok (cidr_data, used_subnets_map) ->
  exists cidr_data' pie_data,
    add_unused_rows str_address user_cidrs used_subnets_map cidr_data
    = Ok cidr_data'
    /\ get_pie_data user_cidrs cidr_data' = Ok pie_data.
Proof.
  intros Hvalid E. apply collect_ok in E as (K1 & K2 & R & B).
  cbn [fst snd] in *.
  assert (Hv : Forall valid user_cidrs).
  { eapply Forall_impl; [|exact Hvalid]. intros p. apply ip_network_valid. }
  destruct (dict_init_spec (@nil Row) user_cidrs) as [Hkeys _].
  destruct (add_unused_rows_ok _ user_cidrs used_subnets_map cidr_data
              Hv Hkeys K2 B K1 R) as (cd' & E' & K' & R').
  destruct (get_pie_data_returns user_cidrs cd') as [pie Epie]; [|eauto].
  rewrite Forall_forall in *. intros p Hp. split; [auto|].
  destruct (getitem_present p cd') as (data & Eg & Hin).
  { rewrite K'. auto. }
  exists data. split; [assumption|].
  unfold rows_ok in R'. rewrite Forall_forall in R'.
  specialize (R' _ Hin). cbn [snd] in R'.
  eapply Forall_impl; [|exact R']. intros row [Hrow _]. exact Hrow.
Qed.

(** X20: every row of the tables that go to the sheets has one of the
    three statuses Used, Unused and No address space assigned. *)
Theorem report_row_statuses (user_cidrs : list network)
        (subscriptions : list Subscription)
        (cidr_data cidr_data' : list (network * list Row))
        (used_subnets_map : list (network * list network)) :
  Forall (fun p => ip_network p = Ok p) user_cidrs ->
  collect_azure_ipam_data str_address user_cidrs subscriptions
  = Ok (cidr_data, used_subnets_map) ->
  add_unused_rows str_address user_cidrs used_subnets_map cidr_data
  = Ok cidr_data' ->
  forall p rows row,
    In (p, rows) cidr_data' -> In row rows ->
    (Status row = "Used" \/ Status row = "Unused"
     \/ Status row = "No address space assigned")%string.
Proof.
  intros Hvalid E E' p rows row Hin Hrow.
  apply collect_ok in E as (K1 & K2 & R & B). cbn [fst snd] in *.
  assert (Hv : Forall valid user_cidrs).
  { eapply Forall_impl; [|exact Hvalid]. intros q. apply ip_network_valid. }
  destruct (dict_init_spec (@nil Row) user_cidrs) as [Hkeys _].
  destruct (add_unused_rows_ok _ user_cidrs used_subnets_map cidr_data
              Hv Hkeys K2 B K1 R) as (cd' & Ecd & _ & R').
  assert (cd' = cidr_data') by congruence. subst cd'.
  unfold rows_ok in R'. rewrite Forall_forall in R'.
  specialize (R' _ Hin). cbn in R'. rewrite Forall_forall in R'.
  now destruct (R' row Hrow).
Qed.

Lemma dict_update_getitem (f : list Row -> list Row) (k : network)
      (d : list (network * list Row)) :
  forall d',
    dict_update d k f = Ok d' ->
    (forall v, getitem d k = Ok v -> getitem d' k = Ok (f v))
    /\ (forall k', k' <> k -> getitem d' k' = getitem d k').
Proof.
  induction d as [|[k0 v0] d IH]; intros d' E; cbn [dict_update] in E;
    [discriminate|].
  destruct (same_text k0 k) eqn:Ek.
  - injection E as <-. split.
    + intros v Hv. cbn [getitem] in *. rewrite Ek in *.
      injection Hv as <-. reflexivity.
    + intros k' Hk'. cbn [getitem]. apply same_text_eq in Ek. subst k0.
      destruct (same_text k k') eqn:Ek'; [|reflexivity].
      apply same_text_eq in Ek'. congruence.
  - destruct (dict_update d k f) as [r|] eqn:Er; cbn [bind] in E;
      [|discriminate].
    injection E as <-. destruct (IH r eq_refl) as [Hsame Hother]. split.
    + intros v Hv. cbn [getitem] in *. rewrite Ek in *. auto.
    + intros k' Hk'. cbn [getitem].
      destruct (same_text k0 k'); [reflexivity|auto].
Qed.

Lemma append_free_rows (p : network) (free : list network) :
  forall cidr_data cidr_data',
    for_each (fun unused cidr_data =>
                dict_update cidr_data p
                  (append_row (unused_row_of str_address unused)))
             free cidr_data
    = Ok cidr_data' ->
    (forall rows, getitem cidr_data p = Ok rows ->
                  getitem cidr_data' p
                  = Ok (rows ++ map (unused_row_of str_address) free))
    /\ (forall k, k <> p -> getitem cidr_data' k = getitem cidr_data k).
Proof.
  induction free as [|u free IH]; intros cd cd' E; cbn [for_each] in E.
  - injection E as <-. split; [|reflexivity].
    intros rows ->. cbn [map]. now rewrite app_nil_r.
  - destruct (dict_update cd p _) as [cd1|] eqn:E1; cbn [bind] in E;
      [|discriminate].
    destruct (dict_update_getitem _ _ _ _ E1) as [Hsame Hother].
    destruct (IH _ _ E) as [Hsame' Hother']. split.
    + intros rows Hrows. rewrite (Hsame' _ (Hsame _ Hrows)).
      unfold append_row. cbn [map]. now rewrite <- app_assoc.
    + intros k Hk. rewrite (Hother' _ Hk). auto.
Qed.

Lemma add_unused_rows_entries
      (used_subnets_map : list (network * list network))
      (user_cidrs : list network) :
  NoDup user_cidrs ->
  forall cidr_data cidr_data',
    add_unused_rows str_address user_cidrs used_subnets_map cidr_data
    = Ok cidr_data' ->
    (forall p rows,
        In p user_cidrs -> getitem cidr_data p = Ok rows ->
        exists used_networks free,
          dict_get used_subnets_map p = Ok used_networks
          /\ find_unused_subnets p used_networks = Ok free
          /\ getitem cidr_data' p
             = Ok (rows ++ map (unused_row_of str_address) free))
    /\ (forall k, ~ In k user_cidrs ->
                  getitem cidr_data' k = getitem cidr_data k).
Proof.
  unfold add_unused_rows.
  induction 1 as [|p0 rest Hnotin Hnodup IH]; intros cd cd' E;
    cbn [for_each] in E.
  - injection E as <-. split; [intros p rows []|reflexivity].
  - destruct (dict_get used_subnets_map p0) as [nets|] eqn:Eg;
      cbn [bind] in E; [|discriminate].
    destruct (find_unused_subnets p0 nets) as [free|] eqn:Ef;
      cbn [bind] in E; [|discriminate].
    match type of E with
    | (s' <- ?c ;; _) = _ => destruct c as [cd1|] eqn:E1
    end; cbn [bind] in E; [|discriminate].
    destruct (append_free_rows _ _ _ _ E1) as [Hsame Hother].
    destruct (IH _ _ E) as [Hin Hout]. split.
    + intros p rows [<-|Hp] Hrows.
      * exists nets, free. refine (conj Eg (conj Ef _)).
        rewrite (Hout _ Hnotin). auto.
      * apply Hin; [assumption|]. rewrite Hother; [assumption|].
        intros ->. contradiction.
    + intros k Hk. rewrite Hout by (intros H; apply Hk; now right).
      apply Hother. intros ->. apply Hk. now left.
Qed.

(** X21: for ranges that are all different, the rows of a range after the
    loop of [main] are the rows the collection left for it followed by one
    Unused row for every free block [find_unused_subnets] returns for the
    blocks recorded for that range, in the order of the result; and the
    free blocks are the same in whatever order the recorded set is
    enumerated. *)
Theorem unused_rows_of_free_blocks (user_cidrs : list network)
        (subscriptions : list Subscription)
        (cidr_data cidr_data' : list (network * list Row))
        (used_subnets_map : list (network * list network)) :
  NoDup user_cidrs ->
  Forall (fun p => ip_network p = Ok p) user_cidrs ->
  collect_azure_ipam_data str_address user_cidrs subscriptions
  = Ok (cidr_data, used_subnets_map) ->
  add_unused_rows str_address user_cidrs used_subnets_map cidr_data
  = Ok cidr_data' ->
  forall p, In p user_cidrs ->
    exists used_networks free rows,
      dict_get used_subnets_map p = Ok used_networks
      /\ (forall enumeration,
             Permutation used_networks enumeration ->
             find_unused_subnets p enumeration = Ok free)
      /\ getitem cidr_data p = Ok rows
      /\ getitem cidr_data' p
         = Ok (rows ++ map (unused_row_of str_address) free).
Proof.
  intros Hnodup Hvalid E E' p Hp.
  apply collect_ok in E as (K1 & K2 & R & B). cbn [fst snd] in *.
  destruct (dict_init_spec (@nil Row) user_cidrs) as [Hkeys _].
  destruct (getitem_present p cidr_data) as (rows & Erows & _).
  { rewrite K1. auto. }
  destruct (add_unused_rows_entries _ _ Hnodup _ _ E') as [Hin _].
  destruct (Hin p rows Hp Erows) as (nets & free & Eg & Ef & Eg').
  exists nets, free, rows. refine (conj Eg (conj _ (conj Erows Eg'))).
  intros enumeration Hperm.
  destruct (dict_get_present p used_subnets_map) as (nets' & Eg2 & Hnets).
  { rewrite K2. auto. }
  assert (nets' = nets) by congruence. subst nets'.
  unfold blocks_ok in B. rewrite Forall_forall in B.
  specialize (B _ Hnets). cbn [fst snd] in B. rewrite Forall_forall in B.
  assert (Hpv : valid p).
  { rewrite Forall_forall in Hvalid. now apply ip_network_valid, Hvalid. }
  assert (Hfam : family_of (version p) nets = true).
  { apply family_of_forall. intros n Hn. now apply B. }
  assert (Hv : Forall valid nets).
  { apply Forall_forall. intros n Hn. apply ip_network_valid.
    now apply B. }
  destruct (find_unused_subnets_family p nets Hpv Hv Hfam) as [Enets _].
  destruct (find_unused_subnets_family p enumeration) as [-> _];
    [assumption| | |].
  - eapply Permutation_Forall; eassumption.
  - now rewrite <- (family_of_permutation _ _ _ Hperm).
  - rewrite <- (stable_sort_block_permutation _ _ _ Hfam Hperm).
    congruence.
Qed.
End Pipeline.

Lemma collection_single_family_witness :
  Forall (fun n => ip_network n = Ok n
                   /\ forall p, In p [ipv4 10 0 0 0 24] ->
                                version n = version p)
         (listed_prefixes example_listing).
Proof.
  eapply (collection_single_family (fun _ _ => "address"%string)
            [ipv4 10 0 0 0 24] example_listing).
  vm_compute. reflexivity.
Defined.

Example dual_stack_collection_fails :
  collect_azure_ipam_data (fun _ _ => "address"%string) [ipv4 10 0 0 0 24]
                          dual_stack_listing
  = Raise TypeError.
Proof. vm_compute. reflexivity. Qed.

Lemma collected_blocks_inside_witness :
  exists used_networks,
    dict_get [(ipv4 10 0 0 0 24, [ipv4 10 0 0 0 25; ipv4 10 0 0 0 26])]
             (ipv4 10 0 0 0 24)
    = Ok used_networks
    /\ Forall (fun n => block_of (ipv4 10 0 0 0 24) n
                        /\ subnet_of n (ipv4 10 0 0 0 24) = Ok true)
              used_networks.
Proof.
  eapply (collected_blocks_inside (fun _ _ => "address"%string)
            [ipv4 10 0 0 0 24] example_listing).
  - vm_compute. reflexivity.
  - left. reflexivity.
Defined.

Lemma report_data_after_collection_witness :
  exists cidr_data cidr_data' pie_data,
    add_unused_rows (fun _ _ => "address"%string) [ipv4 10 0 0 0 24]
      [(ipv4 10 0 0 0 24, [ipv4 10 0 0 0 25; ipv4 10 0 0 0 26])] cidr_data
    = Ok cidr_data'
    /\ get_pie_data [ipv4 10 0 0 0 24] cidr_data' = Ok pie_data.
Proof.
  eexists.
  eapply (report_data_after_collection (fun _ _ => "address"%string)
            [ipv4 10 0 0 0 24] example_listing).
  - constructor; [vm_compute; reflexivity|constructor].
  - vm_compute. reflexivity.
Defined.

Lemma report_row_statuses_witness :
  (Status (unused_row_of (fun _ _ => "address"%string) (ipv4 10 0 0 128 25))
   = "Used"
   \/ Status (unused_row_of (fun _ _ => "address"%string)
                            (ipv4 10 0 0 128 25))
      = "Unused"
   \/ Status (unused_row_of (fun _ _ => "address"%string)
                            (ipv4 10 0 0 128 25))
      = "No address space assigned")%string.
Proof.
  eapply (report_row_statuses (fun _ _ => "address"%string)
            [ipv4 10 0 0 0 24] example_listing)
    with (p := ipv4 10 0 0 0 24).
  - constructor; [vm_compute; reflexivity|constructor].
  - vm_compute. reflexivity.
  - vm_compute. reflexivity.
  - simpl. left. reflexivity.
  - simpl. do 3 right. left. vm_compute. reflexivity.
Defined.

Lemma unused_rows_of_free_blocks_witness :
  exists cidr_data cidr_data' used_subnets_map used_networks free rows,
    dict_get used_subnets_map (ipv4 10 0 0 0 24) = Ok used_networks
    /\ (forall enumeration,
           Permutation used_networks enumeration ->
           find_unused_subnets (ipv4 10 0 0 0 24) enumeration = Ok free)
    /\ getitem cidr_data (ipv4 10 0 0 0 24) = Ok rows
    /\ getitem cidr_data' (ipv4 10 0 0 0 24)
       = Ok (rows ++ map (unused_row_of (fun _ _ => "address"%string)) free).
Proof.
  do 3 eexists.
  eapply (unused_rows_of_free_blocks (fun _ _ => "address"%string)
            [ipv4 10 0 0 0 24] example_listing).
  - constructor; [intros []|constructor].
  - constructor; [vm_compute; reflexivity|constructor].
  - vm_compute. reflexivity.
  - vm_compute. reflexivity.
  - left. reflexivity.
Defined.
